(** * cost-shredly: balance engine, realtime reconciliation and credential store

    A shallow embedding of the three pieces of the client that carry
    logic: [computeMemberBalance] and the [expenseAdded] handler of the
    group view (components/GroupDetails), and the credential helpers of
    utils/auth.js.

    JavaScript numbers are IEEE-754 binary64 values.  They are modelled by
    the Standard Library's [spec_float] with [prec = 53] and [emax = 1024],
    whose operations are plain functions on [Z] and therefore evaluate.

    Further parts of the client follow the same way: the balance display
    of the member rows, [getAuthUser] and [ProtectedRoute], the remaining
    event handlers and the chat form of the group view, the socket module
    and the effects of the group view from render to render, the
    dashboard's group list and group creation, and the login form. *)

From Stdlib Require Import ZArith Zpower QArith Qabs Qpower Lia Lqa SpecFloat.
From stdpp Require Import base strings list gmap.
From stdpp Require Import pretty.

Local Open Scope Z_scope.

(** ** JavaScript numbers *)

Module JSNumber.

Definition prec : Z := 53.
Definition emax : Z := 1024.

Abbreviation number := spec_float.

Definition zero : number := S754_zero false.
Definition add : number -> number -> number := SFadd prec emax.
Definition sub : number -> number -> number := SFsub prec emax.
Definition mul : number -> number -> number := SFmul prec emax.
Definition div : number -> number -> number := SFdiv prec emax.
Definition abs : number -> number := SFabs.

(** [a > b], [a < b] and [a === b] on numbers. *)
Definition gt (a b : number) : bool := SFltb b a.
Definition lt (a b : number) : bool := SFltb a b.
Definition strict_eq (a b : number) : bool := SFeqb a b.

(** The Number value of a non-negative integer (an array length). *)
Definition of_nat (n : nat) : number :=
  binary_normalize prec emax (Z.of_nat n) 0 false.

(** The Number value of the positive rational [num / den]: the binary64
    value nearest to it, ties to even.  This is what reading a decimal
    literal yields. *)
Definition nearest (neg : bool) (num den : positive) : number :=
  let '(mz, ez, lz) := SFdiv_core_binary prec emax (Zpos num) 0 (Zpos den) 0 in
  binary_round_aux prec emax neg mz ez lz.

(** The strings that [Number.prototype.toFixed] can return, kept in
    structured form.
    - [NaNLit] is the string NaN;
    - [InfinityLit neg] is Infinity, with a leading minus sign when [neg];
    - [FixedLit neg n f] is the optional minus sign followed by the decimal
      digits of the integer [n], padded to at least [f + 1] digits, with a
      point before the last [f] digits (for [f = 2] and [n = 3333] this is
      33.33);
    - [ShortestLit neg m e] is the optional minus sign followed by
      Number::toString of the finite number [m * 2^e], which [toFixed]
      returns for magnitudes of at least 10^21. *)
Inductive numeral : Type :=
| NaNLit
| InfinityLit (neg : bool)
| FixedLit (neg : bool) (n : Z) (f : nat)
| ShortestLit (neg : bool) (m : positive) (e : Z).

(** [10^21 <= m * 2^e] *)
Definition at_least_1e21 (m : positive) (e : Z) : bool :=
  match e with
  | Zneg p => 10 ^ 21 * 2 ^ Zpos p <=? Zpos m
  | _ => 10 ^ 21 <=? Zpos m * 2 ^ e
  end.

(** The integer [n] for which [n / 10^f - m * 2^e] is as close to zero as
    possible, the larger one when there are two:
    [n = floor (m * 2^e * 10^f + 1/2)]. *)
Definition scaled_round (m : positive) (e : Z) (f : nat) : Z :=
  match e with
  | Zneg p => (2 * Zpos m * 10 ^ Z.of_nat f + 2 ^ Zpos p) / 2 ^ (Zpos p + 1)
  | _ => Zpos m * 2 ^ e * 10 ^ Z.of_nat f
  end.

(** [x.toFixed(f)] (ECMAScript, Number.prototype.toFixed). *)
Definition toFixed (x : number) (f : nat) : numeral :=
  match x with
  | S754_nan => NaNLit
  | S754_infinity s => InfinityLit s
  | S754_zero _ => FixedLit false 0 f
  | S754_finite s m e =>
      if at_least_1e21 m e then ShortestLit s m e
      else FixedLit s (scaled_round m e f) f
  end.

(** [parseFloat(s)] on the strings above: the string NaN has no numeric
    prefix; a decimal with value zero keeps its sign; Number::toString
    prints enough digits to read the same number back. *)
Definition parseFloat (s : numeral) : number :=
  match s with
  | NaNLit => S754_nan
  | InfinityLit neg => S754_infinity neg
  | FixedLit neg n f =>
      match n with
      | Z0 => S754_zero neg
      | Zpos p => nearest neg p (Z.to_pos (10 ^ Z.of_nat f))
      | Zneg _ => S754_nan
      end
  | ShortestLit neg m e => S754_finite neg m e
  end.

(** A number written as a decimal literal with [f] fraction digits, as
    JSON.parse reads it: [decimal 1050 2] is 10.50. *)
Definition decimal (n : Z) (f : nat) : number :=
  parseFloat (FixedLit (n <? 0) (Z.abs n) f).

(** *** Exact values *)

(** The magnitude [m * 2^e] as a fraction. *)
Definition magnitude (m : positive) (e : Z) : Q :=
  match e with
  | Z.neg p => Z.pos m # 2 ^ p
  | _ => inject_Z (Z.pos m * 2 ^ e)
  end.

(** The exact rational value of a finite number. *)
Definition Q_of (x : number) : Q :=
  match x with
  | S754_finite s m e => if s then Qopp (magnitude m e) else magnitude m e
  | _ => 0%Q
  end.

(** The exact rational value of the decimal a [toFixed] string denotes. *)
Definition numeral_value (s : numeral) : Q :=
  match s with
  | FixedLit neg n f =>
      let v := n # Z.to_pos (10 ^ Z.of_nat f) in
      if neg then Qopp v else v
  | ShortestLit neg m e => Q_of (S754_finite neg m e)
  | _ => 0%Q
  end.

(** [2^e] as a fraction. *)
Definition pow2 (e : Z) : Q :=
  match e with
  | Z.neg p => 1 # 2 ^ p
  | _ => inject_Z (2 ^ e)
  end.

(** The exponent of the smallest positive number, [2^-1074]. *)
Definition emin : Z := -1074.

(** Half a unit in the last place of a finite number; for a zero, half
    the smallest positive number. *)
Definition half_ulp (x : number) : Q :=
  match x with
  | S754_finite _ _ e => pow2 (e - 1)
  | _ => pow2 (emin - 1)
  end.

(** [located mrs N D]: the rational [N / D] lies in [[m, m + 1)] for the
    mantissa [m] of [mrs], and the round and sticky bits of [mrs] tell
    where: the round bit is set when the remainder is at least one half,
    the sticky bit when it is neither zero nor one half. *)
Definition located (mrs : shr_record) (N D : Z) : Prop :=
  0 <= shr_m mrs /\
  shr_m mrs * D <= N < (shr_m mrs + 1) * D /\
  shr_r mrs = (D <=? 2 * (N - shr_m mrs * D)) /\
  shr_s mrs = negb (N - shr_m mrs * D =? 0) && negb (2 * (N - shr_m mrs * D) =? D).

Definition is_finite (x : number) : bool :=
  match x with
  | S754_zero _ | S754_finite _ _ _ => true
  | _ => false
  end.

Definition is_zero (x : number) : bool :=
  match x with
  | S754_zero _ => true
  | _ => false
  end.

End JSNumber.

Import JSNumber.

(** ** Data model (the interfaces of components/GroupDetails) *)

Module User.
Record t : Type := { _id : string; name : string; email : string }.
End User.

(** A member reference as the server sends it: the interface declares a
    [User], and the balance code also accepts the bare identifier of an
    unpopulated reference ([u._id === memberId || u === memberId]). *)
Inductive MemberRef : Type :=
| Populated (u : User.t)
| BareId (id : string).

Module Expense.
Record t : Type := {
  _id : string;
  description : string;
  amount : number;
  paidBy : option MemberRef;      (* [None]: null or undefined, read through [?.] *)
  splitAmong : list MemberRef;
  createdAt : string
}.
End Expense.

Module Message.
Record t : Type := { user : string; userId : string; message : string; time : string }.
End Message.

Module Invite.
Record t : Type := { email : string; createdAt : string }.
End Invite.

Module Group.
Record t : Type := {
  _id : string;
  name : string;
  members : list User.t;
  expenses : option (list Expense.t);   (* read as [group?.expenses], [prev.expenses || []] *)
  messages : option (list Message.t);   (* read as [res.data.messages || []] *)
  invites : option (list Invite.t)
}.
End Group.

(** ** Balance engine *)

Module BalanceEngine.

(** [u._id === memberId || u === memberId] for a member identifier that is
    a string: a populated record is never identical to a string, and a
    bare identifier has no [_id] property. *)
Definition refers_to (memberId : string) (u : MemberRef) : bool :=
  match u with
  | Populated r => String.eqb (User._id r) memberId
  | BareId s => String.eqb s memberId
  end.

(** [e.paidBy?._id === memberId || e.paidBy === memberId] *)
Definition paid_by (memberId : string) (e : Expense.t) : bool :=
  match Expense.paidBy e with
  | Some u => refers_to memberId u
  | None => false
  end.

(** [e.splitAmong.some((u) => u._id === memberId || u === memberId)] *)
Definition split_with (memberId : string) (e : Expense.t) : bool :=
  existsb (refers_to memberId) (Expense.splitAmong e).

(** Every evaluation of the division operator is recorded with its
    operands; the record is ghost state used to state that no division by
    zero is ever evaluated. *)
Record Division : Type := { dividend : number; divisor : nat }.

Definition Traced (A : Type) : Type := (A * list Division)%type.

Definition ret {A} (a : A) : Traced A := (a, []).

Definition bind {A B} (m : Traced A) (k : A -> Traced B) : Traced B :=
  let '(a, l1) := m in
  let '(b, l2) := k a in
  (b, l1 ++ l2).

Definition value {A} (m : Traced A) : A := fst m.
Definition divisions {A} (m : Traced A) : list Division := snd m.

Notation "'let*' x ':=' m 'in' k" := (bind m (fun x => k))
  (at level 10, x name, m at level 100, k at level 200).

(** [a / n] for an array length [n] *)
Definition divide (a : number) (n : nat) : Traced number :=
  (div a (of_nat n), [{| dividend := a; divisor := n |}]).

Record Balance : Type := { paid : number; share : number; net : number }.

(** The callback of [group.expenses.forEach], acting on the two
    accumulators [paid] and [share]. *)
Definition forEach_callback (memberId : string)
    (acc : number * number) (e : Expense.t) : Traced (number * number) :=
  let '(paid, share) := acc in
  let numSplit := length (Expense.splitAmong e) in
  if Nat.eqb numSplit 0 then ret (paid, share)
  else
    let* q := divide (Expense.amount e) numSplit in
    let individualShare := parseFloat (toFixed q 2) in
    let paid := if paid_by memberId e then add paid (Expense.amount e) else paid in
    let share := if split_with memberId e then add share individualShare else share in
    ret (paid, share).

Fixpoint forEach (memberId : string) (es : list Expense.t)
    (acc : number * number) : Traced (number * number) :=
  match es with
  | [] => ret acc
  | e :: es' =>
      let* acc' := forEach_callback memberId acc e in
      forEach memberId es' acc'
  end.

Definition computeMemberBalance (group : option Group.t) (memberId : string)
    : Traced Balance :=
  match group ≫= Group.expenses with
  | None => ret {| paid := zero; share := zero; net := zero |}
  | Some es =>
      let* acc := forEach memberId es (zero, zero) in
      let '(paid, share) := acc in
      let net := parseFloat (toFixed (sub paid share) 2) in
      ret {| paid := paid; share := share; net := net |}
  end.

(** *** The specification's vocabulary *)

(** [round(x, 2)], which the code writes [parseFloat(x.toFixed(2))]. *)
Definition round2 (x : number) : number := parseFloat (toFixed x 2).

(** The individual share of an expense, [round(amount / |split-among|, 2)]. *)
Definition individual_share (e : Expense.t) : number :=
  round2 (div (Expense.amount e) (of_nat (length (Expense.splitAmong e)))).

Definition nonempty_split (e : Expense.t) : bool :=
  negb (Nat.eqb (length (Expense.splitAmong e)) 0).

(** The running sum of a list of numbers, left to right from zero. *)
Definition sum (xs : list number) : number := foldl add zero xs.

(** The expense list the balance is computed from. *)
Definition expenses_of (group : option Group.t) : list Expense.t :=
  default [] (group ≫= Group.expenses).

(** The share as the specification words it: the sum, over the expenses
    whose split-among list is non-empty and contains the member, of the
    individual shares. *)
Definition share_spec (memberId : string) (es : list Expense.t) : number :=
  sum (map individual_share
         (List.filter (fun e => nonempty_split e && split_with memberId e) es)).

(** The paid total as the specification words it: the sum of the amounts
    of every expense whose payer is the member. *)
Definition paid_spec (memberId : string) (es : list Expense.t) : number :=
  sum (map Expense.amount (List.filter (paid_by memberId) es)).

(** What the code accumulates instead: expenses with an empty split-among
    list are left out of [paid] as well. *)
Definition paid_nonempty (memberId : string) (es : list Expense.t) : number :=
  sum (map Expense.amount
         (List.filter (fun e => nonempty_split e && paid_by memberId e) es)).

(** *** Sample data *)

Definition alice : User.t :=
  {| User._id := "u1"; User.name := "Alice"; User.email := "alice@example.org" |}.
Definition bob : User.t :=
  {| User._id := "u2"; User.name := "Bob"; User.email := "bob@example.org" |}.
Definition carol : User.t :=
  {| User._id := "u3"; User.name := "Carol"; User.email := "carol@example.org" |}.

Definition expense (id : string) (a : number) (payer : option MemberRef)
    (among : list MemberRef) : Expense.t :=
  {| Expense._id := id; Expense.description := "shared"; Expense.amount := a;
     Expense.paidBy := payer; Expense.splitAmong := among;
     Expense.createdAt := "2024-01-01T00:00:00.000Z" |}.

Definition group_of (es : list Expense.t) : Group.t :=
  {| Group._id := "g1"; Group.name := "Trip"; Group.members := [alice; bob; carol];
     Group.expenses := Some es; Group.messages := Some []; Group.invites := None |}.

(** Scenario A: 100 paid by Alice, split three ways. *)
Definition scenarioA : Group.t :=
  group_of [expense "e1" (decimal 100 0) (Some (Populated alice))
              [Populated alice; Populated bob; Populated carol]].

(** Scenario B: 50 paid by Alice and 30 paid by Bob, both split between
    the two, the references being bare identifiers. *)
Definition scenarioB : Group.t :=
  group_of [expense "e1" (decimal 50 0) (Some (BareId "u1")) [BareId "u1"; BareId "u2"];
            expense "e2" (decimal 30 0) (Some (BareId "u2")) [BareId "u1"; BareId "u2"]].

(** An expense of 10 paid by Alice whose split-among list is empty. *)
Definition unsplit : Group.t :=
  group_of [expense "e1" (decimal 10 0) (Some (Populated alice)) []].

(** Alice pays 0.10 and 0.20 for Bob, Bob pays 0.30 for Alice. *)
Definition drift : Group.t :=
  group_of [expense "e1" (decimal 10 2) (Some (Populated alice)) [Populated bob];
            expense "e2" (decimal 20 2) (Some (Populated alice)) [Populated bob];
            expense "e3" (decimal 30 2) (Some (Populated bob)) [Populated alice]].

(** 10 paid by Alice for herself alone. *)
Definition solo : Group.t :=
  group_of [expense "e1" (decimal 10 0) (Some (Populated alice)) [Populated alice]].

(** 0.13 paid by Alice, split between Alice and Bob. *)
Definition thirteen : Group.t :=
  group_of [expense "e1" (decimal 13 2) (Some (Populated alice))
              [Populated alice; Populated bob]].

End BalanceEngine.

(** ** Credential store (utils/auth.js) *)

Module Auth.

(** The two Web Storage areas.  [getItem] of a missing key is [null],
    modelled by [None]. *)
Record Stores : Type := {
  sessionStorage : gmap string string;
  localStorage : gmap string string
}.

Definition getItem (key : string) (area : gmap string string) : option string :=
  area !! key.
Definition setItem (key value : string) (area : gmap string string)
    : gmap string string := <[key := value]> area.
Definition removeItem (key : string) (area : gmap string string)
    : gmap string string := delete key area.

(** Truthiness of a value that is a string or [null]/[undefined]: the
    empty string is falsy. *)
Definition truthy (v : option string) : bool :=
  match v with
  | Some s => negb (String.eqb s EmptyString)
  | None => false
  end.

(** [a || b] on such values *)
Definition or_else (a b : option string) : option string :=
  if truthy a then a else b.

Section AuthData.

(** The user record is whatever object the login response carries;
    [JSON_stringify] is the platform's serialiser.  A user argument that is
    [null] or [undefined] is [None]. *)
Context {UserRecord : Type}.
Variable JSON_stringify : UserRecord -> string.

Definition setAuthData (user : option UserRecord) (token : option string)
    (w : Stores) : Stores :=
  match user, token with
  | Some u, Some t =>
      if truthy (Some t) then
        let userStr := JSON_stringify u in
        let session := setItem "token" t (setItem "user" userStr (sessionStorage w)) in
        let durable := setItem "token" t (setItem "user" userStr (localStorage w)) in
        {| sessionStorage := session; localStorage := durable |}
      else w
  | _, _ => w
  end.

End AuthData.

Definition getAuthToken (w : Stores) : option string :=
  or_else (getItem "token" (sessionStorage w)) (getItem "token" (localStorage w)).

Definition clearAuthData (w : Stores) : Stores :=
  {| sessionStorage := removeItem "token" (removeItem "user" (sessionStorage w));
     localStorage := removeItem "token" (removeItem "user" (localStorage w)) |}.

(** A stand-in serialiser for the sample data. *)
Definition sample_stringify (u : User.t) : string :=
  "{" +:+ User._id u +:+ "," +:+ User.name u +:+ "," +:+ User.email u +:+ "}".

Definition empty_stores : Stores :=
  {| sessionStorage := ∅; localStorage := ∅ |}.

End Auth.

(** ** Realtime sync client and snapshot fetch (components/GroupDetails) *)

Module GroupDetails.

Import Auth.

Inductive ToastText : Type :=
| NewExpenseText (description : string) (amount : number)
| Text (s : string).

(** What the view does to the outside world, in order. *)
Inductive Action : Type :=
| Navigate (path : string)
| SocketConnect
| SocketEmit (event payload : string)
| SocketOn (event : string)
| HttpGet (url authorization : string)
| ToastSuccess (text : ToastText)
| ToastError (text : ToastText)
| ConsoleError.

(** The component's state, the browser stores it reads, the socket's
    [connected] flag and the actions performed so far. *)
Record World : Type := {
  stores : Stores;
  group : option Group.t;
  messages : list Message.t;
  loading : bool;
  connected : bool;
  actions : list Action
}.

Definition perform (a : Action) (w : World) : World :=
  {| stores := stores w; group := group w; messages := messages w;
     loading := loading w; connected := connected w;
     actions := actions w ++ [a] |}.

(** [setGroup] with a functional update *)
Definition setGroup (f : option Group.t -> option Group.t) (w : World) : World :=
  {| stores := stores w; group := f (group w); messages := messages w;
     loading := loading w; connected := connected w; actions := actions w |}.

Definition setMessages (ms : list Message.t) (w : World) : World :=
  {| stores := stores w; group := group w; messages := ms;
     loading := loading w; connected := connected w; actions := actions w |}.

Definition setLoading (b : bool) (w : World) : World :=
  {| stores := stores w; group := group w; messages := messages w;
     loading := b; connected := connected w; actions := actions w |}.

(** What the server answers to the GET of the group. *)
Inductive Reply : Type :=
| Ok (data : Group.t)
| Failed (status : option nat) (message : option string).

(** [prev.expenses?.some(e => e._id === expense._id)] *)
Definition has_expense (expense : Expense.t) (g : Group.t) : bool :=
  match Group.expenses g with
  | Some es => existsb (fun e => String.eqb (Expense._id e) (Expense._id expense)) es
  | None => false
  end.

Definition with_expenses (g : Group.t) (es : list Expense.t) : Group.t :=
  {| Group._id := Group._id g; Group.name := Group.name g;
     Group.members := Group.members g; Group.expenses := Some es;
     Group.messages := Group.messages g; Group.invites := Group.invites g |}.

(** The functional update that [handleExpense] passes to [setGroup]. *)
Definition mergeExpense (expense : Expense.t) (prev : option Group.t)
    : option Group.t :=
  match prev with
  | None => prev
  | Some g =>
      if has_expense expense g then prev
      else Some (with_expenses g (default [] (Group.expenses g) ++ [expense]))
  end.

Section Component.

Variables API_URL groupId : string.

(** [fetchGroupData] up to its [await]: the token check and the request.
    The result tells whether a request is now in flight. *)
Definition fetchGroupData_request (w : World) : World * bool :=
  let token := getAuthToken (stores w) in
  if negb (truthy token) then
    (setLoading false (perform (Navigate "/login") w), false)
  else
    (perform (HttpGet (API_URL +:+ "/api/groups/" +:+ groupId)
                      ("Bearer " +:+ default EmptyString token)) w, true).

(** [fetchGroupData] after the [await], with the [catch] and [finally]
    blocks. *)
Definition fetchGroupData_resume (reply : Reply) (w : World) : World :=
  match reply with
  | Ok data =>
      setLoading false
        (setMessages (default [] (Group.messages data))
           (setGroup (fun _ => Some data) w))
  | Failed status message =>
      let w := perform ConsoleError w in
      let w := perform (ToastError
                 (Text (default "Failed to fetch group"
                          (or_else message (Some "Failed to fetch group"))))) w in
      let w := if bool_decide (status = Some 401%nat)
               then perform (Navigate "/login") w else w in
      setLoading false w
  end.

Definition fetchGroupData (reply : Reply) (w : World) : World :=
  let '(w, pending) := fetchGroupData_request w in
  if pending then fetchGroupData_resume reply w else w.

(** The body of the effect that joins the group room and subscribes to
    its events.  When the effect runs, and what the socket module did
    before it, is in [GroupPage] below. *)
Definition joinGroupEffect (w : World) : World :=
  let token := getAuthToken (stores w) in
  if negb (truthy token) then w
  else
    let w := if negb (connected w) then perform SocketConnect w else w in
    let w := perform (SocketEmit "joinGroup" groupId) w in
    let w := perform (SocketOn "newMessage") w in
    let w := perform (SocketOn "expenseAdded") w in
    let w := perform (SocketOn "memberAdded") w in
    let w := perform (SocketOn "memberRemoved") w in
    perform (SocketOn "inviteCancelled") w.

(** The [expenseAdded] handler, up to the [await] inside the re-fetch it
    starts. *)
Definition handleExpense (expense : Expense.t) (w : World) : World * bool :=
  let w := perform (ToastSuccess
             (NewExpenseText (Expense.description expense) (Expense.amount expense))) w in
  let w := setGroup (mergeExpense expense) w in
  fetchGroupData_request w.

End Component.

(** The identifiers of the expenses held in the local state. *)
Definition expense_ids (st : option Group.t) : list string :=
  map Expense._id (BalanceEngine.expenses_of st).

Definition initial (st : Stores) (g : option Group.t) : World :=
  {| stores := st; group := g; messages := []; loading := true;
     connected := false; actions := [] |}.

Definition lunch : Expense.t :=
  BalanceEngine.expense "e9" (decimal 1250 2)
    (Some (Populated BalanceEngine.alice)) [Populated BalanceEngine.alice].

End GroupDetails.

(** ** Balance display (the member rows of components/GroupDetails) *)

Module BalanceView.

Import BalanceEngine.

(** [a >= b] on numbers. *)
Definition ge (a b : number) : bool := SFleb b a.

Inductive Colour : Type := Green | Red | Gray.

(** The colour of the badge: [net > 0 ? green : net < 0 ? red : gray]. *)
Definition badgeColour (net : number) : Colour :=
  if gt net zero then Green else if lt net zero then Red else Gray.

(** The text of the badge: the word Settled, or a sign and the currency
    symbol followed by an amount. *)
Inductive BadgeText : Type :=
| Settled
| Plus (amount : numeral)
| Minus (amount : numeral).

(** [net === 0 ? "Settled" : net > 0 ? `+₹${net.toFixed(2)}`
                                     : `-₹${Math.abs(net).toFixed(2)}`] *)
Definition badgeText (net : number) : BadgeText :=
  if strict_eq net zero then Settled
  else if gt net zero then Plus (toFixed net 2)
  else Minus (toFixed (abs net) 2).

(** What a member row shows of a balance. *)
Record Row : Type := {
  paidText : numeral;        (* [paid.toFixed(2)] *)
  shareText : numeral;       (* [share.toFixed(2)] *)
  colour : Colour;
  badge : BadgeText
}.

(** The body of [group.members.map((member, index) => ...)], as far as
    the balance goes. *)
Definition memberRow (group : option Group.t) (member : User.t) : Row :=
  let b := value (computeMemberBalance group (User._id member)) in
  {| paidText := toFixed (paid b) 2; shareText := toFixed (share b) 2;
     colour := badgeColour (net b); badge := badgeText (net b) |}.

(** Whether a printed amount starts with a minus sign. *)
Definition signed (s : numeral) : bool :=
  match s with
  | NaNLit => false
  | InfinityLit neg | FixedLit neg _ _ | ShortestLit neg _ _ => neg
  end.

(** An amount the data model allows: finite and not negative. *)
Definition payable (e : Expense.t) : Prop :=
  is_finite (Expense.amount e) = true /\ ge (Expense.amount e) zero = true.

(** The identifier a member reference denotes. *)
Definition ref_id (u : MemberRef) : string :=
  match u with
  | Populated r => User._id r
  | BareId s => s
  end.

(** Two expenses of the same amount, paid by and split among the same
    identifiers, whatever form the references take. *)
Definition same_parties (e1 e2 : Expense.t) : Prop :=
  Expense.amount e1 = Expense.amount e2 /\
  ref_id <$> Expense.paidBy e1 = ref_id <$> Expense.paidBy e2 /\
  ref_id <$> Expense.splitAmong e1 = ref_id <$> Expense.splitAmong e2.

(** The expenses a member has a part in. *)
Definition involved (memberId : string) (e : Expense.t) : bool :=
  paid_by memberId e || split_with memberId e.

(** The division that one expense costs. *)
Definition division_of (e : Expense.t) : Division :=
  {| dividend := Expense.amount e; divisor := length (Expense.splitAmong e) |}.

(** Scenario A with every reference a bare identifier. *)
Definition scenarioA_bare : Group.t :=
  group_of [expense "e1" (decimal 100 0) (Some (BareId "u1"))
              [BareId "u1"; BareId "u2"; BareId "u3"]].

(** 10 paid by Alice for Bob alone. *)
Definition treat : Group.t :=
  group_of [expense "e1" (decimal 10 0) (Some (Populated alice)) [Populated bob]].

End BalanceView.

(** ** Reading the session back (utils/auth.js, utils/ProtectedRoute.js) *)

Module Session.

Import Auth.

(** How the evaluation of an expression ends: with a value, or with an
    exception thrown. *)
Inductive Completion (A : Type) : Type :=
| Normal (a : A)
| Throw.

Arguments Normal {A} a.
Arguments Throw {A}.

Section AuthUser.

(** [JSON_parse] is the platform's parser: it throws on a text that is not
    JSON, and the text null denotes [None]. *)
Context {UserRecord : Type}.
Variable JSON_parse : string -> Completion (option UserRecord).

Definition getAuthUser (w : Stores) : Completion (option UserRecord) :=
  let userStr := or_else (getItem "user" (sessionStorage w))
                         (getItem "user" (localStorage w)) in
  match userStr with
  | Some s => if truthy userStr then JSON_parse s else Normal None
  | None => Normal None
  end.

End AuthUser.

(** What a route element renders. *)
Inductive Element (C : Type) : Type :=
| NavigateTo (to : string) (replace : bool)
| Children (children : C).

Arguments NavigateTo {C} to replace.
Arguments Children {C} children.

Definition ProtectedRoute {C : Type} (children : C) (w : Stores) : Element C :=
  let token := getAuthToken w in
  if negb (truthy token) then NavigateTo "/login" true else Children children.

(** The stores of a later browser session: the session-scoped area starts
    empty, the durable one is kept. *)
Definition reopened (w : Stores) : Stores :=
  {| sessionStorage := ∅; localStorage := localStorage w |}.

(** A stand-in parser that reads back what [sample_stringify] writes for
    the sample users. *)
Definition sample_parse (s : string) : Completion (option User.t) :=
  if String.eqb s (sample_stringify BalanceEngine.alice) then Normal (Some BalanceEngine.alice)
  else if String.eqb s (sample_stringify BalanceEngine.bob) then Normal (Some BalanceEngine.bob)
  else if String.eqb s "null" then Normal None
  else Throw.

End Session.

(** ** Event handlers and chat form (components/GroupDetails) *)

Module GroupEvents.

Import Auth Session GroupDetails.

(** What the handlers below do to the outside world besides the actions
    of the snapshot fetch and the room join. *)
Inductive Output : Type :=
| ToastInfo (text : string)
| SocketOff (event : string)
| SocketEmitMessage (groupId message user : string) (userId : option string)
                    (time : string).

(** The payload of the memberAdded and memberRemoved events. *)
Record MemberChange : Type := { memberName : string; memberEmail : string }.

(** [data.memberName || data.memberEmail] *)
Definition who (data : MemberChange) : string :=
  if truthy (Some (memberName data)) then memberName data else memberEmail data.

Section Handlers.

Variables API_URL groupId : string.

(** [getAuthUser()] as the component read it when it rendered; [None] is
    [null]. *)
Variable currentUser : option User.t.

(** [currentUser?._id] *)
Definition currentUserId : option string := User._id <$> currentUser.

Definition handleNewMessage (msg : Message.t) (w : World) : World * list Output :=
  let w := setMessages (messages w ++ [msg]) w in
  if bool_decide (Some (Message.userId msg) <> currentUserId)
  then (w, [ToastInfo (Message.user msg +:+ ": " +:+ Message.message msg)])
  else (w, []).

(** The handlers of the membership events, up to the [await] inside the
    re-fetch they start.  An informational notification comes before the
    re-fetch. *)
Definition handleMemberAdded (data : MemberChange) (w : World) : World * bool :=
  let w := perform (ToastSuccess (Text (who data +:+ " joined the group!"))) w in
  fetchGroupData_request API_URL groupId w.

Definition handleMemberRemoved (data : MemberChange) (w : World)
    : list Output * (World * bool) :=
  ([ToastInfo (who data +:+ " left the group")],
   fetchGroupData_request API_URL groupId w).

Definition handleInviteCancelled (email : string) (w : World)
    : list Output * (World * bool) :=
  ([ToastInfo ("Invite to " +:+ email +:+ " was cancelled")],
   fetchGroupData_request API_URL groupId w).

(** The function the subscribing effect returns, run when the view is
    left; the effect returns none when it found no token. *)
Definition joinGroupCleanup (w : World) : option (list Output) :=
  let token := getAuthToken (stores w) in
  if negb (truthy token) then None
  else Some [SocketOff "newMessage"; SocketOff "expenseAdded"; SocketOff "memberAdded";
             SocketOff "memberRemoved"; SocketOff "inviteCancelled"].

(** [currentUser?.name || currentUser?.email || "Unknown"] *)
Definition senderName : string :=
  default "Unknown"
    (or_else (or_else (User.name <$> currentUser) (User.email <$> currentUser))
             (Some "Unknown")).

(** [sendMessage], on the chat input: the new content of the input and
    what was emitted.  [trim] is the platform's [String.prototype.trim]
    and [now] what [new Date().toISOString()] reads. *)
Definition sendMessage (trim : string -> string) (now : string) (newMessage : string)
    : string * list Output :=
  if negb (truthy (Some (trim newMessage))) then (newMessage, [])
  else (EmptyString,
        [SocketEmitMessage groupId (trim newMessage) senderName currentUserId now]).

(** A run of newMessage events, delivered in order. *)
Fixpoint deliverMessages (msgs : list Message.t) (w : World) : World * list Output :=
  match msgs with
  | [] => (w, [])
  | msg :: rest =>
      let '(w1, out1) := handleNewMessage msg w in
      let '(w2, out2) := deliverMessages rest w1 in
      (w2, out1 ++ out2)
  end.

End Handlers.

(** The events an action list subscribes to, and those an output list
    releases. *)
Definition subscribed (acts : list Action) : list string :=
  omap (fun a => match a with SocketOn event => Some event | _ => None end) acts.

Definition released (outs : list Output) : list string :=
  omap (fun o => match o with SocketOff event => Some event | _ => None end) outs.

(** [s.length] of a JavaScript string: its number of UTF-16 code units.
    A string of this development holds the UTF-8 bytes of the text.  A
    code point counts at its leading byte, for one unit, or for two when
    its UTF-8 form has four bytes (a surrogate pair); continuation bytes
    count for nothing. *)
Definition utf16_units (byte : nat) : nat :=
  if bool_decide (byte < 128)%nat then 1%nat
  else if bool_decide (byte < 192)%nat then 0%nat
  else if bool_decide (byte < 240)%nat then 1%nat
  else 2%nat.

Fixpoint js_length (s : string) : nat :=
  match s with
  | EmptyString => 0%nat
  | String a rest => (utf16_units (Ascii.nat_of_ascii a) + js_length rest)%nat
  end.

(** The group header's gradient.  [None] is [undefined], what indexing
    past the end of an array gives. *)
Definition gradients : list string :=
  ["from-purple-500 to-pink-500"; "from-blue-500 to-cyan-500";
   "from-green-500 to-teal-500"; "from-orange-500 to-red-500"].

Definition getGroupGradient (group : option Group.t) : option string :=
  match group with
  | None => Some "from-purple-500 to-pink-500"
  | Some g => gradients !! (js_length (Group.name g) mod length gradients)%nat
  end.

(** The theme flag kept in durable storage. *)
Definition JSON_stringify_bool (b : bool) : string := if b then "true" else "false".

(** [toggleTheme]: the new flag and the stores. *)
Definition toggleTheme (isDarkMode : bool) (w : Stores) : bool * Stores :=
  let newTheme := negb isDarkMode in
  (newTheme,
   {| sessionStorage := sessionStorage w;
      localStorage := setItem "darkMode" (JSON_stringify_bool newTheme) (localStorage w) |}).

(** The initial value of the flag: [saved ? JSON.parse(saved) : false]. *)
Definition initialDarkMode (JSON_parse : string -> Completion bool) (w : Stores)
    : Completion bool :=
  let saved := getItem "darkMode" (localStorage w) in
  match saved with
  | Some s => if truthy saved then JSON_parse s else Normal false
  | None => Normal false
  end.

(** A stand-in parser for the two texts [toggleTheme] writes. *)
Definition sample_parse_bool (s : string) : Completion bool :=
  if String.eqb s "true" then Normal true
  else if String.eqb s "false" then Normal false
  else Throw.

(** A chat message of a user. *)
Definition hello (from : User.t) (text : string) : Message.t :=
  {| Message.user := User.name from; Message.userId := User._id from;
     Message.message := text; Message.time := "2024-01-01T00:00:00.000Z" |}.

End GroupEvents.

(** ** The socket module and the effects of the group view (socket.ts, components/GroupDetails) *)

Module GroupPage.

Import Auth Session GroupDetails GroupEvents.



(** Which dependencies of the effects differ from those of the previous
    render.  [fetchGroupData] is a [useCallback] on [groupId], [navigate]
    and [API_URL]; [currentUserId] is [getAuthUser()?._id], read anew by
    every render. *)
Record Changed : Type := {
  groupId_changed : bool;
  fetchGroupData_changed : bool;
  currentUserId_changed : bool
}.

(** A render whose effects are about to run: the first one, or a later
    one. *)
Inductive Commit : Type :=
| Mount
| Update (c : Changed).

(** The effect [useEffect(() => { fetchGroupData(); }, [fetchGroupData])] *)
Definition fetchEffect_runs (c : Commit) : bool :=
  match c with
  | Mount => true
  | Update c => fetchGroupData_changed c
  end.

(** The socket effect, with dependencies
    [[groupId, fetchGroupData, currentUserId]] *)
Definition socketEffect_runs (c : Commit) : bool :=
  match c with
  | Mount => true
  | Update c => groupId_changed c || fetchGroupData_changed c || currentUserId_changed c
  end.

(** What the effects of one render did: the cleanup of the socket
    effect's previous run comes first, then the effects in the order they
    are declared; [cleanup] is the cleanup now pending. *)
Record Committed : Type := {
  released_first : list Output;
  after : World;
  cleanup : option (list Output)
}.

Section Page.

Variables API_URL SOCKET_URL groupId : string.


(** The effects of one render of the view.  [pending] is the cleanup the
    socket effect returned when it last ran.  The request of
    [fetchGroupData] is left in flight. *)
Definition runEffects (c : Commit) (pending : option (list Output)) (w : World)
    : Committed :=
  let w1 := if fetchEffect_runs c then fst (fetchGroupData_request API_URL groupId w)
            else w in
  if socketEffect_runs c then
    {| released_first := default [] pending;
       after := joinGroupEffect groupId w1;
       cleanup := joinGroupCleanup w1 |}
  else
    {| released_first := []; after := w1; cleanup := pending |}.


End Page.

(** [clearAuthData] run by another tab of the same origin: the tabs share
    the durable area and each has a session area of its own. *)
Definition clearedElsewhere (w : World) : World :=
  {| stores := {| sessionStorage := sessionStorage (stores w);
                  localStorage := localStorage (clearAuthData (stores w)) |};
     group := group w; messages := messages w; loading := loading w;
     connected := connected w; actions := actions w |}.

(** The render in which nothing but [currentUserId] changed. *)
Definition user_changed : Commit :=
  Update {| groupId_changed := false; fetchGroupData_changed := false;
            currentUserId_changed := true |}.

(** A scenario: Alice's credentials are in the durable area alone, as in
    a browser session after the one she logged in with.  She opens a group
    and, while the group is being fetched, logs out in another tab.  The
    reply then arrives and sets the state, so the view renders again. *)
Definition alice_stores : Stores :=
  {| sessionStorage := ∅;
     localStorage := {[ "token" := "tok-1";
                        "user" := sample_stringify BalanceEngine.alice ]} |}.

Definition alice_mounted : Committed :=
  runEffects "https://api.example.org" "g1" Mount None (initial alice_stores None).

Definition alice_logged_out : World := clearedElsewhere (after alice_mounted).

Definition alice_loaded : World :=
  fetchGroupData_resume (Ok BalanceEngine.scenarioA) alice_logged_out.

Definition alice_rendered_again : Committed :=
  runEffects "https://api.example.org" "g1" user_changed (cleanup alice_mounted)
    alice_loaded.

End GroupPage.

(** ** Dashboard (components/Dashboard) *)

Module Dashboard.

Import Auth Session.

(** The dashboard's own [Group] type: a card of the list. *)
Module GroupCard.
Record t : Type := { _id : string; name : string; members : option (list string) }.
End GroupCard.

Inductive Action : Type :=
| Navigate (path : string)
| HttpGet (url authorization : string)
| HttpPostGroup (url authorization name : string)
| HttpPostMember (url authorization email : string)
| ToastSuccess (text : string)
| ToastError (text : string)
| ToastWarn (text : string)
| ConsoleLog
| ConsoleError.

(** The component's state, the browser stores and the actions performed
    so far. *)
Record World : Type := {
  stores : Stores;
  groups : list GroupCard.t;
  isLoading : bool;
  showCreateForm : bool;
  groupName : string;
  members : list string;
  isCreating : bool;
  actions : list Action
}.

Definition perform (a : Action) (w : World) : World :=
  {| stores := stores w; groups := groups w; isLoading := isLoading w;
     showCreateForm := showCreateForm w; groupName := groupName w;
     members := members w; isCreating := isCreating w;
     actions := actions w ++ [a] |}.

Definition setStores (st : Stores) (w : World) : World :=
  {| stores := st; groups := groups w; isLoading := isLoading w;
     showCreateForm := showCreateForm w; groupName := groupName w;
     members := members w; isCreating := isCreating w; actions := actions w |}.

Definition setGroups (gs : list GroupCard.t) (w : World) : World :=
  {| stores := stores w; groups := gs; isLoading := isLoading w;
     showCreateForm := showCreateForm w; groupName := groupName w;
     members := members w; isCreating := isCreating w; actions := actions w |}.

Definition setIsLoading (b : bool) (w : World) : World :=
  {| stores := stores w; groups := groups w; isLoading := b;
     showCreateForm := showCreateForm w; groupName := groupName w;
     members := members w; isCreating := isCreating w; actions := actions w |}.

Definition setShowCreateForm (b : bool) (w : World) : World :=
  {| stores := stores w; groups := groups w; isLoading := isLoading w;
     showCreateForm := b; groupName := groupName w;
     members := members w; isCreating := isCreating w; actions := actions w |}.

Definition setGroupName (s : string) (w : World) : World :=
  {| stores := stores w; groups := groups w; isLoading := isLoading w;
     showCreateForm := showCreateForm w; groupName := s;
     members := members w; isCreating := isCreating w; actions := actions w |}.

Definition setMembers (ms : list string) (w : World) : World :=
  {| stores := stores w; groups := groups w; isLoading := isLoading w;
     showCreateForm := showCreateForm w; groupName := groupName w;
     members := ms; isCreating := isCreating w; actions := actions w |}.

Definition setIsCreating (b : bool) (w : World) : World :=
  {| stores := stores w; groups := groups w; isLoading := isLoading w;
     showCreateForm := showCreateForm w; groupName := groupName w;
     members := members w; isCreating := b; actions := actions w |}.

(** What the server answers to the GET of the group list; [None] is a
    body that is [null]. *)
Inductive ListReply : Type :=
| Listed (data : option (list GroupCard.t))
| ListFailed (status : option nat) (message : option string).

(** What it answers to the POST of a new group, and to the POST of one
    member. *)
Inductive CreateReply : Type :=
| Created (newGroup : GroupCard.t)
| CreateFailed (status : option nat) (message error : option string).

Inductive InviteReply : Type :=
| Invited
| InviteFailed (message : option string).

(** [a || "literal"] *)
Definition or_text (a : option string) (literal : string) : string :=
  default literal (or_else a (Some literal)).

Section Component.

Variable API_URL : string.

Definition bearer (w : World) : string :=
  "Bearer " +:+ default EmptyString (getAuthToken (stores w)).

(** [fetchGroups] up to its [await]; the result tells whether a request
    is now in flight. *)
Definition fetchGroups_request (w : World) : World * bool :=
  let w := setIsLoading true w in
  let token := getAuthToken (stores w) in
  if negb (truthy token) then
    (setIsLoading false (perform (Navigate "/login") w), false)
  else
    (perform (HttpGet (API_URL +:+ "/api/groups") (bearer w)) w, true).

(** [fetchGroups] after the [await], with the [catch] and [finally]
    blocks. *)
Definition fetchGroups_resume (reply : ListReply) (w : World) : World :=
  match reply with
  | Listed data =>
      let w := perform ConsoleLog w in
      setIsLoading false (setGroups (default [] data) w)
  | ListFailed status message =>
      let w := perform ConsoleError w in
      let w :=
        if bool_decide (status = Some 401%nat) then
          let w := setStores (clearAuthData (stores w)) w in
          let w := perform (Navigate "/login") w in
          perform (ToastError "Session expired. Please login again.") w
        else if bool_decide (status = Some 404%nat) then setGroups [] w
        else
          let errorMessage := or_text message "Failed to fetch groups" in
          setGroups [] (perform (ToastError errorMessage) w) in
      setIsLoading false w
  end.

Definition fetchGroups (reply : ListReply) (w : World) : World :=
  let '(w, pending) := fetchGroups_request w in
  if pending then fetchGroups_resume reply w else w.

Definition handleLogout (w : World) : World :=
  let w := setStores (clearAuthData (stores w)) w in
  let w := perform (Navigate "/login") w in
  perform (ToastSuccess "Logged out successfully") w.

(** The platform's [String.prototype.trim] and [toLowerCase], and the
    test of the e-mail pattern. *)
Variables trim toLowerCase : string -> string.
Variable emailRegex_test : string -> bool.

Definition filteredMembers (ms : list string) : list string :=
  (fun member => toLowerCase (trim member)) <$>
  List.filter (fun member => negb (String.eqb (trim member) EmptyString)) ms.

(** What [handleCreateGroup] holds on to across the [await] of the POST
    of the group: the token it read and the member entries it kept. *)
Record Pending : Type := { token : string; emails : list string }.

(** [handleCreateGroup] up to that [await]; the result tells whether a
    request is now in flight. *)
Definition handleCreateGroup_request (w : World) : World * option Pending :=
  if negb (truthy (Some (trim (groupName w)))) then
    (perform (ToastError "Please enter a group name") w, None)
  else
    let w := setIsCreating true w in
    match getAuthToken (stores w) with
    | Some token =>
        if negb (truthy (Some token)) then
          (setIsCreating false (perform (Navigate "/login") w), None)
        else
          let filtered := filteredMembers (members w) in
          match List.find (fun member => negb (emailRegex_test member)) filtered with
          | Some member =>
              let w := perform (ToastError
                         ("Please enter a valid email address for: " +:+ member)) w in
              (setIsCreating false (setIsCreating false w), None)
          | None =>
              let w := perform ConsoleLog w in
              (perform (HttpPostGroup (API_URL +:+ "/api/groups") ("Bearer " +:+ token)
                          (trim (groupName w))) w,
               Some {| token := token; emails := filtered |})
          end
    | None => (setIsCreating false (perform (Navigate "/login") w), None)
    end.

(** The loop that invites the members one request after the other;
    [invite] is what the server answers to the request at a position of
    the loop.  The accumulator holds the world, [memberAddedCount] and
    [memberErrors]. *)
Fixpoint inviteMembers (invite : nat -> string -> InviteReply)
    (url authorization : string) (position : nat) (emails : list string)
    (acc : World * nat * list string) : World * nat * list string :=
  match emails with
  | [] => acc
  | memberEmail :: rest =>
      let '(w, memberAddedCount, memberErrors) := acc in
      let w := perform (HttpPostMember url authorization (trim memberEmail)) w in
      let acc :=
        match invite position memberEmail with
        | Invited => (perform ConsoleLog w, S memberAddedCount, memberErrors)
        | InviteFailed message =>
            (perform ConsoleError w, memberAddedCount,
             memberErrors ++ [memberEmail +:+ ": " +:+ or_text message "Failed to add"])
        end in
      inviteMembers invite url authorization (S position) rest acc
  end.

(** The text of the success notification. *)
Definition successMessage (invitations memberAddedCount : nat) : string :=
  "Group created successfully!" +:+
  (if (0 <? invitations)%nat && (0 <? memberAddedCount)%nat
   then " " +:+ pretty memberAddedCount +:+ " member" +:+
        (if (1 <? memberAddedCount)%nat then "s" else EmptyString) +:+ " invited."
   else EmptyString).

(** [handleCreateGroup] after that [await], with the [catch] and
    [finally] blocks.  The warnings are shown by a timer, after the
    success notification. *)
Definition handleCreateGroup_resume (invite : nat -> string -> InviteReply)
    (reply : CreateReply) (held : Pending) (w : World) : World :=
  match reply with
  | Created newGroup =>
      let w := perform ConsoleLog w in
      let url := API_URL +:+ "/api/groups/" +:+ GroupCard._id newGroup +:+ "/members" in
      let '(w, memberAddedCount, memberErrors) :=
        inviteMembers invite url ("Bearer " +:+ token held) 0 (emails held) (w, 0%nat, []) in
      let w := setGroups (newGroup :: groups w) w in
      let w := setGroupName EmptyString w in
      let w := setMembers [EmptyString] w in
      let w := setShowCreateForm false w in
      let w := perform (ToastSuccess
                 (successMessage (length (emails held)) memberAddedCount)) w in
      let w :=
        if (0 <? length (emails held))%nat && (0 <? length memberErrors)%nat
        then foldl (fun w error => perform (ToastWarn ("Invite failed - " +:+ error)) w)
                   w memberErrors
        else w in
      setIsCreating false w
  | CreateFailed status message error =>
      let w := perform ConsoleError w in
      let w :=
        if bool_decide (status = Some 401%nat) then
          let w := setStores (clearAuthData (stores w)) w in
          let w := perform (Navigate "/login") w in
          perform (ToastError "Session expired. Please login again.") w
        else
          let errorMessage :=
            default "Failed to create group"
              (or_else (or_else message error) (Some "Failed to create group")) in
          perform (ToastError errorMessage) w in
      setIsCreating false w
  end.

Definition handleCreateGroup (invite : nat -> string -> InviteReply)
    (reply : CreateReply) (w : World) : World :=
  let '(w, held) := handleCreateGroup_request w in
  match held with
  | Some held => handleCreateGroup_resume invite reply held w
  | None => w
  end.

End Component.

(** The gradient of a card.  [None] is [undefined], what indexing past
    the end of an array gives. *)
Definition gradients : list string :=
  ["from-purple-500 to-pink-500"; "from-blue-500 to-cyan-500";
   "from-green-500 to-teal-500"; "from-orange-500 to-red-500";
   "from-indigo-500 to-purple-500"; "from-pink-500 to-rose-500"].

Definition getGroupGradient (index : nat) : option string :=
  gradients !! (index mod length gradients)%nat.

(** The member requests among a list of actions, and the warnings. *)
Definition invitations (acts : list Action) : list string :=
  omap (fun a => match a with HttpPostMember _ _ email => Some email | _ => None end) acts.

Definition warnings (acts : list Action) : list string :=
  omap (fun a => match a with ToastWarn text => Some text | _ => None end) acts.

Definition requests (acts : list Action) : list Action :=
  List.filter (fun a => match a with
                        | HttpGet _ _ | HttpPostGroup _ _ _ | HttpPostMember _ _ _ => true
                        | _ => false
                        end) acts.

Definition initial (st : Stores) : World :=
  {| stores := st; groups := []; isLoading := true; showCreateForm := false;
     groupName := EmptyString; members := [EmptyString]; isCreating := false;
     actions := [] |}.

End Dashboard.

(** ** Login (components/LoginPage) *)

Module LoginPage.

Import Auth Session.

Inductive Action : Type :=
| HttpPost (url email password : string)
| SocketConnect
| SocketEmit (event payload : string)
| ToastSuccess (text : string)
| ToastError (text : string)
| ConsoleError
| OnNavigate (path : string)      (* the [onNavigate] prop *)
| Navigate (path : string).

Record World : Type := {
  stores : Stores;
  loading : bool;
  actions : list Action
}.

Definition perform (a : Action) (w : World) : World :=
  {| stores := stores w; loading := loading w; actions := actions w ++ [a] |}.

Definition setStores (st : Stores) (w : World) : World :=
  {| stores := st; loading := loading w; actions := actions w |}.

Definition setLoading (b : bool) (w : World) : World :=
  {| stores := stores w; loading := b; actions := actions w |}.

(** The body of the login response: [None] is a field that is missing
    or [null]. *)
Record LoginData : Type := { user : option User.t; token : option string }.

Inductive Reply : Type :=
| Ok (data : LoginData)
| Failed (status : option nat) (message code : option string).

Section Component.

Variable auth_endpoint : string.                 (* [API_ENDPOINTS.auth] *)
Variable JSON_stringify : User.t -> string.
Variable onNavigate : bool.                      (* whether the prop is given *)

(** [handleSubmit] up to its [await]. *)
Definition handleSubmit_request (email password : string) (w : World) : World :=
  let w := setLoading true w in
  perform (HttpPost (auth_endpoint +:+ "/login") email password) w.

(** The message the [catch] block picks. *)
Definition errorMessage (status : option nat) (message code : option string) : string :=
  if bool_decide (status = Some 401%nat)
  then "❌ Invalid email or password. Please try again."
  else if bool_decide (status = Some 404%nat)
  then "❌ Account not found. Please check your email or sign up."
  else if bool_decide (status = Some 429%nat)
  then "⏰ Too many attempts. Please try again later."
  else if truthy message then "❌ " +:+ default EmptyString message
  else if bool_decide (code = Some "NETWORK_ERROR")
  then "🌐 Network error. Please check your connection."
  else "Login failed! Please check your credentials.".

(** [handleSubmit] after the [await], with the [catch] and [finally]
    blocks.  Reading [res.data.user._id] of a missing user throws, which
    the [catch] block handles like a failure without response. *)
Definition handleSubmit_resume (reply : Reply) (w : World) : World :=
  match reply with
  | Ok data =>
      let w := setStores (setAuthData JSON_stringify (user data) (token data) (stores w)) w in
      let w := perform SocketConnect w in
      match user data with
      | Some u =>
          let w := perform (SocketEmit "joinUser" (User._id u)) w in
          let w := perform (ToastSuccess ("🎉 Welcome back, " +:+ User.name u +:+ "!")) w in
          let w := if onNavigate then perform (OnNavigate "dashboard") w
                   else perform (Navigate "/dashboard") w in
          setLoading false w
      | None =>
          let w := perform ConsoleError w in
          let w := perform (ToastError (errorMessage None None None)) w in
          setLoading false w
      end
  | Failed status message code =>
      let w := perform ConsoleError w in
      let w := perform (ToastError (errorMessage status message code)) w in
      setLoading false w
  end.

End Component.

(** The navigations among a list of actions. *)
Definition navigations (acts : list Action) : list Action :=
  List.filter (fun a => match a with OnNavigate _ | Navigate _ => true | _ => false end) acts.

End LoginPage.

(** ** Mutations of the group view (components/GroupDetails) *)

Module GroupMutations.

Import Auth GroupDetails.

(** The requests that change something on the server. *)
Inductive Request : Type :=
| PostExpense (url authorization description : string) (amount : number)
              (splitAmong : list string)
| PostMember (url authorization email : string) (name : option string)
| Delete (url authorization : string).

(** What the server answers to one of them. *)
Inductive Outcome : Type :=
| Done
| Refused (status : option nat) (message : option string).

(** The state of the two forms of the view. *)
Record Forms : Type := {
  newExpense : string * string;        (* description and amount, as typed *)
  isAddingExpense : bool;
  showAddMember : bool;
  newMemberEmail : string;
  newMemberName : string;
  addingMember : bool
}.

Definition setNewExpense (v : string * string) (f : Forms) : Forms :=
  {| newExpense := v; isAddingExpense := isAddingExpense f;
     showAddMember := showAddMember f; newMemberEmail := newMemberEmail f;
     newMemberName := newMemberName f; addingMember := addingMember f |}.

Definition setIsAddingExpense (b : bool) (f : Forms) : Forms :=
  {| newExpense := newExpense f; isAddingExpense := b;
     showAddMember := showAddMember f; newMemberEmail := newMemberEmail f;
     newMemberName := newMemberName f; addingMember := addingMember f |}.

Definition setAddingMember (b : bool) (f : Forms) : Forms :=
  {| newExpense := newExpense f; isAddingExpense := isAddingExpense f;
     showAddMember := showAddMember f; newMemberEmail := newMemberEmail f;
     newMemberName := newMemberName f; addingMember := b |}.

(** [setNewMemberEmail(""); setNewMemberName(""); setShowAddMember(false)] *)
Definition closeAddMember (f : Forms) : Forms :=
  {| newExpense := newExpense f; isAddingExpense := isAddingExpense f;
     showAddMember := false; newMemberEmail := EmptyString;
     newMemberName := EmptyString; addingMember := addingMember f |}.

(** [`Bearer ${token}`] for the token just read: a token that is [null]
    prints as the text null. *)
Definition bearer (w : World) : string :=
  "Bearer " +:+ default "null" (getAuthToken (stores w)).

(** [err.response?.data?.message || "literal"] *)
Definition or_text (message : option string) (literal : string) : string :=
  default literal (or_else message (Some literal)).

Section Component.

Variables API_URL groupId : string.

(** The platform's [Number], [String.prototype.trim] and
    [encodeURIComponent]. *)
Variable Number : string -> number.
Variable trim : string -> string.
Variable encodeURIComponent : string -> string.

(** [addExpense] up to its [await]: the request it sends, if any. *)
Definition addExpense_request (f : Forms) (w : World) : Forms * World * option Request :=
  let '(description, amount) := newExpense f in
  if negb (truthy (Some description)) || negb (truthy (Some amount)) then
    (f, perform (ToastError (Text "Please enter description and amount!")) w, None)
  else
    let f := setIsAddingExpense true f in
    let splitAmong :=
      default [] ((fun g => User._id <$> Group.members g) <$> group w) in
    (f, w, Some (PostExpense (API_URL +:+ "/api/expenses/" +:+ groupId) (bearer w)
                             description (Number amount) splitAmong)).

(** [addExpense] after the [await], with the [catch] and [finally]
    blocks.  The flag tells whether the re-fetch it starts is in flight. *)
Definition addExpense_resume (o : Outcome) (f : Forms) (w : World)
    : Forms * (World * bool) :=
  match o with
  | Done =>
      let f := setNewExpense (EmptyString, EmptyString) f in
      let w := perform (ToastSuccess (Text "Expense added successfully!")) w in
      (setIsAddingExpense false f, fetchGroupData_request API_URL groupId w)
  | Refused _ message =>
      let w := perform (ToastError (Text (or_text message "Failed to add expense"))) w in
      (setIsAddingExpense false f, (w, false))
  end.

Definition handleAddMember_request (f : Forms) (w : World)
    : Forms * World * option Request :=
  if negb (truthy (Some (trim (newMemberEmail f)))) then
    (f, perform (ToastError (Text "Please enter an email")) w, None)
  else
    let f := setAddingMember true f in
    let name := if truthy (Some (trim (newMemberName f)))
                then Some (trim (newMemberName f)) else None in
    (f, w, Some (PostMember (API_URL +:+ "/api/groups/" +:+ groupId +:+ "/members")
                            (bearer w) (trim (newMemberEmail f)) name)).

Definition handleAddMember_resume (o : Outcome) (f : Forms) (w : World)
    : Forms * (World * bool) :=
  match o with
  | Done =>
      let w := perform (ToastSuccess (Text "Member added successfully!")) w in
      let f := closeAddMember f in
      (setAddingMember false f, fetchGroupData_request API_URL groupId w)
  | Refused _ message =>
      let w := perform (ToastError (Text (or_text message "Failed to add member"))) w in
      (setAddingMember false f, (w, false))
  end.

(** [handleRemoveMember] and [handleCancelInvite]; [confirmed] is what
    the confirmation dialog returns. *)
Definition handleRemoveMember_request (confirmed : bool) (email : string) (w : World)
    : option Request :=
  if negb confirmed then None
  else Some (Delete (API_URL +:+ "/api/groups/" +:+ groupId +:+ "/members/" +:+
                     encodeURIComponent email) (bearer w)).

Definition handleRemoveMember_resume (o : Outcome) (w : World) : World * bool :=
  match o with
  | Done =>
      let w := perform (ToastSuccess (Text "Member removed successfully")) w in
      fetchGroupData_request API_URL groupId w
  | Refused _ message =>
      (perform (ToastError (Text (or_text message "Failed to remove member"))) w, false)
  end.

Definition handleCancelInvite_request (confirmed : bool) (email : string) (w : World)
    : option Request :=
  if negb confirmed then None
  else Some (Delete (API_URL +:+ "/api/groups/" +:+ groupId +:+ "/invites/" +:+
                     encodeURIComponent email) (bearer w)).

Definition handleCancelInvite_resume (o : Outcome) (w : World) : World * bool :=
  match o with
  | Done =>
      let w := perform (ToastSuccess (Text "Invite cancelled successfully")) w in
      fetchGroupData_request API_URL groupId w
  | Refused _ message =>
      (perform (ToastError (Text (or_text message "Failed to cancel invite"))) w, false)
  end.

Definition handleDeleteGroup_request (confirmed : bool) (w : World) : option Request :=
  if negb confirmed then None
  else Some (Delete (API_URL +:+ "/api/groups/" +:+ groupId) (bearer w)).

Definition handleDeleteGroup_resume (o : Outcome) (w : World) : World :=
  match o with
  | Done =>
      let w := perform (ToastSuccess (Text "Group deleted successfully!")) w in
      perform (Navigate "/dashboard") w
  | Refused _ message =>
      perform (ToastError (Text (or_text message "Failed to delete group"))) w
  end.

End Component.

(** The credential a request carries. *)
Definition authorization_of (r : Request) : string :=
  match r with
  | PostExpense _ a _ _ _ | PostMember _ a _ _ | Delete _ a => a
  end.

(** A failure that does nothing but tell: the world afterwards differs
    from the world before by one error notification, whose text is the
    server's message or else the default. *)
Definition only_tells (literal : string) (message : option string) (w w' : World) : Prop :=
  stores w' = stores w /\ group w' = group w /\ messages w' = messages w /\
  connected w' = connected w /\
  actions w' = actions w ++ [ToastError (Text (or_text message literal))].

(** A success that tells and starts the re-fetch of the snapshot. *)
Definition tells_and_refetches (API_URL groupId text : string) (w : World)
    (r : World * bool) : Prop :=
  r = fetchGroupData_request API_URL groupId (perform (ToastSuccess (Text text)) w).

Definition empty_forms : Forms :=
  {| newExpense := (EmptyString, EmptyString); isAddingExpense := false;
     showAddMember := false; newMemberEmail := EmptyString;
     newMemberName := EmptyString; addingMember := false |}.

End GroupMutations.

(** * Properties *)

(** ** Numbers *)

Module NumberFacts.

(** *** Signs *)

(** Rounding carries the sign it is given to every result that has one. *)
Lemma binary_round_aux_sign s m e l :
  match binary_round_aux prec emax s m e l with
  | S754_zero s' | S754_infinity s' | S754_finite s' _ _ => s' = s
  | S754_nan => True
  end.
Proof.
  unfold binary_round_aux.
  destruct (shr_fexp prec emax m e l) as [mrs' e'].
  destruct (shr_fexp prec emax _ e' loc_Exact) as [mrs'' e''].
  destruct (shr_m mrs''); [done| |done].
  by destruct (e'' <=? emax - prec).
Qed.

Lemma nearest_sign s num den :
  match nearest s num den with
  | S754_zero s' | S754_infinity s' | S754_finite s' _ _ => s' = s
  | S754_nan => True
  end.
Proof.
  unfold nearest.
  destruct (SFdiv_core_binary prec emax (Z.pos num) 0 (Z.pos den) 0) as [[mz ez] lz].
  apply binary_round_aux_sign.
Qed.

Lemma gt_zero_inv x :
  gt x zero = true ->
  x = S754_infinity false \/ exists m e, x = S754_finite false m e.
Proof.
  destruct x as [s|[]| |[] m e]; try discriminate; eauto.
Qed.

Lemma lt_zero_inv x :
  lt x zero = true ->
  x = S754_infinity true \/ exists m e, x = S754_finite true m e.
Proof.
  destruct x as [s|[]| |[] m e]; try discriminate; eauto.
Qed.

(** [parseFloat(x.toFixed(2))] is positive only for positive [x]. *)
Lemma round_pos x :
  gt (parseFloat (toFixed x 2)) zero = true -> gt x zero = true.
Proof.
  destruct x as [s|s| |s m e]; cbn [toFixed parseFloat]; try done.
  destruct (at_least_1e21 m e); cbn [parseFloat]; [done|].
  destruct (scaled_round m e 2) as [|k|k]; [by destruct s| |done].
  intros H. pose proof (nearest_sign s k (Z.to_pos (10 ^ Z.of_nat 2))) as Hs.
  apply gt_zero_inv in H as [H|(m' & e' & H)]; rewrite H in Hs; by subst s.
Qed.

(** ... and negative only for negative [x]. *)
Lemma round_neg x :
  lt (parseFloat (toFixed x 2)) zero = true -> lt x zero = true.
Proof.
  destruct x as [s|s| |s m e]; cbn [toFixed parseFloat]; try done.
  destruct (at_least_1e21 m e); cbn [parseFloat]; [done|].
  destruct (scaled_round m e 2) as [|k|k]; [by destruct s| |done].
  intros H. pose proof (nearest_sign s k (Z.to_pos (10 ^ Z.of_nat 2))) as Hs.
  apply lt_zero_inv in H as [H|(m' & e' & H)]; rewrite H in Hs; by subst s.
Qed.

(** The difference of two identical finite numbers is zero. *)
Lemma sub_strict_eq x y :
  is_finite x = true -> strict_eq x y = true -> is_zero (sub x y) = true.
Proof.
  destruct x as [sx|sx| |sx mx ex]; try discriminate; intros _;
    destruct y as [sy|sy| |sy my ey]; try discriminate;
    try (by destruct sx, sy).
  unfold strict_eq, SFeqb. cbn [SFcompare].
  destruct sx, sy; try discriminate;
    destruct (Z.compare_spec ex ey) as [->| |]; try discriminate;
    destruct (Pos.compare_cont Eq mx my) eqn:Hm; try discriminate;
    apply Pcompare_Eq_eq in Hm as ->; intros _;
    unfold sub, SFsub; cbn [cond_Zopp];
    by rewrite Z.sub_diag.
Qed.

Lemma round_zero x : is_zero x = true -> parseFloat (toFixed x 2) = zero.
Proof. by destruct x. Qed.

(** *** The decimal that [toFixed] prints *)

Lemma Qabs_diff_opp a b : (Qabs (- a - - b) == Qabs (a - b))%Q.
Proof.
  rewrite <- (Qabs_opp (a - b)). apply Qabs_wd. ring.
Qed.

Lemma Qabs_diff_self a : (Qabs (a - a) <= 5 # 1000)%Q.
Proof.
  assert (H : (a - a == 0)%Q) by ring.
  rewrite H. discriminate.
Qed.

Lemma exact_cents M :
  (Qabs ((M * 10 ^ Z.of_nat 2 # 100) - inject_Z M) <= 5 # 1000)%Q.
Proof.
  assert (H : ((M * 10 ^ Z.of_nat 2 # 100) - inject_Z M == 0)%Q).
  { unfold Qeq, Qminus, Qplus, Qopp, inject_Z; cbn -[Z.mul]. lia. }
  rewrite H. discriminate.
Qed.

Lemma scaled_round_close m p :
  (Qabs ((scaled_round m (Z.neg p) 2 # 100) - (Z.pos m # 2 ^ p)) <= 5 # 1000)%Q.
Proof.
  unfold scaled_round. change (10 ^ Z.of_nat 2) with 100.
  set (D := 2 ^ (Z.pos p + 1)).
  assert (HD : D = 2 * 2 ^ Z.pos p) by (unfold D; rewrite Z.pow_add_r by lia; lia).
  assert (Hp : 0 < 2 ^ Z.pos p) by (apply Z.pow_pos_nonneg; lia).
  pose proof (Z.div_mod (2 * Z.pos m * 100 + 2 ^ Z.pos p) D ltac:(lia)) as Hdm.
  pose proof (Z.mod_pos_bound (2 * Z.pos m * 100 + 2 ^ Z.pos p) D ltac:(lia)) as Hmod.
  set (k := (2 * Z.pos m * 100 + 2 ^ Z.pos p) / D) in *.
  apply Qabs_Qle_condition.
  unfold Qle, Qminus, Qplus, Qopp; cbn -[Z.mul Z.pow Pos.pow Z.add].
  rewrite !Pos2Z.inj_mul, Pos2Z.inj_pow.
  rewrite HD in Hdm, Hmod. lia.
Qed.

Lemma toFixed_close x :
  is_finite x = true ->
  (Qabs (numeral_value (toFixed x 2) - Q_of x) <= 5 # 1000)%Q.
Proof.
  destruct x as [s|s| |s m e]; try discriminate; intros _.
  cbn [toFixed]. destruct (at_least_1e21 m e).
  - cbn [numeral_value]. apply Qabs_diff_self.
  - cbn [numeral_value Q_of]. change (Z.to_pos (10 ^ Z.of_nat 2)) with 100%positive.
    assert (H : (Qabs ((scaled_round m e 2 # 100) - magnitude m e) <= 5 # 1000)%Q).
    { destruct e as [|p|p]; [apply exact_cents..|apply scaled_round_close]. }
    destruct s; [|done]. by rewrite Qabs_diff_opp.
Qed.


(** *** Correct rounding *)

Lemma fexp_eq e : fexp prec emax e = Z.max (e - 53) emin.
Proof. reflexivity. Qed.

(** [digits2_pos] counts binary digits. *)
Lemma digits2_pos_bounds p :
  2 ^ (Z.pos (digits2_pos p) - 1) <= Z.pos p < 2 ^ Z.pos (digits2_pos p).
Proof.
  induction p as [p IH|p IH|]; cbn [digits2_pos].
  - rewrite Pos2Z.inj_succ.
    replace (Z.succ (Z.pos (digits2_pos p)) - 1) with (Z.succ (Z.pos (digits2_pos p) - 1)) by lia.
    rewrite !Z.pow_succ_r by lia. lia.
  - rewrite Pos2Z.inj_succ.
    replace (Z.succ (Z.pos (digits2_pos p)) - 1) with (Z.succ (Z.pos (digits2_pos p) - 1)) by lia.
    rewrite !Z.pow_succ_r by lia. lia.
  - done.
Qed.

Lemma Zdigits2_nonneg m : 0 <= Zdigits2 m.
Proof. by destruct m. Qed.

Lemma Zdigits2_bounds m :
  0 < m -> 2 ^ (Zdigits2 m - 1) <= m < 2 ^ Zdigits2 m.
Proof.
  destruct m as [|p|p]; try lia. intros _. apply digits2_pos_bounds.
Qed.

(** The number of digits is determined by the bounds. *)
Lemma Zdigits2_unique m d :
  2 ^ (d - 1) <= m < 2 ^ d -> 0 < d -> Zdigits2 m = d.
Proof.
  intros [Hlo Hhi] Hd.
  assert (Hm : 0 < m).
  { assert (0 < 2 ^ (d - 1)) by (apply Z.pow_pos_nonneg; lia). lia. }
  destruct (Zdigits2_bounds m Hm) as [Hlo' Hhi'].
  pose proof (Zdigits2_nonneg m) as Hn.
  destruct (Z.lt_trichotomy (Zdigits2 m) d) as [Hlt|[Heq|Hgt]]; [|done|].
  - assert (2 ^ Zdigits2 m <= 2 ^ (d - 1)) by (apply Z.pow_le_mono_r; lia). lia.
  - assert (2 ^ d <= 2 ^ (Zdigits2 m - 1)) by (apply Z.pow_le_mono_r; lia). lia.
Qed.

Lemma Zdigits2_le m d : 0 <= m < 2 ^ d -> 0 <= d -> Zdigits2 m <= d.
Proof.
  intros [Hm Hhi] Hd. destruct (Z.eq_dec m 0) as [->|Hne]; [done|].
  destruct (Zdigits2_bounds m ltac:(lia)) as [Hlo' Hhi'].
  destruct (Z.le_gt_cases (Zdigits2 m) d) as [|Hgt]; [done|].
  assert (2 ^ d <= 2 ^ (Zdigits2 m - 1)) by (apply Z.pow_le_mono_r; lia). lia.
Qed.

Ltac reflect_bools :=
  repeat match goal with
  | |- context [?a <=? ?b] => destruct (Z.leb_spec a b)
  | |- context [?a =? ?b] => destruct (Z.eqb_spec a b)
  | H : context [?a <=? ?b] |- _ => destruct (Z.leb_spec a b)
  | H : context [?a =? ?b] |- _ => destruct (Z.eqb_spec a b)
  end.

Lemma located_shr_1 mrs N D :
  0 < D -> located mrs N D -> located (shr_1 mrs) N (2 * D).
Proof.
  intros HD (Hm & HN & Hr & Hs). destruct mrs as [m r s]. cbn [shr_m shr_r shr_s] in *.
  unfold located.
  destruct m as [|[p|p|]|p]; try lia; cbn [shr_1 shr_m shr_r shr_s];
    (split; [lia|]); (split; [lia|]); subst r s;
    split; reflect_bools; cbn; try lia; try reflexivity.
Qed.

Lemma pow2_xO p : 2 ^ Z.pos p~0 = 2 ^ Z.pos p * 2 ^ Z.pos p.
Proof.
  replace (Z.pos p~0) with (Z.pos p + Z.pos p) by lia.
  apply Z.pow_add_r; lia.
Qed.

Lemma pow2_xI p : 2 ^ Z.pos p~1 = 2 * (2 ^ Z.pos p * 2 ^ Z.pos p).
Proof.
  replace (Z.pos p~1) with (Z.succ (Z.pos p + Z.pos p)) by lia.
  by rewrite Z.pow_succ_r, Z.pow_add_r by lia.
Qed.

Lemma pow2_pos k : 0 <= k -> 0 < 2 ^ k.
Proof. intros. apply Z.pow_pos_nonneg; lia. Qed.

Lemma located_iter_pos p : forall mrs N D,
  0 < D -> located mrs N D ->
  located (SpecFloat.iter_pos shr_1 p mrs) N (2 ^ Z.pos p * D).
Proof.
  induction p as [p IH|p IH|]; intros mrs N D HD H; cbn [SpecFloat.iter_pos].
  - replace (2 ^ Z.pos p~1 * D) with (2 ^ Z.pos p * (2 ^ Z.pos p * (2 * D)))
      by (rewrite pow2_xI; lia).
    pose proof (pow2_pos (Z.pos p) ltac:(lia)).
    apply IH; [nia|]. apply IH; [lia|]. by apply located_shr_1.
  - replace (2 ^ Z.pos p~0 * D) with (2 ^ Z.pos p * (2 ^ Z.pos p * D))
      by (rewrite pow2_xO; lia).
    pose proof (pow2_pos (Z.pos p) ltac:(lia)).
    apply IH; [nia|]. by apply IH.
  - change (2 ^ 1) with 2. by apply located_shr_1.
Qed.

(** Shifting right by [n] places, as [shr] does. *)
Lemma located_shr mrs e n N D :
  0 < D -> located mrs N D ->
  exists mrs', shr mrs e n = (mrs', e + Z.max 0 n) /\
               located mrs' N (2 ^ Z.max 0 n * D).
Proof.
  intros HD H. destruct n as [|p|p]; cbn [shr].
  - exists mrs. rewrite Z.add_0_r. split; [done|]. by rewrite Z.mul_1_l.
  - eexists. split; [done|]. by apply located_iter_pos.
  - exists mrs. rewrite Z.add_0_r. split; [done|]. by rewrite Z.mul_1_l.
Qed.

(** Where a location places a rational. *)
Lemma located_of_loc m l N D :
  located (shr_record_of_loc m l) N D <->
  0 <= m /\ m * D <= N < (m + 1) * D /\
  match l with
  | loc_Exact => N = m * D
  | loc_Inexact Lt => m * D < N /\ 2 * (N - m * D) < D
  | loc_Inexact Eq => 2 * (N - m * D) = D
  | loc_Inexact Gt => D < 2 * (N - m * D)
  end.
Proof.
  unfold located.
  destruct l as [|[]]; cbn [shr_record_of_loc shr_m shr_r shr_s];
    split; intros (Hm & HN & H); (split; [done|]); (split; [done|]);
    revert H; reflect_bools; cbn; intros; try lia; try (split; congruence);
    try (destruct H; congruence).
Qed.

Lemma located_loc mrs N D :
  located mrs N D ->
  located (shr_record_of_loc (shr_m mrs) (loc_of_shr_record mrs)) N D.
Proof.
  destruct mrs as [m [] []]; done.
Qed.

(** Rounding to nearest even moves by at most one half. *)
Lemma round_nearest_even_close mrs N D :
  0 < D -> located mrs N D ->
  let mr := round_nearest_even (shr_m mrs) (loc_of_shr_record mrs) in
  shr_m mrs <= mr <= shr_m mrs + 1 /\ 2 * Z.abs (mr * D - N) <= D.
Proof.
  intros HD H%located_loc. apply located_of_loc in H as (Hm & HN & Hl).
  cbv zeta. destruct (loc_of_shr_record mrs) as [|[]]; cbn [round_nearest_even].
  - lia.
  - destruct (Z.even (shr_m mrs)); lia.
  - lia.
  - lia.
Qed.

Lemma shr_fexp_located m e l N D :
  0 < D -> located (shr_record_of_loc m l) N D ->
  let k := Z.max 0 (fexp prec emax (Zdigits2 m + e) - e) in
  exists mrs', shr_fexp prec emax m e l = (mrs', e + k) /\
               located mrs' N (2 ^ k * D).
Proof.
  intros HD H. unfold shr_fexp. by apply located_shr.
Qed.

(** After the first shift the mantissa fits the format. *)
Lemma shifted_fits mx ex mrs N D :
  0 < D -> 0 <= mx -> mx * D <= N < (mx + 1) * D ->
  let k := Z.max 0 (fexp prec emax (Zdigits2 mx + ex) - ex) in
  located mrs N (2 ^ k * D) ->
  fexp prec emax (Zdigits2 (shr_m mrs) + (ex + k)) <= ex + k.
Proof.
  intros HD Hmx HN k Hloc.
  assert (Hkdef : k = Z.max 0 (Z.max (Zdigits2 mx + ex - 53) emin - ex)) by done.
  clearbody k. destruct Hloc as (Hm & HN' & _).
  set (dx := Zdigits2 mx) in *. set (m1 := shr_m mrs) in *.
  pose proof (Zdigits2_nonneg mx) as Hdx. fold dx in Hdx.
  pose proof (Zdigits2_nonneg m1) as Hd1.
  assert (Hk : 0 <= k) by lia.
  pose proof (pow2_pos k Hk) as Hpk.
  assert (Hmx' : mx < 2 ^ dx).
  { destruct (Z.eq_dec mx 0) as [->|]; [apply pow2_pos; lia|].
    apply Zdigits2_bounds. lia. }
  assert (Hm1 : m1 * 2 ^ k < 2 ^ dx).
  { apply (Z.mul_lt_mono_pos_r D); [done|].
    assert ((mx + 1) * D <= 2 ^ dx * D) by (apply Z.mul_le_mono_nonneg_r; lia).
    lia. }
  assert (Hd : Zdigits2 m1 + k <= dx \/ (m1 = 0 /\ dx < k)).
  { destruct (Z.le_gt_cases k dx) as [Hle|Hgt].
    - left. assert (Zdigits2 m1 <= dx - k); [|lia].
      apply Zdigits2_le; [|lia]. split; [done|].
      replace dx with ((dx - k) + k) in Hm1 by lia.
      rewrite Z.pow_add_r in Hm1 by lia. nia.
    - right. split; [|done].
      assert (2 ^ dx <= 2 ^ k) by (apply Z.pow_le_mono_r; lia). nia. }
  rewrite fexp_eq. unfold emin in *.
  destruct Hd as [Hd|[Hz Hd]].
  - lia.
  - rewrite Hz. cbn [Zdigits2]. lia.
Qed.

(** The second shift, which renormalises after a carry, loses nothing. *)
Lemma second_shift_exact m1 mr e1 mrs2 :
  0 <= m1 -> m1 <= mr <= m1 + 1 ->
  fexp prec emax (Zdigits2 m1 + e1) <= e1 ->
  let k2 := Z.max 0 (fexp prec emax (Zdigits2 mr + e1) - e1) in
  located mrs2 mr (2 ^ k2 * 1) ->
  0 <= k2 <= 1 /\ shr_m mrs2 * 2 ^ k2 = mr.
Proof.
  intros Hm1 Hmr Hfit k2 Hloc.
  assert (Hkdef : k2 = Z.max 0 (Z.max (Zdigits2 mr + e1 - 53) emin - e1)) by done.
  clearbody k2. destruct Hloc as (Hm2 & HN & _).
  rewrite Z.mul_1_r in HN.
  pose proof (Zdigits2_nonneg m1) as Hd1.
  rewrite fexp_eq in Hfit. unfold emin in *.
  assert (Hk2 : k2 = 0 \/ (k2 = 1 /\ mr = 2 ^ 53)).
  { 
    destruct (Z.eq_dec mr m1) as [->|Hne]; [left; lia|].
    assert (Hmr' : mr = m1 + 1) by lia.
    assert (Hlt : m1 < 2 ^ Zdigits2 m1).
    { destruct (Z.eq_dec m1 0) as [->|]; [done|]. apply Zdigits2_bounds. lia. }
    destruct (Z.eq_dec mr (2 ^ Zdigits2 m1)) as [Hpow|Hnp].
    - assert (Hdr : Zdigits2 mr = Zdigits2 m1 + 1).
      { apply Zdigits2_unique; [|lia]. rewrite Hpow.
        replace (Zdigits2 m1 + 1 - 1) with (Zdigits2 m1) by lia.
        split; [lia|]. rewrite Z.pow_add_r by lia.
        pose proof (pow2_pos (Zdigits2 m1) Hd1). lia. }
      rewrite Hdr in Hkdef.
      destruct (Z.eq_dec (Zdigits2 m1) 53) as [E|]; [|left; lia].
      right. split; [lia|]. by rewrite Hpow, E.
    - left. assert (Zdigits2 mr <= Zdigits2 m1); [|lia].
      apply Zdigits2_le; lia. }
  destruct Hk2 as [Hk|[Hk Hp]]; rewrite Hk in *.
  - change (2 ^ 0) with 1 in *. lia.
  - change (2 ^ 1) with 2 in *. rewrite Hp in *. 
    change (2 ^ 53) with (2 * 2 ^ 52) in *. lia.
Qed.

(** [binary_round_aux] rounds the rational [N / D * 2^ex] located by
    [(mx, lx)] to within half a unit of the exponent [e1] it settles on,
    and carries the result to the number returned. *)
Theorem binary_round_aux_correct s mx ex lx N D :
  0 < D -> located (shr_record_of_loc mx lx) N D ->
  let e1 := Z.max ex (fexp prec emax (Zdigits2 mx + ex)) in
  exists mr,
    0 <= mr /\
    2 * Z.abs (mr * (2 ^ (e1 - ex) * D) - N) <= 2 ^ (e1 - ex) * D /\
    match binary_round_aux prec emax s mx ex lx with
    | S754_nan => False
    | S754_zero s' => s' = s /\ mr = 0
    | S754_infinity s' => s' = s /\ emax - prec < e1 + 1
    | S754_finite s' m e =>
        s' = s /\ e1 <= e <= e1 + 1 /\ Z.pos m * 2 ^ (e - e1) = mr /\ e <= emax - prec
    end.
Proof.
  intros HD Hloc e1.
  pose proof (proj1 (located_of_loc _ _ _ _) Hloc) as (Hmx & HN & _).
  destruct (shr_fexp_located mx ex lx N D HD Hloc) as (mrs1 & E1 & Hloc1).
  cbv zeta in E1, Hloc1.
  set (k := Z.max 0 (fexp prec emax (Zdigits2 mx + ex) - ex)) in *.
  assert (He1 : ex + k = e1) by (unfold e1, k; lia).
  assert (Hk : k = e1 - ex) by lia.
  pose proof (shifted_fits mx ex mrs1 N D HD Hmx HN Hloc1) as Hfit.
  fold k in Hfit. rewrite He1 in Hfit, E1. rewrite Hk in Hloc1.
  assert (HD1 : 0 < 2 ^ (e1 - ex) * D).
  { apply Z.mul_pos_pos; [apply pow2_pos; lia|done]. }
  destruct (round_nearest_even_close mrs1 N _ HD1 Hloc1) as [Hmr Herr].
  set (mr := round_nearest_even (shr_m mrs1) (loc_of_shr_record mrs1)) in *.
  pose proof Hloc1 as (Hm1 & _).
  assert (Hloc2 : located (shr_record_of_loc mr loc_Exact) mr 1).
  { apply located_of_loc. lia. }
  destruct (shr_fexp_located mr e1 loc_Exact mr 1 ltac:(lia) Hloc2) as (mrs2 & E2 & Hloc2').
  cbv zeta in E2, Hloc2'.
  destruct (second_shift_exact (shr_m mrs1) mr e1 mrs2 Hm1 Hmr Hfit Hloc2') as [Hk2 Hex].
  set (k2 := Z.max 0 (fexp prec emax (Zdigits2 mr + e1) - e1)) in *.
  pose proof Hloc2' as (Hm2 & _).
  exists mr. split; [lia|]. split; [exact Herr|].
  unfold binary_round_aux. rewrite E1. fold mr. rewrite E2.
  destruct (shr_m mrs2) as [|m2|m2] eqn:Em2; [|destruct (Z.leb_spec (e1 + k2) (emax - prec))|lia].
  - split; [done|]. lia.
  - split; [done|]. split; [lia|]. split; [|done].
    by replace (e1 + k2 - e1) with k2 by lia.
  - split; [done|]. lia.
Qed.

(** The location computed after a division with remainder. *)
Lemma new_location_located q r D :
  0 <= q -> 0 <= r < D ->
  located (shr_record_of_loc q (new_location D r)) (q * D + r) D.
Proof.
  intros Hq Hr. apply located_of_loc. split; [done|]. split; [lia|].
  replace (q * D + r - q * D) with r by lia.
  unfold new_location, new_location_even, new_location_odd.
  destruct (Z.even D) eqn:Hev.
  - destruct (Z.eqb_spec r 0) as [->|Hne]; [lia|].
    destruct (Z.compare_spec (2 * r) D); lia.
  - destruct (Z.eqb_spec r 0) as [->|Hne]; [lia|].
    assert (Hodd : 2 * r <> D).
    { intros <-. rewrite Z.even_mul in Hev. discriminate. }
    destruct (Z.compare_spec (2 * r + 1) D); lia.
Qed.

(** The quotient that [SFdiv] hands to the rounding. *)
Lemma SFdiv_core_binary_located m1 e1 m2 e2 :
  0 < m1 -> 0 < m2 ->
  exists q e' l,
    SFdiv_core_binary prec emax m1 e1 m2 e2 = (q, e', l) /\
    e' <= e1 - e2 /\
    e' <= fexp prec emax (Zdigits2 m1 + e1 - (Zdigits2 m2 + e2)) /\
    0 <= q /\
    q * m2 <= m1 * 2 ^ (e1 - e2 - e') < (q + 1) * m2 /\
    located (shr_record_of_loc q l) (m1 * 2 ^ (e1 - e2 - e')) m2.
Proof.
  intros H1 H2. unfold SFdiv_core_binary.
  set (e' := Z.min (fexp prec emax (Zdigits2 m1 + e1 - (Zdigits2 m2 + e2))) (e1 - e2)).
  assert (He' : e' <= e1 - e2) by apply Z.le_min_r.
  assert (He'' : e' <= fexp prec emax (Zdigits2 m1 + e1 - (Zdigits2 m2 + e2)))
    by apply Z.le_min_l.
  set (sh := e1 - e2 - e').
  assert (Hm' : match sh with Z.pos _ => Z.shiftl m1 sh | 0 => m1 | Z.neg _ => 0 end
                = m1 * 2 ^ sh).
  { assert (0 <= sh) by (unfold sh; lia).
    destruct sh as [|p|p]; [lia| |lia]. apply Z.shiftl_mul_pow2. lia. }
  rewrite Hm'.
  assert (Hpos : 0 <= m1 * 2 ^ sh).
  { apply Z.mul_nonneg_nonneg; [lia|]. apply Z.pow_nonneg. lia. }
  pose proof (Z_div_mod (m1 * 2 ^ sh) m2 ltac:(lia)) as Hdm.
  destruct (Z.div_eucl (m1 * 2 ^ sh) m2) as [q r]. destruct Hdm as [Heq Hr].
  assert (Hq : 0 <= q) by nia.
  exists q, e', (new_location m2 r). split; [done|]. split; [done|]. split; [done|].
  split; [done|]. fold sh. generalize dependent (2 ^ sh). intros P HP HPeq.
  split; [lia|].
  replace (m1 * P) with (q * m2 + r) by lia.
  by apply new_location_located.
Qed.

Lemma pow2_Qpower e : (pow2 e == 2 ^ e)%Q.
Proof.
  destruct e as [|p|p]; cbn [pow2].
  - done.
  - by rewrite (Zpower_Qpower 2 (Z.pos p)).
  - change (Z.neg p) with (- Z.pos p). rewrite Qpower_opp.
    rewrite <- (Zpower_Qpower 2 (Z.pos p)) by done.
    rewrite <- Pos2Z.inj_pow. done.
Qed.

Lemma pow2_add a b : (pow2 (a + b) == pow2 a * pow2 b)%Q.
Proof. rewrite !pow2_Qpower. by apply Qpower_plus. Qed.

Lemma pow2_positive e : (0 < pow2 e)%Q.
Proof.
  destruct e as [|p|p]; cbn [pow2]; try done.
  change 0%Q with (inject_Z 0). rewrite <- Zlt_Qlt. apply pow2_pos. lia.
Qed.

Lemma pow2_nonneg_inject k : 0 <= k -> pow2 k = inject_Z (2 ^ k).
Proof. destruct k; try lia; done. Qed.

Lemma frac_close M N D P :
  0 < D -> 2 * Z.abs (M * D - N) <= P * D ->
  (Qabs (inject_Z M - inject_Z N / inject_Z D) <= inject_Z P * (1 # 2))%Q.
Proof.
  intros HD H. destruct D as [|d|d]; try lia.
  apply Qabs_Qle_condition.
  unfold Qle, Qdiv, Qinv, Qminus, Qplus, Qmult, Qopp, inject_Z; cbn -[Z.mul Z.add].
  lia.
Qed.

Lemma round_close_Q (m : positive) (mr N D ex e1 e : Z) :
  0 < D -> ex <= e1 -> e1 <= e ->
  Z.pos m * 2 ^ (e - e1) = mr ->
  2 * Z.abs (mr * (2 ^ (e1 - ex) * D) - N) <= 2 ^ (e1 - ex) * D ->
  (Qabs (inject_Z (Z.pos m) * pow2 e - inject_Z N / inject_Z D * pow2 ex)
   <= pow2 (e - 1))%Q.
Proof.
  intros HD H1 H2 Hmr Herr.
  pose proof (pow2_positive ex) as Ha.
  pose proof (pow2_pos (e - e1) ltac:(lia)) as HR.
  pose proof (pow2_pos (e1 - ex) ltac:(lia)) as HP.
  assert (Ee : (pow2 e == inject_Z (2 ^ (e - e1)) * inject_Z (2 ^ (e1 - ex)) * pow2 ex)%Q).
  { replace e with ((e - e1) + ((e1 - ex) + ex)) at 1 by lia.
    rewrite !pow2_add, <- !pow2_nonneg_inject by lia. ring. }
  assert (Ee' : (pow2 (e - 1) ==
     inject_Z (2 ^ (e - e1)) * (pow2 ex * (inject_Z (2 ^ (e1 - ex)) * (1 # 2))))%Q).
  { replace (e - 1) with (e + -1) by lia. rewrite pow2_add, Ee.
    change (pow2 (-1)) with (1 # 2)%Q. ring. }
  assert (El : (inject_Z (Z.pos m) * pow2 e - inject_Z N / inject_Z D * pow2 ex ==
     pow2 ex * (inject_Z (mr * 2 ^ (e1 - ex)) - inject_Z N / inject_Z D))%Q).
  { rewrite Ee, <- Hmr, !inject_Z_mult. ring. }
  rewrite El, Qabs_Qmult, (Qabs_pos (pow2 ex)) by (by apply Qlt_le_weak).
  rewrite Ee'.
  assert (Hfc := frac_close (mr * 2 ^ (e1 - ex)) N D (2 ^ (e1 - ex)) HD
                   ltac:(by rewrite <- Z.mul_assoc)).
  set (u := (pow2 ex * (inject_Z (2 ^ (e1 - ex)) * (1 # 2)))%Q).
  assert (Hu : (pow2 ex * Qabs (inject_Z (mr * 2 ^ (e1 - ex)) - inject_Z N / inject_Z D)
                <= u)%Q).
  { unfold u. rewrite !(Qmult_comm (pow2 ex)). apply Qmult_le_compat_r; [done|].
    by apply Qlt_le_weak. }
  eapply Qle_trans; [exact Hu|].
  assert (Hu0 : (0 <= u)%Q).
  { unfold u. apply Qmult_le_0_compat; [by apply Qlt_le_weak|].
    apply Qmult_le_0_compat; [|done].
    change 0%Q with (inject_Z 0). rewrite <- Zle_Qle. lia. }
  rewrite <- (Qmult_1_l u) at 1. apply Qmult_le_compat_r; [|done].
  change 1%Q with (inject_Z 1). rewrite <- Zle_Qle. lia.
Qed.

Lemma Q_of_finite s m e :
  (Q_of (S754_finite s m e) ==
   if s then - (inject_Z (Z.pos m) * pow2 e) else inject_Z (Z.pos m) * pow2 e)%Q.
Proof.
  assert (H : (match e with
               | Z.neg p => Z.pos m # 2 ^ p
               | _ => inject_Z (Z.pos m * 2 ^ e)
               end == inject_Z (Z.pos m) * pow2 e)%Q).
  { destruct e as [|p|p]; cbn [pow2].
    - by rewrite inject_Z_mult.
    - by rewrite inject_Z_mult.
    - unfold Qeq, Qmult, inject_Z; cbn -[Z.mul Pos.pow]. lia. }
  cbn [Q_of]. destruct s; by rewrite H.
Qed.

Lemma Q_of_abs_finite m e :
  (Q_of (abs (S754_finite false m e)) == inject_Z (Z.pos m) * pow2 e)%Q.
Proof. apply (Q_of_finite false). Qed.

(** What [binary_round_aux] returns, in exact values: a number with the
    sign asked for, within half a unit in the last place of the rational
    it was given. *)
Lemma binary_round_aux_close s mx ex lx N D :
  0 < D -> located (shr_record_of_loc mx lx) N D ->
  0 < mx \/ ex <= emin ->
  let e1 := Z.max ex (fexp prec emax (Zdigits2 mx + ex)) in
  let X := (inject_Z N / inject_Z D * pow2 ex)%Q in
  match binary_round_aux prec emax s mx ex lx with
  | S754_nan => False
  | S754_infinity s' => s' = s /\ emax - prec <= e1
  | S754_zero s' => s' = s /\ (Qabs (0 - X) <= pow2 (emin - 1))%Q
  | S754_finite s' m e =>
      s' = s /\ e1 <= e <= e1 + 1 /\ e <= emax - prec /\
      (Qabs (inject_Z (Z.pos m) * pow2 e - X) <= pow2 (e - 1))%Q
  end.
Proof.
  intros HD Hloc Hz e1 X.
  destruct (binary_round_aux_correct s mx ex lx N D HD Hloc) as (mr & Hmr & Herr & Hres).
  fold e1 in Herr, Hres.
  assert (He1 : ex <= e1) by (unfold e1; lia).
  pose proof (proj1 (located_of_loc _ _ _ _) Hloc) as (Hmx & HN & _).
  destruct (binary_round_aux prec emax s mx ex lx) as [s'|s'| |s' m e].
  - destruct Hres as [-> ->]. split; [done|].
    assert (E : e1 = emin).
    { pose proof (pow2_pos (e1 - ex) ltac:(lia)) as HP.
      destruct (Z.eq_dec mx 0) as [->|Hne].
      - unfold e1. cbn [Zdigits2]. rewrite fexp_eq. unfold emin in *.
        clear -Hz. lia.
      - assert (Hmx' : mx * D <= 2 ^ (e1 - ex) * D - mx * D) by lia.
        assert (Hlt : mx < 2 ^ (e1 - ex)) by nia.
        assert (Zdigits2 mx <= e1 - ex) by (apply Zdigits2_le; lia).
        pose proof (Zdigits2_bounds mx ltac:(lia)).
        assert (0 < Zdigits2 mx).
        { destruct (Zdigits2 mx) eqn:E; try lia.
          destruct mx; try lia. discriminate. }
        revert H. unfold e1. rewrite fexp_eq. unfold emin. lia. }
    rewrite <- E.
    assert (Hfc := frac_close 0 N D (2 ^ (e1 - ex)) HD ltac:(lia)).
    assert (EX : (0 - X == pow2 ex * (inject_Z 0 - inject_Z N / inject_Z D))%Q)
      by (unfold X; ring).
    rewrite EX, Qabs_Qmult, (Qabs_pos (pow2 ex)) by (apply Qlt_le_weak, pow2_positive).
    replace (e1 - 1) with (ex + ((e1 - ex) + -1)) by lia.
    rewrite !pow2_add, (pow2_nonneg_inject (e1 - ex)) by lia.
    change (pow2 (-1)) with (1 # 2)%Q.
    rewrite !(Qmult_comm (pow2 ex)). apply Qmult_le_compat_r; [done|].
    apply Qlt_le_weak, pow2_positive.
  - destruct Hres as [-> Hov]. split; [done|lia].
  - done.
  - destruct Hres as (-> & He & Hm & Hle). split; [done|]. split; [done|]. split; [done|].
    apply (round_close_Q m mr N D ex e1 e); try done; lia.
Qed.

(** A quotient that truncates to zero is that of an underflow. *)
Lemma SFdiv_core_zero_quotient (m1 m2 : positive) e1 e2 e' :
  e' <= fexp prec emax (Zdigits2 (Z.pos m1) + e1 - (Zdigits2 (Z.pos m2) + e2)) ->
  e' <= e1 - e2 ->
  Z.pos m1 * 2 ^ (e1 - e2 - e') < Z.pos m2 ->
  e' <= emin.
Proof.
  intros He' Hle Hlt. rewrite fexp_eq in He'.
  destruct (Z.le_gt_cases e' emin) as [|Hgt]; [done|exfalso].
  cbn [Zdigits2] in He'.
  pose proof (digits2_pos_bounds m1) as [Hlo1 _].
  pose proof (digits2_pos_bounds m2) as [_ Hhi2].
  set (d1 := Z.pos (digits2_pos m1)) in *. set (d2 := Z.pos (digits2_pos m2)) in *.
  assert (Hd1 : 0 < d1) by done. assert (Hd2 : 0 < d2) by done.
  assert (Hsh : d2 - d1 + 53 <= e1 - e2 - e') by lia.
  assert (Hp : 2 ^ (d2 - d1 + 53) <= 2 ^ (e1 - e2 - e')).
  { destruct (Z.le_gt_cases 0 (d2 - d1 + 53)).
    - apply Z.pow_le_mono_r; lia.
    - rewrite (Z.pow_neg_r 2 (d2 - d1 + 53)) by lia. apply Z.pow_nonneg. lia. }
  assert (Hbig : 2 ^ d2 <= Z.pos m1 * 2 ^ (e1 - e2 - e')).
  { destruct (Z.le_gt_cases 0 (d2 - d1 + 53)) as [Hnn|Hneg].
    - assert (2 ^ (d1 - 1) * 2 ^ (d2 - d1 + 53) <= Z.pos m1 * 2 ^ (e1 - e2 - e')).
      { apply Z.mul_le_mono_nonneg; try lia; apply Z.pow_nonneg; lia. }
      rewrite <- Z.pow_add_r in H by lia.
      assert (2 ^ d2 <= 2 ^ (d1 - 1 + (d2 - d1 + 53))) by (apply Z.pow_le_mono_r; lia).
      lia.
    - assert (2 ^ d2 <= 2 ^ (d1 - 1)) by (apply Z.pow_le_mono_r; lia).
      pose proof (pow2_pos (e1 - e2 - e') ltac:(lia)). nia. }
  lia.
Qed.

(** The exponent the rounding of a quotient settles on. *)
Lemma SFdiv_core_exponent (m1 m2 : positive) e1 e2 q e' :
  e' <= fexp prec emax (Zdigits2 (Z.pos m1) + e1 - (Zdigits2 (Z.pos m2) + e2)) ->
  e' <= e1 - e2 -> 0 <= q ->
  q * Z.pos m2 <= Z.pos m1 * 2 ^ (e1 - e2 - e') ->
  Z.max e' (fexp prec emax (Zdigits2 q + e')) <=
  fexp prec emax (Zdigits2 (Z.pos m1) + e1 - (Zdigits2 (Z.pos m2) + e2) + 1).
Proof.
  intros He' Hle Hq Hqm. rewrite !fexp_eq in *. cbn [Zdigits2] in *.
  pose proof (digits2_pos_bounds m1) as [_ Hhi1].
  pose proof (digits2_pos_bounds m2) as [Hlo2 _].
  set (d1 := Z.pos (digits2_pos m1)) in *. set (d2 := Z.pos (digits2_pos m2)) in *.
  assert (Hd1 : 0 < d1) by done. assert (Hd2 : 0 < d2) by done.
  set (sh := e1 - e2 - e') in *. assert (Hsh : 0 <= sh) by (unfold sh; lia).
  pose proof (pow2_pos sh Hsh) as Hpsh.
  pose proof (pow2_pos (d2 - 1) ltac:(lia)) as Hpd2.
  assert (Hdq : Zdigits2 q = 0 \/ Zdigits2 q <= d1 + sh - d2 + 1).
  { destruct (Z.eq_dec q 0) as [->|Hne]; [by left|right].
    assert (Hlt : q * 2 ^ (d2 - 1) < 2 ^ (d1 + sh)).
    { rewrite Z.pow_add_r by lia.
      assert (q * 2 ^ (d2 - 1) <= q * Z.pos m2) by (apply Z.mul_le_mono_nonneg_l; lia).
      assert (Z.pos m1 * 2 ^ sh < 2 ^ d1 * 2 ^ sh) by (apply Z.mul_lt_mono_pos_r; lia).
      lia. }
    destruct (Z.le_gt_cases (d2 - 1) (d1 + sh)) as [Hc|Hc].
    - apply Zdigits2_le; [|lia]. split; [done|].
      replace (d1 + sh) with ((d1 + sh - d2 + 1) + (d2 - 1)) in Hlt by lia.
      rewrite Z.pow_add_r in Hlt by lia. nia.
    - assert (2 ^ (d1 + sh) <= 2 ^ (d2 - 1)) by (apply Z.pow_le_mono_r; lia). nia. }
  unfold emin in *. unfold sh in Hdq. lia.
Qed.

(** Division of two finite non-zero numbers is correctly rounded. *)
Lemma div_close (sx sy : bool) (mx my : positive) (ex ey : Z) :
  let X := ((inject_Z (Z.pos mx) * pow2 ex) / (inject_Z (Z.pos my) * pow2 ey))%Q in
  match div (S754_finite sx mx ex) (S754_finite sy my ey) with
  | S754_nan => False
  | S754_infinity s' =>
      s' = xorb sx sy /\
      emax - prec <= fexp prec emax
        (Zdigits2 (Z.pos mx) + ex - (Zdigits2 (Z.pos my) + ey) + 1)
  | S754_zero s' => s' = xorb sx sy /\ (Qabs (0 - X) <= pow2 (emin - 1))%Q
  | S754_finite s' m e =>
      s' = xorb sx sy /\ e <= emax - prec /\
      (Qabs (inject_Z (Z.pos m) * pow2 e - X) <= pow2 (e - 1))%Q
  end.
Proof.
  intros X. unfold div, SFdiv.
  destruct (SFdiv_core_binary_located (Z.pos mx) ex (Z.pos my) ey
              ltac:(lia) ltac:(lia)) as
    (q & e' & l & E & He' & Hfe & Hq & Hqr & Hloc).
  rewrite E.
  assert (Hz : 0 < q \/ e' <= emin).
  { destruct (Z.eq_dec q 0) as [->|]; [right|left; lia].
    apply (SFdiv_core_zero_quotient mx my ex ey e'); [done|done|lia]. }
  pose proof (SFdiv_core_exponent mx my ex ey q e' Hfe He' Hq ltac:(lia)) as Hexp.
  pose proof (binary_round_aux_close (xorb sx sy) q e' l
                (Z.pos mx * 2 ^ (ex - ey - e')) (Z.pos my) ltac:(lia) Hloc Hz) as H.
  cbv zeta in H.
  assert (EX : (inject_Z (Z.pos mx * 2 ^ (ex - ey - e')) / inject_Z (Z.pos my) * pow2 e'
                == X)%Q).
  { unfold X. replace ex with ((ex - ey - e') + (e' + ey)) at 2 by lia.
    rewrite inject_Z_mult, !pow2_add, <- (pow2_nonneg_inject (ex - ey - e')) by lia.
    field. split.
    - pose proof (pow2_positive ey) as Hp. intros Hc. rewrite Hc in Hp.
      by apply Qlt_irrefl in Hp.
    - discriminate. }
  destruct (binary_round_aux prec emax (xorb sx sy) q e' l) as [s'|s'| |s' m e].
  - destruct H as [-> H]. split; [done|]. by rewrite <- EX.
  - destruct H as [-> H]. split; [done|]. lia.
  - done.
  - destruct H as (-> & _ & Hle & H). split; [done|]. split; [done|]. by rewrite <- EX.
Qed.

(** Reading a decimal is a division of two integers. *)
Lemma nearest_div neg num den :
  nearest neg num den = div (S754_finite neg num 0) (S754_finite false den 0).
Proof.
  unfold nearest, div, SFdiv. by rewrite xorb_false_r.
Qed.

Lemma nearest_close neg num den :
  Z.pos num < 2 ^ 77 ->
  match nearest neg num den with
  | S754_finite s' m e =>
      s' = neg /\ e <= emax - prec /\
      (Qabs (inject_Z (Z.pos m) * pow2 e - (Z.pos num # den)) <= pow2 (e - 1))%Q
  | S754_zero s' => s' = neg /\ (Qabs (0 - (Z.pos num # den)) <= pow2 (emin - 1))%Q
  | _ => False
  end.
Proof.
  intros Hnum. rewrite nearest_div.
  pose proof (div_close neg false num den 0 0) as H. cbv zeta in H.
  assert (EX : ((inject_Z (Z.pos num) * pow2 0) / (inject_Z (Z.pos den) * pow2 0)
                == Z.pos num # den)%Q).
  { change (pow2 0) with 1%Q. rewrite !Qmult_1_r. symmetry. apply Qmake_Qdiv. }
  destruct (div (S754_finite neg num 0) (S754_finite false den 0)) as [s'|s'| |s' m e].
  - destruct H as [-> H]. rewrite xorb_false_r. split; [done|]. by rewrite <- EX.
  - destruct H as [_ H]. rewrite fexp_eq in H.
    assert (Zdigits2 (Z.pos num) <= 77) by (apply Zdigits2_le; lia).
    pose proof (Zdigits2_nonneg (Z.pos den)).
    unfold emax, prec, emin in H. 
    assert (0 < Zdigits2 (Z.pos den)) by done. lia.
  - done.
  - destruct H as (-> & Hle & H). rewrite xorb_false_r. split; [done|]. split; [done|].
    by rewrite <- EX.
Qed.

(** Below 10^21 the scaled integer that [toFixed] prints stays below 2^77. *)
Lemma scaled_round_bound m e :
  at_least_1e21 m e = false -> 0 <= scaled_round m e 2 < 2 ^ 77.
Proof.
  unfold at_least_1e21, scaled_round. change (10 ^ Z.of_nat 2) with 100.
  destruct e as [|p|p]; intros H%Z.leb_gt.
  - change (2 ^ 0) with 1 in *. lia.
  - pose proof (pow2_pos (Z.pos p) ltac:(lia)). nia.
  - pose proof (pow2_pos (Z.pos p) ltac:(lia)) as Hp.
    assert (HD : 2 ^ (Z.pos p + 1) = 2 * 2 ^ Z.pos p) by (rewrite Z.pow_add_r; lia).
    rewrite HD. split.
    + apply Z.div_pos; lia.
    + apply Z.div_lt_upper_bound; [lia|]. 
      change (2 ^ 77) with 151115727451828646838272. 
      change (10 ^ 21) with 1000000000000000000000 in H. lia.
Qed.

(** [round(x, 2)] of a finite number is finite and within half a unit in
    the last place of the decimal that [toFixed] printed. *)
Lemma round_close q :
  is_finite q = true ->
  let s := parseFloat (toFixed q 2) in
  is_finite s = true /\
  (Qabs (Q_of s - numeral_value (toFixed q 2)) <= half_ulp s)%Q.
Proof.
  destruct q as [sq|sq| |sq mq eq]; try discriminate; intros _; cbv zeta.
  - split; [done|]. discriminate.
  - cbn [toFixed]. destruct (at_least_1e21 mq eq) eqn:Hbig.
    + cbn [parseFloat numeral_value is_finite]. split; [done|].
      assert (E : (Q_of (S754_finite sq mq eq) - Q_of (S754_finite sq mq eq) == 0)%Q) by ring.
      rewrite E. apply Qlt_le_weak, pow2_positive.
    + pose proof (scaled_round_bound mq eq Hbig) as Hk.
      cbn [parseFloat numeral_value]. change (Z.to_pos (10 ^ Z.of_nat 2)) with 100%positive.
      destruct (scaled_round mq eq 2) as [|k|k]; [| |lia].
      * split; [done|]. by destruct sq.
      * pose proof (nearest_close sq k 100 ltac:(lia)) as H.
        destruct (nearest sq k 100) as [s'|s'| |s' m e]; try done.
        -- destruct H as [-> H]. split; [done|]. cbn [Q_of half_ulp].
           destruct sq; [|done].
           assert (E : (0 - - (Z.pos k # 100) == - (0 - (Z.pos k # 100)))%Q) by ring.
           by rewrite E, Qabs_opp.
        -- destruct H as (-> & _ & H). split; [done|]. cbn [half_ulp].
           rewrite Q_of_finite. destruct sq; [|done].
           assert (E : (- (inject_Z (Z.pos m) * pow2 e) - - (Z.pos k # 100) ==
                        - (inject_Z (Z.pos m) * pow2 e - (Z.pos k # 100)))%Q) by ring.
           by rewrite E, Qabs_opp.
Qed.

Lemma shl_align_value p e f :
  let '(mz, ez) := shl_align p e f in
  ez = Z.min e f /\ Z.pos mz = Z.pos p * 2 ^ (e - ez).
Proof.
  unfold shl_align. destruct (f - e) as [|d|d] eqn:E.
  - split; [lia|]. rewrite Z.sub_diag. lia.
  - split; [lia|]. rewrite Z.sub_diag. lia.
  - split; [lia|]. change (Pos.iter xO p d) with (shift_pos d p).
    rewrite shift_pos_correct. change (Z.pow_pos 2 d) with (2 ^ Z.pos d).
    replace (e - f) with (Z.pos d) by lia. lia.
Qed.

(** An array length is represented exactly. *)
Lemma of_nat_exact n :
  (0 < n)%nat -> Z.of_nat n < 2 ^ 53 ->
  exists m e, of_nat n = S754_finite false m e /\
              (inject_Z (Z.pos m) * pow2 e == inject_Z (Z.of_nat n))%Q.
Proof.
  intros Hn Hlt. unfold of_nat.
  destruct (Z.of_nat n) as [|p|p] eqn:En; try lia.
  cbn [binary_normalize]. unfold binary_round.
  pose proof (digits2_pos_bounds p) as [Hlo Hhi].
  set (dp := Z.pos (digits2_pos p)) in *.
  assert (Hdp : 0 < dp <= 53).
  { split; [done|]. destruct (Z.le_gt_cases dp 53) as [|Hgt]; [done|].
    assert (2 ^ 53 <= 2 ^ (dp - 1)) by (apply Z.pow_le_mono_r; lia). lia. }
  assert (Hf : fexp prec emax (dp + 0) = dp - 53).
  { rewrite fexp_eq. unfold emin. lia. }
  rewrite Hf.
  pose proof (shl_align_value p 0 (dp - 53)) as Hsh.
  destruct (shl_align p 0 (dp - 53)) as [mz ez]. destruct Hsh as [Hez Hmz].
  assert (Ez : ez = dp - 53) by lia. 
  replace (0 - ez) with (53 - dp) in Hmz by lia.
  assert (Hdz : Zdigits2 (Z.pos mz) = 53).
  { apply Zdigits2_unique; [|lia]. rewrite Hmz.
    pose proof (pow2_pos (53 - dp) ltac:(lia)) as Hp.
    assert (E1 : 2 ^ (53 - 1) = 2 ^ (dp - 1) * 2 ^ (53 - dp)).
    { rewrite <- Z.pow_add_r by lia. f_equal. lia. }
    assert (E2 : 2 ^ 53 = 2 ^ dp * 2 ^ (53 - dp)).
    { rewrite <- Z.pow_add_r by lia. f_equal. lia. }
    rewrite E1, E2. nia. }
  assert (Hloc : located (shr_record_of_loc (Z.pos mz) loc_Exact) (Z.pos mz) 1).
  { apply located_of_loc. lia. }
  destruct (binary_round_aux_correct false (Z.pos mz) ez loc_Exact (Z.pos mz) 1
              ltac:(lia) Hloc) as (mr & Hmr & Herr & Hres).
  cbv zeta in Herr, Hres. rewrite Hdz, fexp_eq in Herr, Hres.
  replace (Z.max ez (Z.max (53 + ez - 53) emin)) with ez in Herr, Hres
    by (unfold emin; lia).
  rewrite Z.sub_diag in Herr. change (2 ^ 0) with 1 in Herr.
  assert (Emr : mr = Z.pos mz) by lia.
  destruct (binary_round_aux prec emax false (Z.pos mz) ez loc_Exact) as [s'|s'| |s' m e].
  - lia.
  - unfold emax, prec in Hres. lia.
  - done.
  - destruct Hres as (-> & He & Hm & _). exists m, e. split; [done|].
    replace e with ((e - ez) + ez) at 1 by lia.
    rewrite pow2_add, (pow2_nonneg_inject (e - ez)) by lia.
    rewrite Qmult_assoc, <- inject_Z_mult, Hm, Emr, Hmz, inject_Z_mult.
    rewrite <- (pow2_nonneg_inject (53 - dp)) by lia.
    rewrite <- Qmult_assoc, <- pow2_add.
    replace (53 - dp + ez) with 0 by lia. change (pow2 0) with 1%Q. ring.
Qed.

Lemma half_ulp_nonneg x : (0 <= half_ulp x)%Q.
Proof. destruct x; apply Qlt_le_weak, pow2_positive. Qed.

(** Dividing a finite amount by an array length is correctly rounded. *)
Lemma div_of_nat_close A n :
  is_finite A = true -> (0 < n)%nat -> Z.of_nat n < 2 ^ 53 ->
  let q := div A (of_nat n) in
  is_finite q = true ->
  (Qabs (Q_of q - Q_of A / inject_Z (Z.of_nat n)) <= half_ulp q)%Q.
Proof.
  intros HA Hn Hlt. destruct (of_nat_exact n Hn Hlt) as (mn & en & -> & Emn).
  destruct A as [sx|sx| |sx mx ex]; try discriminate; cbv zeta.
  pose proof (div_close sx false mx mn ex en) as H. cbv zeta in H.
  set (X := (inject_Z (Z.pos mx) * pow2 ex / inject_Z (Z.of_nat n))%Q).
  assert (EX : (inject_Z (Z.pos mx) * pow2 ex / (inject_Z (Z.pos mn) * pow2 en) == X)%Q)
    by (unfold X; by rewrite Emn).
  assert (EA : (Q_of (S754_finite sx mx ex) / inject_Z (Z.of_nat n) ==
                if sx then - X else X)%Q).
  { rewrite Q_of_finite. unfold X, Qdiv. destruct sx; ring. }
  rewrite EA.
  destruct (div (S754_finite sx mx ex) (S754_finite false mn en)) as [s'|s'| |s' m e];
    try discriminate; intros _.
  - destruct H as [_ H]. rewrite EX in H. cbn [Q_of half_ulp]. destruct sx; [|done].
    assert (E : (0 - - X == - (0 - X))%Q) by ring. by rewrite E, Qabs_opp.
  - destruct H as (-> & _ & H). rewrite EX in H.
    rewrite xorb_false_r, Q_of_finite. cbn [half_ulp].
    destruct sx; [|done].
    assert (E : (- (inject_Z (Z.pos m) * pow2 e) - - X ==
                 - (inject_Z (Z.pos m) * pow2 e - X))%Q) by ring.
    by rewrite E, Qabs_opp.
Qed.

(** The drift of one expense: [n] contributions differ from the amount by
    at most [n] times half a cent, half a unit in the last place of the
    contribution and half a unit in the last place of the quotient. *)
Theorem drift_bound A n :
  is_finite A = true -> (0 < n)%nat -> Z.of_nat n < 2 ^ 53 ->
  let q := div A (of_nat n) in
  let s := parseFloat (toFixed q 2) in
  is_finite q = true ->
  is_finite s = true /\
  (Qabs (inject_Z (Z.of_nat n) * Q_of s - Q_of A)
   <= inject_Z (Z.of_nat n) * ((5 # 1000) + half_ulp s + half_ulp q))%Q.
Proof.
  intros HA Hn Hlt q s Hq.
  destruct (round_close q Hq) as [Hs Hsk]. fold s in Hs, Hsk.
  pose proof (toFixed_close q Hq) as Hkq.
  pose proof (div_of_nat_close A n HA Hn Hlt Hq) as Hqa. fold q in Hqa.
  split; [done|].
  set (K := numeral_value (toFixed q 2)) in *.
  set (nn := inject_Z (Z.of_nat n)) in *.
  assert (Hnn : (0 < nn)%Q).
  { unfold nn. change 0%Q with (inject_Z 0). rewrite <- Zlt_Qlt. lia. }
  assert (E : (nn * Q_of s - Q_of A ==
               nn * (Q_of s - K) + (nn * (K - Q_of q) + nn * (Q_of q - Q_of A / nn)))%Q).
  { field. intros Hc. rewrite Hc in Hnn. by apply Qlt_irrefl in Hnn. }
  rewrite E.
  eapply Qle_trans; [apply Qabs_triangle|].
  eapply Qle_trans; [apply Qplus_le_r, Qabs_triangle|].
  rewrite !Qabs_Qmult, !(Qabs_pos nn) by (by apply Qlt_le_weak).
  assert (E' : (nn * ((5 # 1000) + half_ulp s + half_ulp q) ==
                nn * half_ulp s + (nn * (5 # 1000) + nn * half_ulp q))%Q) by ring.
  rewrite E'.
  assert (Hmono : forall a b, (a <= b)%Q -> (nn * a <= nn * b)%Q).
  { intros a b Hab. rewrite !(Qmult_comm nn). apply Qmult_le_compat_r; [done|].
    by apply Qlt_le_weak. }
  apply Qplus_le_compat; [by apply Hmono|].
  apply Qplus_le_compat; by apply Hmono.
Qed.

(** *** The sign of a rounded number *)

Lemma magnitude_pos m e : (0 < magnitude m e)%Q.
Proof.
  destruct e as [|p|p]; cbn [magnitude]; try done.
  change 0%Q with (inject_Z 0). rewrite <- Zlt_Qlt.
  pose proof (pow2_pos (Z.pos p) ltac:(lia)). lia.
Qed.

(** [toFixed] prints a non-zero integer exactly from half a cent on. *)
Lemma scaled_round_pos_iff m e :
  0 < scaled_round m e 2 <-> (5 # 1000 <= magnitude m e)%Q.
Proof.
  unfold scaled_round, magnitude. change (10 ^ Z.of_nat 2) with 100.
  destruct e as [|p|p].
  - change (2 ^ 0) with 1. split; [intros _|lia].
    unfold Qle, inject_Z; cbn -[Z.mul]. lia.
  - pose proof (pow2_pos (Z.pos p) ltac:(lia)) as Hp. split; [intros _|nia].
    unfold Qle, inject_Z; cbn -[Z.mul Z.pow]. nia.
  - pose proof (pow2_pos (Z.pos p) ltac:(lia)) as Hp.
    assert (HD : 2 ^ (Z.pos p + 1) = 2 * 2 ^ Z.pos p) by (rewrite Z.pow_add_r; lia).
    rewrite HD. unfold Qle; cbn -[Z.mul Z.pow Pos.pow]. rewrite Pos2Z.inj_pow.
    split.
    + intros Hk. destruct (Z.le_gt_cases (2 ^ Z.pos p) (200 * Z.pos m)) as [|Hlt]; [lia|].
      rewrite Z.div_small in Hk; lia.
    + intros Hle. apply Z.div_str_pos. lia.
Qed.

Lemma at_least_1e21_magnitude m e :
  at_least_1e21 m e = true -> (5 # 1000 <= magnitude m e)%Q.
Proof.
  unfold at_least_1e21, magnitude.
  destruct e as [|p|p]; intros H%Z.leb_le.
  - unfold Qle, inject_Z; cbn -[Z.mul Z.pow]. lia.
  - unfold Qle, inject_Z; cbn -[Z.mul Z.pow]. lia.
  - unfold Qle; cbn -[Z.mul Z.pow Pos.pow]. rewrite Pos2Z.inj_pow.
    pose proof (pow2_pos (Z.pos p) ltac:(lia)) as Hp.
    change (10 ^ 21) with 1000000000000000000000 in H. nia.
Qed.

(** Reading a non-zero decimal with two fraction digits never gives zero. *)
Lemma nearest_cents_nonzero neg k :
  Z.pos k < 2 ^ 77 ->
  exists m e, nearest neg k 100 = S754_finite neg m e.
Proof.
  intros Hk. pose proof (nearest_close neg k 100 Hk) as H.
  destruct (nearest neg k 100) as [s'|s'| |s' m e]; try done.
  - destruct H as [_ H]. exfalso.
    apply Qabs_Qle_condition in H as [H _]. revert H.
    unfold emin. change (pow2 (-1074 - 1)) with (1 # 2 ^ 1075)%Q.
    unfold Qle, Qminus, Qplus, Qopp; cbn -[Z.mul Pos.pow Z.pow].
    assert (100 < Z.pos (2 ^ 1075)) by (vm_compute; reflexivity). nia.
  - destruct H as [-> _]. eauto.
Qed.

(** What [round(x, 2)] is, by cases on the magnitude of a finite non-zero
    [x]: zero below half a cent, and a number of the sign of [x] from half
    a cent on. *)
Lemma round_sign s m e :
  let r := parseFloat (toFixed (S754_finite s m e) 2) in
  if Qle_bool (5 # 1000) (magnitude m e)
  then exists m' e', r = S754_finite s m' e'
  else r = S754_zero s.
Proof.
  cbv zeta. cbn [toFixed].
  destruct (Qle_bool (5 # 1000) (magnitude m e)) eqn:Hq.
  - apply Qle_bool_iff in Hq. destruct (at_least_1e21 m e) eqn:Hbig.
    + cbn [parseFloat]. eauto.
    + pose proof (scaled_round_bound m e Hbig) as Hk.
      apply scaled_round_pos_iff in Hq. cbn [parseFloat].
      destruct (scaled_round m e 2) as [|k|k]; try lia.
      change (Z.to_pos (10 ^ Z.of_nat 2)) with 100%positive.
      apply nearest_cents_nonzero. lia.
  - destruct (at_least_1e21 m e) eqn:Hbig.
    + apply at_least_1e21_magnitude in Hbig. apply Qle_bool_iff in Hbig. congruence.
    + cbn [parseFloat].
      destruct (scaled_round m e 2) as [|k|k] eqn:Ek; [done| |].
      * assert (Hpos : 0 < scaled_round m e 2) by lia.
        apply scaled_round_pos_iff, Qle_bool_iff in Hpos. congruence.
      * pose proof (scaled_round_bound m e Hbig). lia.
Qed.

(** The sign of [round(x, 2)] for a finite [x]: positive from half a cent
    on, negative from minus half a cent down, zero in between. *)
Lemma round_sign_cases d :
  is_finite d = true ->
  let r := parseFloat (toFixed d 2) in
  (gt r zero = true <-> (5 # 1000 <= Q_of d)%Q) /\
  (lt r zero = true <-> (Q_of d <= - (5 # 1000))%Q) /\
  (is_zero r = true <-> (- (5 # 1000) < Q_of d /\ Q_of d < 5 # 1000)%Q).
Proof.
  destruct d as [s|s| |s m e]; try discriminate; intros _; cbv zeta.
  - cbn [toFixed parseFloat Q_of]. repeat split; try done; discriminate.
  - pose proof (round_sign s m e) as H. cbv zeta in H.
    pose proof (magnitude_pos m e) as Hpos. cbn [Q_of].
    destruct (Qle_bool (5 # 1000) (magnitude m e)) eqn:Hq.
    + apply Qle_bool_iff in Hq. destruct H as (m' & e' & ->).
      destruct s; cbn; repeat split; try done; try discriminate; intros; lra.
    + assert (Hlt : (magnitude m e < 5 # 1000)%Q).
      { apply Qnot_le_lt. intros Hc%Qle_bool_iff. congruence. }
      rewrite H. destruct s; cbn; repeat split; try done; try discriminate;
        intros; lra.
Qed.

End NumberFacts.

(** ** Balance engine *)

Module BalanceSpec.

Import BalanceEngine.

Lemma value_bind {A B} (m : Traced A) (k : A -> Traced B) :
  value (bind m k) = value (k (value m)).
Proof.
  unfold value, bind. destruct m as [a l1]; simpl. by destruct (k a).
Qed.

Lemma divisions_bind {A B} (m : Traced A) (k : A -> Traced B) :
  divisions (bind m k) = divisions m ++ divisions (k (value m)).
Proof.
  unfold divisions, value, bind. destruct m as [a l1]; simpl. by destruct (k a).
Qed.

Lemma split_with_nonempty memberId e :
  split_with memberId e = true -> nonempty_split e = true.
Proof.
  unfold split_with, nonempty_split. by destruct (Expense.splitAmong e).
Qed.

(** One step of the loop, on the values. *)
Lemma forEach_callback_value memberId p s e :
  value (forEach_callback memberId (p, s) e) =
  if nonempty_split e then
    (if paid_by memberId e then add p (Expense.amount e) else p,
     if split_with memberId e then add s (individual_share e) else s)
  else (p, s).
Proof.
  unfold forEach_callback, nonempty_split.
  destruct (Nat.eqb (length (Expense.splitAmong e)) 0); cbn [negb]; [done|].
  by rewrite value_bind.
Qed.

(** The loop computes two filtered running sums. *)
Lemma forEach_value memberId es : forall p s,
  value (forEach memberId es (p, s)) =
  (foldl add p (map Expense.amount
     (List.filter (fun e => nonempty_split e && paid_by memberId e) es)),
   foldl add s (map individual_share
     (List.filter (fun e => nonempty_split e && split_with memberId e) es))).
Proof.
  induction es as [|e es IH]; intros p s; [done|].
  cbn [forEach]. rewrite value_bind, forEach_callback_value.
  cbn [List.filter].
  destruct (nonempty_split e); cbn [andb]; [|apply IH].
  rewrite IH.
  by destruct (paid_by memberId e), (split_with memberId e).
Qed.

Lemma computeMemberBalance_value group memberId :
  value (computeMemberBalance group memberId) =
  match group ≫= Group.expenses with
  | None => {| paid := zero; share := zero; net := zero |}
  | Some es =>
      let p := paid_nonempty memberId es in
      let s := share_spec memberId es in
      {| paid := p; share := s; net := round2 (sub p s) |}
  end.
Proof.
  unfold computeMemberBalance.
  destruct (group ≫= Group.expenses) as [es|]; [|done].
  rewrite value_bind, forEach_value. done.
Qed.

(** C1. For every member identifier and every expense list, the [share]
    returned by [computeMemberBalance] is the running sum, over exactly the
    expenses whose split-among list is non-empty and contains the member,
    of the individual shares [round(amount / |split-among|, 2)]: each share
    is rounded before it is added and the running sum is not rounded. *)
Theorem C1_share_is_sum_of_rounded_shares (group : option Group.t) (memberId : string) :
  share (value (computeMemberBalance group memberId)) =
  share_spec memberId (expenses_of group).
Proof.
  rewrite computeMemberBalance_value. unfold expenses_of.
  by destruct (group ≫= Group.expenses).
Qed.

Example scenarioA_payer :
  value (computeMemberBalance (Some scenarioA) "u1") =
  {| paid := decimal 100 0; share := decimal 3333 2; net := decimal 6667 2 |}.
Proof. vm_compute. reflexivity. Qed.

Example scenarioA_other :
  value (computeMemberBalance (Some scenarioA) "u2") =
  {| paid := zero; share := decimal 3333 2; net := decimal (-3333) 2 |}.
Proof. vm_compute. reflexivity. Qed.

Example scenarioB_alice :
  value (computeMemberBalance (Some scenarioB) "u1") =
  {| paid := decimal 50 0; share := decimal 40 0; net := decimal 10 0 |}.
Proof. vm_compute. reflexivity. Qed.

Example scenarioB_bob :
  value (computeMemberBalance (Some scenarioB) "u2") =
  {| paid := decimal 30 0; share := decimal 40 0; net := decimal (-10) 0 |}.
Proof. vm_compute. reflexivity. Qed.

(** C2, as stated, fails.  Alice is the payer of an expense of 10 whose
    split-among list is empty; the sum of the amounts of the expenses she
    paid is 10, and [computeMemberBalance] returns [paid = 0]: the guard
    on the empty list leaves the callback before the payer is looked at. *)
Lemma C2_counterexample :
  let b := value (computeMemberBalance (Some unsplit) "u1") in
  paid_spec "u1" (expenses_of (Some unsplit)) = decimal 10 0 /\
  paid b = zero /\
  paid b <> paid_spec "u1" (expenses_of (Some unsplit)).
Proof. vm_compute. repeat split; discriminate. Qed.

(** C2, amended.  The [paid] returned by [computeMemberBalance] is the
    unrounded running sum of the amounts of the expenses that have a
    non-empty split-among list and whose payer is the member; the payer
    matches when it is a full record with the member's identifier and when
    it is that bare identifier.  An expense with an empty split-among list
    is skipped altogether. *)
Theorem C2_paid_is_sum_over_split_expenses (group : option Group.t) (memberId : string) :
  paid (value (computeMemberBalance group memberId)) =
  paid_nonempty memberId (expenses_of group) /\
  (forall e u, Expense.paidBy e = Some (Populated u) -> User._id u = memberId ->
               paid_by memberId e = true) /\
  (forall e, Expense.paidBy e = Some (BareId memberId) -> paid_by memberId e = true).
Proof.
  split; [|split].
  - rewrite computeMemberBalance_value. unfold expenses_of.
    by destruct (group ≫= Group.expenses).
  - intros e u He <-. unfold paid_by. rewrite He. apply String.eqb_refl.
  - intros e He. unfold paid_by. rewrite He. apply String.eqb_refl.
Qed.

Lemma C2_paid_is_sum_over_split_expenses_witness :
  paid (value (computeMemberBalance (Some scenarioB) "u2")) = decimal 30 0 /\
  paid_by "u1" (expense "e1" (decimal 100 0) (Some (Populated alice)) [Populated bob]) = true /\
  paid_by "u2" (expense "e2" (decimal 30 0) (Some (BareId "u2")) [BareId "u1"]) = true.
Proof.
  split; [|split].
  - rewrite (proj1 (C2_paid_is_sum_over_split_expenses (Some scenarioB) "u2")).
    reflexivity.
  - eapply (proj1 (proj2 (C2_paid_is_sum_over_split_expenses None "u1")));
      reflexivity.
  - apply (proj2 (proj2 (C2_paid_is_sum_over_split_expenses None "u2"))).
    reflexivity.
Defined.

Lemma sums_of_stranger memberId es :
  Forall (fun e => paid_by memberId e = false /\ split_with memberId e = false) es ->
  paid_nonempty memberId es = zero /\ share_spec memberId es = zero.
Proof.
  unfold paid_nonempty, share_spec.
  induction 1 as [|e es [Hp Hs] _ IH]; [done|].
  cbn [List.filter]. by rewrite Hp, Hs, !andb_false_r.
Qed.

(** C5. A member identifier that is the payer of no expense and occurs in
    no split-among list (an identifier unknown to the group included) gets
    [paid = 0], [share = 0] and [net = 0]; the function is total, so no
    error is raised. *)
Theorem C5_stranger_has_zero_balance (group : option Group.t) (memberId : string) :
  Forall (fun e => paid_by memberId e = false /\ split_with memberId e = false)
         (expenses_of group) ->
  value (computeMemberBalance group memberId) =
  {| paid := zero; share := zero; net := zero |}.
Proof.
  intros H. rewrite computeMemberBalance_value. unfold expenses_of in H.
  destruct (group ≫= Group.expenses) as [es|]; [|done].
  destruct (sums_of_stranger memberId es H) as [-> ->]. done.
Qed.

Lemma C5_stranger_has_zero_balance_witness :
  value (computeMemberBalance (Some scenarioA) "nobody") =
  {| paid := zero; share := zero; net := zero |}.
Proof.
  apply C5_stranger_has_zero_balance.
  repeat constructor.
Defined.

Lemma forEach_callback_divisions memberId acc e :
  Forall (fun d => divisor d <> 0%nat) (divisions (forEach_callback memberId acc e)).
Proof.
  destruct acc as [p s]. unfold forEach_callback.
  destruct (Nat.eqb_spec (length (Expense.splitAmong e)) 0) as [|Hne].
  - constructor.
  - rewrite divisions_bind. apply Forall_app. split.
    + by repeat constructor.
    + constructor.
Qed.

Lemma forEach_divisions memberId es : forall acc,
  Forall (fun d => divisor d <> 0%nat) (divisions (forEach memberId es acc)).
Proof.
  induction es as [|e es IH]; intros acc; [constructor|].
  cbn [forEach]. rewrite divisions_bind. apply Forall_app. split.
  - apply forEach_callback_divisions.
  - apply IH.
Qed.

(** C9. [computeMemberBalance] is total.  When the group snapshot is absent
    or has no expense list it returns [paid = 0], [share = 0], [net = 0]
    and evaluates nothing; for every group and member, every division it
    evaluates has a non-zero divisor. *)
Theorem C9_total_and_no_division_by_zero (group : option Group.t) (memberId : string) :
  (group ≫= Group.expenses = None ->
   computeMemberBalance group memberId =
   ({| paid := zero; share := zero; net := zero |}, [])) /\
  Forall (fun d => divisor d <> 0%nat)
         (divisions (computeMemberBalance group memberId)).
Proof.
  unfold computeMemberBalance. split.
  - by intros ->.
  - destruct (group ≫= Group.expenses) as [es|]; [|constructor].
    rewrite divisions_bind. apply Forall_app. split.
    + apply forEach_divisions.
    + destruct (value _). constructor.
Qed.

Lemma C9_total_and_no_division_by_zero_witness :
  computeMemberBalance None "u1" =
  ({| paid := zero; share := zero; net := zero |}, []) /\
  Forall (fun d => divisor d <> 0%nat)
         (divisions (computeMemberBalance (Some unsplit) "u1")).
Proof.
  split.
  - apply (C9_total_and_no_division_by_zero None "u1"). reflexivity.
  - apply (C9_total_and_no_division_by_zero (Some unsplit) "u1").
Defined.

(** C3, as stated, fails.  In the group [drift] Alice paid 0.1 + 0.2, which
    is 0.30000000000000004, and her share is 0.3: she paid more than her
    share, and her net is zero, not positive. *)
Lemma C3_counterexample :
  let b := value (computeMemberBalance (Some drift) "u1") in
  paid b = add (decimal 1 1) (decimal 2 1) /\
  share b = decimal 3 1 /\
  gt (paid b) (share b) = true /\
  net b = zero /\
  gt (net b) zero = false.
Proof. vm_compute. done. Qed.

Lemma net_value group memberId :
  let b := value (computeMemberBalance group memberId) in
  net b = round2 (sub (paid b) (share b)).
Proof.
  cbv zeta. rewrite computeMemberBalance_value.
  by destruct (group ≫= Group.expenses).
Qed.

(** C3, amended.  The [net] returned is exactly [round(paid - share, 2)] of
    the [paid] and [share] returned with it, [paid] being the unrounded
    sum.  A member whose [paid] and [share] are the same finite number has
    net zero.  When the difference [paid - share] is finite, net is
    positive exactly when the difference is at least 0.005, negative
    exactly when it is at most -0.005, and zero in between; in every case
    a positive net needs a positive difference and a negative net a
    negative one. *)
Theorem C3_net_is_rounded_difference (group : option Group.t) (memberId : string) :
  let b := value (computeMemberBalance group memberId) in
  let d := sub (paid b) (share b) in
  net b = round2 d /\
  (is_finite (paid b) = true -> strict_eq (paid b) (share b) = true ->
   net b = zero) /\
  (is_finite d = true ->
   (gt (net b) zero = true <-> (5 # 1000 <= Q_of d)%Q) /\
   (lt (net b) zero = true <-> (Q_of d <= - (5 # 1000))%Q) /\
   (is_zero (net b) = true <-> (- (5 # 1000) < Q_of d /\ Q_of d < 5 # 1000)%Q)) /\
  (gt (net b) zero = true -> gt d zero = true) /\
  (lt (net b) zero = true -> lt d zero = true).
Proof.
  intros b d. pose proof (net_value group memberId) as Hnet.
  fold b in Hnet. cbv zeta in Hnet. fold d in Hnet.
  split; [exact Hnet|]. rewrite Hnet. unfold round2. split; [|split; [|split]].
  - intros Hfin Heq. apply NumberFacts.round_zero.
    by apply NumberFacts.sub_strict_eq.
  - apply NumberFacts.round_sign_cases.
  - apply NumberFacts.round_pos.
  - apply NumberFacts.round_neg.
Qed.

Lemma C3_net_is_rounded_difference_witness :
  let settled := value (computeMemberBalance (Some solo) "u1") in
  let owed := value (computeMemberBalance (Some scenarioB) "u1") in
  let owing := value (computeMemberBalance (Some scenarioB) "u2") in
  let drifting := value (computeMemberBalance (Some drift) "u1") in
  net settled = zero /\
  (5 # 1000 <= Q_of (sub (paid owed) (share owed)))%Q /\
  (Q_of (sub (paid owing) (share owing)) <= - (5 # 1000))%Q /\
  is_zero (net drifting) = true /\
  gt (sub (paid owed) (share owed)) zero = true /\
  lt (sub (paid owing) (share owing)) zero = true.
Proof.
  cbv zeta.
  destruct (C3_net_is_rounded_difference (Some solo) "u1") as (_ & Hsettled & _).
  destruct (C3_net_is_rounded_difference (Some scenarioB) "u1")
    as (_ & _ & Howed & Hpos & _).
  destruct (C3_net_is_rounded_difference (Some scenarioB) "u2")
    as (_ & _ & Howing & _ & Hneg).
  destruct (C3_net_is_rounded_difference (Some drift) "u1") as (_ & _ & Hdrift & _).
  split; [|split; [|split; [|split; [|split]]]].
  - apply Hsettled; reflexivity.
  - apply Howed; reflexivity.
  - apply Howing; reflexivity.
  - apply Hdrift; [reflexivity|]. split; reflexivity.
  - apply Hpos. reflexivity.
  - apply Hneg. reflexivity.
Defined.

(** C4, as stated, fails.  For the expense of 0.13 split between two
    members each contribution is 0.07; their sum 0.14 differs from 0.13 by
    0.010000000000000009, which exceeds 2 * 0.005 = 0.01, both when the
    test is evaluated in floating point and on the exact values. *)
Lemma C4_counterexample :
  let shares := map (fun id => share (value (computeMemberBalance (Some thirteen) id)))
                    ["u1"; "u2"] in
  let A := decimal 13 2 in
  shares = [decimal 7 2; decimal 7 2] /\
  gt (abs (sub (sum shares) A)) (mul (of_nat 2) (decimal 5 3)) = true /\
  (inject_Z 2 * (5 # 1000) < Qabs (Q_of (sum shares) - Q_of A))%Q.
Proof. vm_compute. done. Qed.

(** C4, amended.  For an expense with amount [A] and a split-among list of
    size [n > 0], the callback adds [c = round(A / n, 2)] to the running
    share of every listed member.  When [A] and the quotient [A / n] are
    finite (and [n] is an array length, below 2^53), [c] is finite and [n]
    times [c] differs from [A], in exact arithmetic, by at most
    [n * (0.005 + half_ulp c + half_ulp (A / n))]: the drift is [n * 0.005]
    up to half a unit in the last place of the contribution and of the
    quotient, per member. *)
Theorem C4_contribution_and_drift
    (e : Expense.t) (memberId : string) (p s : number) :
  let n := length (Expense.splitAmong e) in
  let A := Expense.amount e in
  let q := div A (of_nat n) in
  let c := round2 q in
  (0 < n)%nat ->
  split_with memberId e = true ->
  snd (value (forEach_callback memberId (p, s) e)) = add s c /\
  (is_finite A = true -> Z.of_nat n < 2 ^ 53 -> is_finite q = true ->
   is_finite c = true /\
   (Qabs (inject_Z (Z.of_nat n) * Q_of c - Q_of A)
    <= inject_Z (Z.of_nat n) * ((5 # 1000) + half_ulp c + half_ulp q))%Q).
Proof.
  intros n A q c Hn Hin. split.
  - rewrite forEach_callback_value, (split_with_nonempty _ _ Hin), Hin. done.
  - intros HA Hlen Hq. by apply NumberFacts.drift_bound.
Qed.

Lemma C4_contribution_and_drift_witness :
  let e := expense "e1" (decimal 13 2) (Some (Populated alice))
             [Populated alice; Populated bob] in
  let q := div (decimal 13 2) (of_nat 2) in
  let c := round2 q in
  snd (value (forEach_callback "u2" (zero, zero) e)) = add zero c /\
  (Qabs (inject_Z 2 * Q_of c - Q_of (decimal 13 2))
   <= inject_Z 2 * ((5 # 1000) + half_ulp c + half_ulp q))%Q.
Proof.
  cbv zeta.
  destruct (C4_contribution_and_drift
              (expense "e1" (decimal 13 2) (Some (Populated alice))
                 [Populated alice; Populated bob]) "u2" zero zero)
    as [H1 H2]; [simpl; lia|reflexivity|].
  split; [exact H1|]. apply H2; [reflexivity|reflexivity|reflexivity].
Defined.

End BalanceSpec.

(** ** Credential store *)

Module AuthSpec.

Import Auth.

Lemma truthy_nonempty t : t <> EmptyString -> truthy (Some t) = true.
Proof.
  intros Ht. unfold truthy. by destruct (String.eqb_spec t EmptyString).
Qed.

(** C8. After [setAuthData(user, token)] with both arguments present, both
    stores hold the serialised user record and the token, and
    [getAuthToken] returns that token; [getAuthToken] returns the
    session-scoped token whenever that entry is present (and not the empty
    string) and the durable entry otherwise; after [clearAuthData] both
    stores hold neither value and [getAuthToken] returns no token. *)
Theorem C8_credential_round_trip {UserRecord : Type}
    (JSON_stringify : UserRecord -> string) :
  (forall (u : UserRecord) (t : string) (w : Stores),
     t <> EmptyString ->
     let w' := setAuthData JSON_stringify (Some u) (Some t) w in
     sessionStorage w' !! "user" = Some (JSON_stringify u) /\
     sessionStorage w' !! "token" = Some t /\
     localStorage w' !! "user" = Some (JSON_stringify u) /\
     localStorage w' !! "token" = Some t /\
     getAuthToken w' = Some t) /\
  (forall (w : Stores) (t : string),
     sessionStorage w !! "token" = Some t -> t <> EmptyString ->
     getAuthToken w = Some t) /\
  (forall w : Stores,
     truthy (sessionStorage w !! "token") = false ->
     getAuthToken w = localStorage w !! "token") /\
  (forall w : Stores,
     let w' := clearAuthData w in
     sessionStorage w' !! "user" = None /\
     sessionStorage w' !! "token" = None /\
     localStorage w' !! "user" = None /\
     localStorage w' !! "token" = None /\
     getAuthToken w' = None).
Proof.
  split; [|split; [|split]].
  - intros u t w Ht. unfold setAuthData. rewrite (truthy_nonempty t Ht).
    cbv zeta. unfold getAuthToken, getItem, setItem, or_else.
    cbn [sessionStorage localStorage].
    repeat first [rewrite lookup_insert_eq | rewrite lookup_insert_ne by done].
    by rewrite (truthy_nonempty t Ht).
  - intros w t Hs Ht. unfold getAuthToken, getItem, or_else.
    by rewrite Hs, (truthy_nonempty t Ht).
  - intros w Hs. unfold getAuthToken, getItem, or_else. by rewrite Hs.
  - intros w. cbv zeta.
    unfold clearAuthData, getAuthToken, getItem, removeItem, or_else.
    cbn [sessionStorage localStorage].
    by repeat first [rewrite lookup_delete_eq | rewrite lookup_delete_ne by done].
Qed.

Lemma C8_credential_round_trip_witness :
  let w := setAuthData sample_stringify (Some BalanceEngine.alice) (Some "tok-1")
             empty_stores in
  getAuthToken w = Some "tok-1" /\
  getAuthToken {| sessionStorage := {["token" := "s"]};
                  localStorage := {["token" := "d"]} |} = Some "s" /\
  getAuthToken {| sessionStorage := ∅; localStorage := {["token" := "d"]} |} = Some "d".
Proof.
  destruct (C8_credential_round_trip sample_stringify) as (H1 & H2 & H3 & _).
  split; [|split].
  - apply H1. discriminate.
  - apply H2; [reflexivity|discriminate].
  - rewrite H3; reflexivity.
Defined.

(** C10. [setAuthData] called with an absent user or an absent (or empty)
    token writes nothing: both stores are left exactly as they were. *)
Theorem C10_partial_credential_not_stored {UserRecord : Type}
    (JSON_stringify : UserRecord -> string)
    (user : option UserRecord) (token : option string) (w : Stores) :
  user = None \/ truthy token = false ->
  setAuthData JSON_stringify user token w = w.
Proof.
  unfold setAuthData. intros [->|Ht]; [done|].
  destruct user as [u|]; [|done]. destruct token as [t|]; [|done].
  by rewrite Ht.
Qed.

Lemma C10_partial_credential_not_stored_witness :
  setAuthData sample_stringify (Some BalanceEngine.alice) (Some EmptyString) empty_stores
  = empty_stores /\
  setAuthData sample_stringify None (Some "tok-1") empty_stores = empty_stores.
Proof.
  split.
  - apply C10_partial_credential_not_stored. right. reflexivity.
  - apply C10_partial_credential_not_stored. left. reflexivity.
Defined.

End AuthSpec.

(** ** Realtime sync client *)

Module GroupDetailsSpec.

Import Auth GroupDetails.

Lemma has_expense_ids expense g :
  has_expense expense g = false ->
  Expense._id expense ∉ expense_ids (Some g).
Proof.
  unfold has_expense, expense_ids, BalanceEngine.expenses_of. cbn [mbind option_bind].
  destruct (Group.expenses g) as [es|]; cbn [default]; [|intros _; apply not_elem_of_nil].
  induction es as [|e es IH]; cbn [existsb map]; [intros _; apply not_elem_of_nil|].
  intros [He Hes]%orb_false_elim. apply not_elem_of_cons. split; [|by apply IH].
  intros Heq. by rewrite <- Heq, String.eqb_refl in He.
Qed.

(** The merge keeps the expense identifiers distinct. *)
Lemma mergeExpense_NoDup expense prev :
  NoDup (expense_ids prev) -> NoDup (expense_ids (mergeExpense expense prev)).
Proof.
  destruct prev as [g|]; [|done]. cbn [mergeExpense].
  destruct (has_expense expense g) eqn:Hhas; [done|].
  intros Hnd. pose proof (has_expense_ids expense g Hhas) as Hnotin.
  unfold expense_ids, BalanceEngine.expenses_of in *. cbn [mbind option_bind] in *.
  cbn [with_expenses Group.expenses default] in *.
  unfold id. rewrite map_app. apply NoDup_app. split; [done|]. split.
  - intros x Hx [->|[]%elem_of_nil]%elem_of_cons. by apply Hnotin.
  - apply NoDup_singleton.
Qed.

(** C6, as stated, fails for the local state that holds no group yet: no
    expense with the event's identifier is present, and the handler does
    not append the new expense. *)
Lemma C6_counterexample :
  let w := initial empty_stores None in
  let w' := fst (handleExpense "https://api.example.org" "g1" lunch w) in
  (Expense._id lunch ∉ expense_ids (group w)) /\
  group w' = None /\
  BalanceEngine.expenses_of (group w') <> BalanceEngine.expenses_of (group w) ++ [lunch].
Proof.
  cbv zeta. split; [apply not_elem_of_nil|]. split; [done|]. discriminate.
Qed.

(** C6, amended.  For every local state that holds a group and every
    incoming [expenseAdded] event, the handler leaves the group unchanged
    when an expense with the same identifier is already present and
    otherwise appends the new expense to the expense list; a state that
    holds no group stays that way.  In every case the expense identifiers
    stay distinct if they were, and the handler ends by running
    [fetchGroupData] on the merged state, which requests the group when a
    token is stored and redirects to the login route otherwise. *)
Theorem C6_merge_dedupes_then_refetches
    (API_URL groupId : string) (expense : Expense.t) (w : World) :
  let r := handleExpense API_URL groupId expense w in
  let toast := ToastSuccess (NewExpenseText (Expense.description expense)
                                            (Expense.amount expense)) in
  match group w with
  | None => group (fst r) = None
  | Some g =>
      (has_expense expense g = true -> group (fst r) = Some g) /\
      (has_expense expense g = false ->
       group (fst r) = Some (with_expenses g (BalanceEngine.expenses_of (Some g) ++ [expense])) /\
       BalanceEngine.expenses_of (group (fst r)) =
       BalanceEngine.expenses_of (Some g) ++ [expense])
  end /\
  (NoDup (expense_ids (group w)) -> NoDup (expense_ids (group (fst r)))) /\
  r = fetchGroupData_request API_URL groupId
        (setGroup (mergeExpense expense) (perform toast w)) /\
  (truthy (getAuthToken (stores w)) = true ->
   snd r = true /\
   actions (fst r) = actions w ++
     [toast; HttpGet (API_URL +:+ "/api/groups/" +:+ groupId)
                     ("Bearer " +:+ default EmptyString (getAuthToken (stores w)))]) /\
  (truthy (getAuthToken (stores w)) = false ->
   snd r = false /\ actions (fst r) = actions w ++ [toast; Navigate "/login"]).
Proof.
  cbv zeta. unfold handleExpense, fetchGroupData_request.
  cbn [setGroup perform stores group actions].
  destruct (truthy (getAuthToken (stores w))) eqn:Htok;
    cbn [negb fst snd setLoading perform setGroup stores group actions].
  all: split; [|split; [apply mergeExpense_NoDup|]].
  all: try (destruct (group w) as [g|]; [|done]; cbn [mergeExpense]; split;
            [by intros ->|by intros ->]).
  all: split; [done|]; rewrite <- app_assoc; split; done.
Qed.

Lemma C6_merge_dedupes_then_refetches_witness :
  let g := BalanceEngine.group_of [lunch] in
  let st := {| sessionStorage := {["token" := "tok-1"]}; localStorage := ∅ |} in
  snd (handleExpense "https://api.example.org" "g1" lunch (initial st (Some g))) = true /\
  group (fst (handleExpense "https://api.example.org" "g1" lunch (initial st (Some g))))
    = Some g /\
  NoDup (expense_ids
    (group (fst (handleExpense "https://api.example.org" "g1" lunch
                   (initial st (Some BalanceEngine.scenarioA)))))).
Proof.
  cbv zeta.
  pose proof (C6_merge_dedupes_then_refetches "https://api.example.org" "g1" lunch
    (initial {| sessionStorage := {["token" := "tok-1"]}; localStorage := ∅ |}
       (Some (BalanceEngine.group_of [lunch])))) as (Hm & _ & _ & Ht & _).
  pose proof (C6_merge_dedupes_then_refetches "https://api.example.org" "g1" lunch
    (initial {| sessionStorage := {["token" := "tok-1"]}; localStorage := ∅ |}
       (Some BalanceEngine.scenarioA))) as (_ & Hnd & _).
  split; [|split].
  - apply Ht. reflexivity.
  - apply Hm. reflexivity.
  - apply Hnd. apply NoDup_singleton.
Defined.

Import Session GroupEvents GroupPage.




(** With a token stored, the view requests the group, connects the socket
    if it is not connected, and announces the join. *)
Example enter_with_token :
  actions (after alice_mounted)
  = [HttpGet "https://api.example.org/api/groups/g1" "Bearer tok-1";
     SocketConnect; SocketEmit "joinGroup" "g1";
     SocketOn "newMessage"; SocketOn "expenseAdded"; SocketOn "memberAdded";
     SocketOn "memberRemoved"; SocketOn "inviteCancelled"].
Proof. reflexivity. Qed.

(** The render after the logout releases what the mount subscribed to. *)
Example rerun_releases_subscriptions :
  cleanup alice_mounted = Some (released_first alice_rendered_again) /\
  released_first alice_rendered_again
  = [SocketOff "newMessage"; SocketOff "expenseAdded"; SocketOff "memberAdded";
     SocketOff "memberRemoved"; SocketOff "inviteCancelled"] /\
  cleanup alice_rendered_again = None.
Proof. repeat split; reflexivity. Qed.

End GroupDetailsSpec.

(** ** Balance display and further laws of the balance engine *)

Module BalanceViewSpec.

Import NumberFacts BalanceEngine BalanceView.

(** *** Printing and reading cents *)

(** Reading a decimal of fewer than 2^51 cents gives a number whose last
    place is below a hundredth, within half a cent-hundredth of it. *)
Lemma nearest_cents_exact neg k :
  Z.pos k < 2 ^ 51 ->
  exists m q, nearest neg k 100 = S754_finite neg m (Z.neg q) /\
              7 <= Z.pos q /\
              Z.abs (100 * Z.pos m - Z.pos k * 2 ^ Z.pos q) <= 50.
Proof.
  intros Hk. unfold nearest.
  destruct (SFdiv_core_binary_located (Z.pos k) 0 100 0 ltac:(lia) ltac:(lia)) as
    (q0 & e' & l & E & He' & Hfe & Hq & Hqr & Hloc).
  rewrite E.
  pose proof (SFdiv_core_exponent k 100 0 0 q0 e' Hfe He' Hq ltac:(lia)) as Hexp.
  destruct (binary_round_aux_correct neg q0 e' l (Z.pos k * 2 ^ (0 - 0 - e')) 100
              ltac:(lia) Hloc) as (mr & Hmr & Herr & Hres).
  cbv zeta in Herr, Hres.
  set (e1 := Z.max e' (fexp prec emax (Zdigits2 q0 + e'))) in *.
  assert (Hdk : Zdigits2 (Z.pos k) <= 51) by (apply Zdigits2_le; lia).
  assert (Hd100 : Zdigits2 100 = 7) by reflexivity.
  rewrite Hd100, fexp_eq in Hexp. unfold emin in Hexp.
  assert (He1 : e' <= e1 <= -8) by (unfold e1; lia).
  clearbody e1.
  replace (0 - 0 - e') with (- e') in * by lia.
  set (a := - e') in *. set (b := e1 - e') in *.
  assert (Hab : 0 <= b /\ b + 8 <= a) by (unfold a, b; lia).
  assert (Ea : 2 ^ a = 2 ^ b * 2 ^ (a - b)).
  { rewrite <- Z.pow_add_r by lia. f_equal. lia. }
  pose proof (pow2_pos b ltac:(lia)) as Hpb.
  assert (Hp8 : 2 ^ 8 <= 2 ^ (a - b)) by (apply Z.pow_le_mono_r; lia).
  change (2 ^ 8) with 256 in Hp8.
  destruct (binary_round_aux prec emax neg q0 e' l) as [s'|s'| |s' m e].
  - destruct Hres as [_ ->]. exfalso. rewrite Ea in Herr. nia.
  - destruct Hres as [_ Hov]. unfold emax, prec in Hov. lia.
  - done.
  - destruct Hres as (-> & He & Hm & _).
    destruct e as [|p|p]; try lia.
    exists m, p. split; [done|]. split; [lia|].
    subst mr.
    set (c := Z.neg p - e1) in *.
    assert (Hc : 0 <= c <= 1) by (unfold c; lia).
    assert (Eq : Z.pos p = a - b - c) by (unfold a, b, c; lia).
    assert (Eab : 2 ^ (a - b) = 2 ^ Z.pos p * 2 ^ c).
    { rewrite <- Z.pow_add_r by lia. f_equal. lia. }
    pose proof (pow2_pos c ltac:(lia)) as Hpc.
    pose proof (pow2_pos (Z.pos p) ltac:(lia)) as Hpp.
    rewrite Ea, Eab in Herr.
    assert (HC : 2 ^ c = 1 \/ 2 ^ c = 2).
    { destruct (Z.eq_dec c 0) as [->|]; [by left|right].
      replace c with 1 by lia. done. }
    set (P := 2 ^ Z.pos p) in *. set (B := 2 ^ b) in *. set (C := 2 ^ c) in *.
    clearbody P B C.
    assert (Herr' : 2 * Z.abs (Z.pos m * C * 100 - Z.pos k * (P * C)) * B <= 100 * B).
    { rewrite <- Z.mul_assoc, <- (Z.abs_eq B) at 1 by lia.
      rewrite <- Z.abs_mul. 
      replace ((Z.pos m * C * 100 - Z.pos k * (P * C)) * B)
        with (Z.pos m * C * (B * 100) - Z.pos k * (B * (P * C))) by ring.
      lia. }
    assert (Herr2 : 2 * Z.abs (Z.pos m * C * 100 - Z.pos k * (P * C)) <= 100) by nia.
    replace (Z.pos m * C * 100 - Z.pos k * (P * C))
      with ((100 * Z.pos m - Z.pos k * P) * C) in Herr2 by ring.
    rewrite Z.abs_mul, (Z.abs_eq C) in Herr2 by lia.
    nia.
Qed.

Lemma cents_round_trip neg k :
  Z.pos k < 2 ^ 51 ->
  toFixed (parseFloat (FixedLit neg (Z.pos k) 2)) 2 = FixedLit neg (Z.pos k) 2.
Proof.
  intros Hk. cbn [parseFloat]. change (Z.to_pos (10 ^ Z.of_nat 2)) with 100%positive.
  destruct (nearest_cents_exact neg k Hk) as (m & q & -> & Hq & Herr).
  assert (Hp : 2 ^ 7 <= 2 ^ Z.pos q) by (apply Z.pow_le_mono_r; lia).
  change (2 ^ 7) with 128 in Hp.
  cbn [toFixed]. unfold at_least_1e21, scaled_round.
  change (10 ^ Z.of_nat 2) with 100. change (10 ^ 21) with 1000000000000000000000.
  change (2 ^ 51) with 2251799813685248 in Hk.
  assert (HD : 2 ^ (Z.pos q + 1) = 2 * 2 ^ Z.pos q) by (rewrite Z.pow_add_r; lia).
  rewrite HD. set (P := 2 ^ Z.pos q) in *. clearbody P.
  assert (HkP : Z.pos k * P < 2251799813685248 * P) by nia.
  destruct (Z.leb_spec (1000000000000000000000 * P) (Z.pos m)); [lia|].
  f_equal.
  assert (Hlo : Z.pos k <= (2 * Z.pos m * 100 + P) / (2 * P))
    by (apply Z.div_le_lower_bound; lia).
  assert (Hhi : (2 * Z.pos m * 100 + P) / (2 * P) < Z.pos k + 1)
    by (apply Z.div_lt_upper_bound; lia).
  lia.
Qed.


Lemma strict_eq_finite_refl s m e :
  strict_eq (S754_finite s m e) (S754_finite s m e) = true.
Proof.
  unfold strict_eq, SFeqb, SFcompare. rewrite Z.compare_refl.
  assert (H : PosDef.Pos.compare_cont Eq m m = Eq) by apply Pos.compare_cont_refl.
  rewrite H. by destruct s.
Qed.

(** Below 10^13 the integer that [toFixed] prints stays below 2^51. *)
Lemma scaled_round_small m e :
  (magnitude m e <= 10000000000000 # 1)%Q ->
  at_least_1e21 m e = false /\ 0 <= scaled_round m e 2 < 2 ^ 51.
Proof.
  unfold magnitude, at_least_1e21, scaled_round.
  change (10 ^ Z.of_nat 2) with 100. change (10 ^ 21) with 1000000000000000000000.
  change (2 ^ 51) with 2251799813685248.
  destruct e as [|p|p]; unfold Qle, inject_Z; cbn -[Z.mul Z.pow Pos.pow]; intros H.
  - change (2 ^ 0) with 1 in *. split; [apply Z.leb_gt|]; lia.
  - pose proof (pow2_pos (Z.pos p) ltac:(lia)). split; [apply Z.leb_gt|]; lia.
  - rewrite Pos2Z.inj_pow in H.
    pose proof (pow2_pos (Z.pos p) ltac:(lia)) as Hp.
    assert (HD : 2 ^ (Z.pos p + 1) = 2 * 2 ^ Z.pos p) by (rewrite Z.pow_add_r; lia).
    rewrite HD. set (P := 2 ^ Z.pos p) in *. clearbody P.
    split; [apply Z.leb_gt; lia|]. split.
    + apply Z.div_pos; lia.
    + apply Z.div_lt_upper_bound; lia.
Qed.

Lemma Qabs_Q_of_finite s m e : (Qabs (Q_of (S754_finite s m e)) == magnitude m e)%Q.
Proof.
  cbn [Q_of]. pose proof (magnitude_pos m e) as H.
  destruct s; [rewrite Qabs_opp|]; apply Qabs_pos; by apply Qlt_le_weak.
Qed.

(** What [round(x, 2)] is for a finite [x] of magnitude at most 10^13:
    the zero of the sign of [x], or the number read from a decimal that
    [toFixed] prints back unchanged. *)
Lemma round2_cases x :
  is_finite x = true -> (Qabs (Q_of x) <= 10000000000000 # 1)%Q ->
  (exists s, round2 x = S754_zero s) \/
  (exists s k, toFixed x 2 = FixedLit s (Z.pos k) 2 /\
               toFixed (round2 x) 2 = FixedLit s (Z.pos k) 2 /\
               exists m e, round2 x = S754_finite s m e).
Proof.
  destruct x as [s|s| |s m e]; try discriminate; intros _ Hmag.
  - left. by exists false.
  - rewrite Qabs_Q_of_finite in Hmag.
    destruct (scaled_round_small m e Hmag) as [Hbig Hk].
    unfold round2. cbn [toFixed]. rewrite Hbig.
    destruct (scaled_round m e 2) as [|k|k] eqn:Ek; [| |lia].
    + left. by exists s.
    + right. exists s, k. split; [done|]. split; [apply cents_round_trip; lia|].
      cbn [parseFloat]. change (Z.to_pos (10 ^ Z.of_nat 2)) with 100%positive.
      apply nearest_cents_nonzero. lia.
Qed.

(** X1. For every sign and every number of cents from 1 to below
    2^51, reading with [parseFloat] the decimal that [toFixed(2)] prints
    and printing the number read with [toFixed(2)] again gives the same
    decimal: amounts of up to about 22 trillion are displayed with exactly
    the two decimals they were rounded to. *)
Theorem printed_cents_read_back (neg : bool) (n : Z) :
  0 < n < 2 ^ 51 ->
  toFixed (parseFloat (FixedLit neg n 2)) 2 = FixedLit neg n 2.
Proof.
  intros Hn. destruct n as [|k|k]; try lia. apply cents_round_trip. lia.
Qed.

Lemma printed_cents_read_back_witness :
  toFixed (parseFloat (FixedLit true 3333 2)) 2 = FixedLit true 3333 2.
Proof. apply printed_cents_read_back. lia. Defined.

(** X2. For a finite number [x] of magnitude at most 10^13,
    rounding to two decimals a second time changes nothing:
    [round(round(x, 2), 2) === round(x, 2)], and unless the rounded number
    is a zero, [round(x, 2).toFixed(2)] is the string [x.toFixed(2)] and
    the second rounding returns the very same number. *)
Theorem round2_idempotent (x : number) :
  is_finite x = true -> (Qabs (Q_of x) <= 10000000000000 # 1)%Q ->
  strict_eq (round2 (round2 x)) (round2 x) = true /\
  (is_zero (round2 x) = false ->
   toFixed (round2 x) 2 = toFixed x 2 /\ round2 (round2 x) = round2 x).
Proof.
  intros Hx Hmag.
  destruct (round2_cases x Hx Hmag) as [[s E]|(s & k & E1 & E2 & m & e & E3)].
  - rewrite E. split; [by destruct s|]. discriminate.
  - assert (E4 : round2 (round2 x) = round2 x).
    { unfold round2 at 1. rewrite E2, <- E1. done. }
    rewrite E4. split; [|intros _; split; [congruence|done]].
    rewrite E3. apply strict_eq_finite_refl.
Qed.

Lemma round2_idempotent_witness :
  let x := div (decimal 100 0) (of_nat 3) in
  strict_eq (round2 (round2 x)) (round2 x) = true /\
  toFixed (round2 x) 2 = toFixed x 2 /\ round2 (round2 x) = round2 x.
Proof.
  cbv zeta.
  destruct (round2_idempotent (div (decimal 100 0) (of_nat 3))) as [H1 H2];
    [reflexivity|vm_compute; discriminate|].
  split; [exact H1|]. apply H2. reflexivity.
Defined.

(** X3. For every [net], the badge of a member row is consistent:
    it reads Settled only for a zero and is then gray; it carries a plus
    sign only for a positive [net] and is then green; it carries a minus
    sign for a negative [net], in red, and also for a [net] that is NaN, in
    gray and followed by the text NaN.  The amount after the sign never
    carries a minus sign of its own. *)
Theorem badge_colour_agrees_with_text (net : number) :
  match badgeText net with
  | Settled => is_zero net = true /\ badgeColour net = Gray
  | Plus a => gt net zero = true /\ badgeColour net = Green /\ signed a = false
  | Minus a =>
      signed a = false /\
      (lt net zero = true /\ badgeColour net = Red \/
       net = S754_nan /\ a = NaNLit /\ badgeColour net = Gray)
  end.
Proof.
  destruct net as [[]|[]| |[] m e]; cbn; try (destruct (at_least_1e21 m e)); cbn;
    intuition.
Qed.

Lemma toFixed_abs s m e n :
  toFixed (S754_finite s m e) 2 = FixedLit s n 2 ->
  toFixed (abs (S754_finite s m e)) 2 = FixedLit false n 2.
Proof.
  cbn [abs SFabs toFixed]. destruct (at_least_1e21 m e); [discriminate|].
  intros [= ->]. done.
Qed.

(** X4. When the difference [paid - share] of a member is finite
    and of magnitude at most 10^13, the badge of the member's row shows
    that difference printed with two decimals: a plus sign and
    [(paid - share).toFixed(2)] in green from half a cent on, a minus sign
    and [|paid - share|.toFixed(2)] in red from minus half a cent down,
    and Settled in gray in between.  Rounding [net] and printing it again
    loses nothing. *)
Theorem badge_shows_rounded_difference (group : option Group.t) (member : User.t) :
  let b := value (computeMemberBalance group (User._id member)) in
  let d := sub (paid b) (share b) in
  is_finite d = true -> (Qabs (Q_of d) <= 10000000000000 # 1)%Q ->
  badge (memberRow group member) =
    (if Qle_bool (5 # 1000) (Q_of d) then Plus (toFixed d 2)
     else if Qle_bool (Q_of d) (- (5 # 1000)) then Minus (toFixed (abs d) 2)
     else Settled) /\
  colour (memberRow group member) =
    (if Qle_bool (5 # 1000) (Q_of d) then Green
     else if Qle_bool (Q_of d) (- (5 # 1000)) then Red
     else Gray).
Proof.
  intros b d Hd Hmag. unfold memberRow. cbn [badge colour]. fold b.
  pose proof (BalanceSpec.net_value group (User._id member)) as Hnet.
  cbv zeta in Hnet. fold b in Hnet. fold d in Hnet. rewrite Hnet.
  clearbody d. clear Hnet b.
  pose proof (round_sign_cases d Hd) as (Hgt & Hlt & Hz). cbv zeta in Hgt, Hlt, Hz.
  fold (round2 d) in Hgt, Hlt, Hz.
  destruct (round2_cases d Hd Hmag) as [[s E]|(s & k & E1 & E2 & m & e & E3)].
  - assert (Hz' : is_zero (round2 d) = true) by (by rewrite E).
    apply Hz in Hz' as [Hz1 Hz2].
    destruct (Qle_bool (5 # 1000) (Q_of d)) eqn:Q1.
    { apply Qle_bool_iff in Q1. lra. }
    destruct (Qle_bool (Q_of d) (- (5 # 1000))) eqn:Q2.
    { apply Qle_bool_iff in Q2. lra. }
    rewrite E. by destruct s.
  - destruct d as [sd|sd| |sd md ed]; try discriminate.
    assert (Es : s = sd).
    { cbn [toFixed] in E1. destruct (at_least_1e21 md ed); congruence. }
    subst s.
    unfold badgeText, badgeColour. rewrite E3 in *.
    destruct sd.
    + assert (Hl : lt (S754_finite true m e) zero = true) by done.
      apply Hlt in Hl.
      destruct (Qle_bool (5 # 1000) (Q_of (S754_finite true md ed))) eqn:Q1.
      { apply Qle_bool_iff in Q1. lra. }
      assert (Q2 : Qle_bool (Q_of (S754_finite true md ed)) (- (5 # 1000)) = true)
        by (by apply Qle_bool_iff).
      rewrite Q2. cbn [strict_eq SFeqb SFcompare gt lt SFltb zero].
      split; [|done]. f_equal.
      rewrite (toFixed_abs _ _ _ _ E1). by apply toFixed_abs.
    + assert (Hg : gt (S754_finite false m e) zero = true) by done.
      apply Hgt in Hg.
      assert (Q1 : Qle_bool (5 # 1000) (Q_of (S754_finite false md ed)) = true)
        by (by apply Qle_bool_iff).
      rewrite Q1. cbn [strict_eq SFeqb SFcompare gt lt SFltb zero].
      split; [|done]. f_equal. congruence.
Qed.

(** X5. Whenever the difference [paid - share] of a member is
    finite, the [net] that [computeMemberBalance] returns is finite and
    differs from that difference by at most half a cent plus half a unit
    in the last place of [net]. *)
Theorem net_is_within_half_a_cent (group : option Group.t) (memberId : string) :
  let b := value (computeMemberBalance group memberId) in
  let d := sub (paid b) (share b) in
  is_finite d = true ->
  is_finite (net b) = true /\
  (Qabs (Q_of (net b) - Q_of d) <= (5 # 1000) + half_ulp (net b))%Q.
Proof.
  intros b d Hd.
  pose proof (BalanceSpec.net_value group memberId) as Hnet.
  cbv zeta in Hnet. fold b in Hnet. fold d in Hnet. rewrite Hnet. unfold round2.
  clearbody d. clear Hnet b.
  destruct (round_close d Hd) as [Hfin Hclose]. split; [done|].
  pose proof (toFixed_close d Hd) as Hprint.
  set (r := parseFloat (toFixed d 2)) in *. set (K := numeral_value (toFixed d 2)) in *.
  assert (E : (Q_of r - Q_of d == (Q_of r - K) + (K - Q_of d))%Q) by ring.
  rewrite E. eapply Qle_trans; [apply Qabs_triangle|].
  rewrite (Qplus_comm (5 # 1000)). by apply Qplus_le_compat.
Qed.

Lemma net_is_within_half_a_cent_witness :
  let b := value (computeMemberBalance (Some scenarioA) "u1") in
  is_finite (net b) = true /\
  (Qabs (Q_of (net b) - Q_of (sub (paid b) (share b))) <= (5 # 1000) + half_ulp (net b))%Q.
Proof.
  cbv zeta. apply (net_is_within_half_a_cent (Some scenarioA) "u1"). reflexivity.
Defined.

(** *** Amounts that are not negative *)

Lemma ge_zero_inv x :
  ge x zero = true ->
  (exists s, x = S754_zero s) \/ x = S754_infinity false \/
  exists m e, x = S754_finite false m e.
Proof.
  destruct x as [s|[]| |[] m e]; try discriminate; intros _; eauto.
Qed.

(** Rounding an integer mantissa keeps the sign and never loses a
    non-zero value. *)
Lemma binary_round_sign s m e :
  binary_round prec emax s m e = S754_zero s /\ e < emin \/
  binary_round prec emax s m e = S754_infinity s \/
  exists m' e', binary_round prec emax s m e = S754_finite s m' e'.
Proof.
  unfold binary_round.
  pose proof (shl_align_value m e (fexp prec emax (Z.pos (digits2_pos m) + e))) as Hsh.
  destruct (shl_align m e (fexp prec emax (Z.pos (digits2_pos m) + e))) as [mz ez].
  destruct Hsh as [Hez Hmz].
  assert (Hloc : located (shr_record_of_loc (Z.pos mz) loc_Exact) (Z.pos mz) 1).
  { apply located_of_loc. lia. }
  destruct (binary_round_aux_correct s (Z.pos mz) ez loc_Exact (Z.pos mz) 1
              ltac:(lia) Hloc) as (mr & Hmr & Herr & Hres).
  cbv zeta in Herr, Hres.
  destruct (binary_round_aux prec emax s (Z.pos mz) ez loc_Exact) as [s'|s'| |s' m' e'].
  - left. destruct Hres as [-> ->]. split; [done|].
    destruct (Z.lt_ge_cases e emin) as [|Hge]; [done|exfalso].
    pose proof (Zdigits2_bounds (Z.pos mz) ltac:(lia)) as [Hlo _].
    set (dz := Zdigits2 (Z.pos mz)) in *.
    assert (Hdz : 0 < dz) by done.
    rewrite !fexp_eq in *. unfold emin in *.
    set (e1 := Z.max ez (Z.max (dz + ez - 53) (-1074))) in *.
    destruct (Z.eq_dec e1 ez) as [E|Hne].
    + rewrite E, Z.sub_diag in Herr. change (2 ^ 0) with 1 in Herr. lia.
    + assert (E : e1 - ez = dz - 53) by (unfold e1 in *; lia).
      rewrite E in Herr.
      assert (2 ^ (dz - 53) <= 2 ^ (dz - 1)) by (apply Z.pow_le_mono_r; lia).
      pose proof (pow2_pos (dz - 1) ltac:(lia)). lia.
  - right; left. by destruct Hres as [-> _].
  - done.
  - right; right. destruct Hres as [-> _]. eauto.
Qed.

Lemma add_ge_zero a b :
  ge a zero = true -> ge b zero = true -> ge (add a b) zero = true.
Proof.
  intros [[sa ->]|[->|(ma & ea & ->)]]%ge_zero_inv
         [[sb ->]|[->|(mb & eb & ->)]]%ge_zero_inv; try done.
  - by destruct sa, sb.
  - unfold add, SFadd. cbn [cond_Zopp]. 
    destruct (shl_align ma ea (Z.min ea eb)) as [ma' ea'].
    destruct (shl_align mb eb (Z.min ea eb)) as [mb' eb'].
    cbn [fst]. change (Z.pos ma' + Z.pos mb') with (Z.pos (ma' + mb')).
    cbn [binary_normalize].
    by destruct (binary_round_sign false (ma' + mb') (Z.min ea eb))
      as [[-> _]|[->|(m' & e' & ->)]].
Qed.

Lemma of_nat_positive n :
  (0 < n)%nat ->
  of_nat n = S754_infinity false \/ exists m e, of_nat n = S754_finite false m e.
Proof.
  intros Hn. unfold of_nat. destruct (Z.of_nat n) as [|p|p] eqn:E; try lia.
  cbn [binary_normalize].
  destruct (binary_round_sign false p 0) as [[_ H]|H]; [done|exact H].
Qed.

Lemma div_ge_zero a n :
  is_finite a = true -> ge a zero = true -> (0 < n)%nat ->
  ge (div a (of_nat n)) zero = true.
Proof.
  intros Hfin [[sa ->]|[->|(ma & ea & ->)]]%ge_zero_inv Hn; try done;
    destruct (of_nat_positive n Hn) as [->|(mn & en & ->)]; try done.
  pose proof (div_close false false ma mn ea en) as H. cbv zeta in H.
  destruct (div (S754_finite false ma ea) (S754_finite false mn en)) as [s'|s'| |s' m e];
    try done; by destruct H as [-> _].
Qed.

Lemma round2_ge_zero x : ge x zero = true -> ge (round2 x) zero = true.
Proof.
  intros [[s ->]|[->|(m & e & ->)]]%ge_zero_inv; try done.
  pose proof (round_sign false m e) as H. cbv zeta in H. unfold round2.
  destruct (Qle_bool (5 # 1000) (magnitude m e)).
  - by destruct H as (m' & e' & ->).
  - by rewrite H.
Qed.

Lemma foldl_add_ge_zero xs : forall acc,
  ge acc zero = true -> Forall (fun x => ge x zero = true) xs ->
  ge (foldl add acc xs) zero = true.
Proof.
  induction xs as [|x xs IH]; intros acc Hacc Hxs; [done|].
  inversion Hxs; subst. cbn [foldl]. apply IH; [by apply add_ge_zero|done].
Qed.

Lemma totals_ge_zero memberId es :
  Forall payable es ->
  ge (paid_nonempty memberId es) zero = true /\
  ge (share_spec memberId es) zero = true.
Proof.
  intros Hes. unfold paid_nonempty, share_spec, sum. split.
  - apply foldl_add_ge_zero; [done|].
    induction Hes as [|e es [_ He] _ IH]; [constructor|].
    cbn [List.filter]. destruct (_ && _); [|done]. constructor; done.
  - apply foldl_add_ge_zero; [done|].
    induction Hes as [|e es [Hfin He] _ IH]; [constructor|].
    cbn [List.filter]. destruct (nonempty_split e && _) eqn:Hf; [|done].
    constructor; [|done]. apply andb_prop in Hf as [Hne _].
    unfold individual_share. apply round2_ge_zero, div_ge_zero; [done|done|].
    unfold nonempty_split in Hne. destruct (length (Expense.splitAmong e)); [done|lia].
Qed.

Lemma balance_of_expenses group memberId :
  value (computeMemberBalance group memberId) =
  let p := paid_nonempty memberId (expenses_of group) in
  let s := share_spec memberId (expenses_of group) in
  {| paid := p; share := s; net := round2 (sub p s) |}.
Proof.
  rewrite BalanceSpec.computeMemberBalance_value. unfold expenses_of.
  by destruct (group ≫= Group.expenses).
Qed.

(** X6. When every amount is finite and not negative, the [paid]
    and [share] that [computeMemberBalance] returns are numbers that are
    not negative (in particular neither is NaN), for every member
    identifier and whatever the sizes of the split-among lists. *)
Theorem totals_are_not_negative (group : option Group.t) (memberId : string) :
  Forall payable (expenses_of group) ->
  let b := value (computeMemberBalance group memberId) in
  ge (paid b) zero = true /\ ge (share b) zero = true.
Proof.
  intros Hes. cbv zeta. rewrite balance_of_expenses. cbn [paid share].
  by apply totals_ge_zero.
Qed.

Lemma filter_none {A} (f : A -> bool) xs :
  Forall (fun x => f x = false) xs -> List.filter f xs = [].
Proof.
  induction 1 as [|x xs Hx _ IH]; [done|]. cbn [List.filter]. by rewrite Hx.
Qed.

(** X7. When every amount is finite and not negative: a member
    who paid no expense has [paid = 0] and a [net] that is not positive,
    and a member who is in no split-among list has [share = 0] and a
    [net] that is not negative. *)
Theorem one_sided_member_net_sign (group : option Group.t) (memberId : string) :
  Forall payable (expenses_of group) ->
  let b := value (computeMemberBalance group memberId) in
  (Forall (fun e => paid_by memberId e = false) (expenses_of group) ->
   paid b = zero /\ gt (net b) zero = false) /\
  (Forall (fun e => split_with memberId e = false) (expenses_of group) ->
   share b = zero /\ lt (net b) zero = false).
Proof.
  intros Hes. cbv zeta. rewrite balance_of_expenses. cbn [paid share net].
  destruct (totals_ge_zero memberId _ Hes) as [Hp Hs].
  split; intros Hnone.
  - assert (E : paid_nonempty memberId (expenses_of group) = zero).
    { unfold paid_nonempty. rewrite filter_none; [done|].
      eapply Forall_impl; [exact Hnone|]. intros e ->. apply andb_false_r. }
    rewrite E. split; [done|].
    destruct (gt (round2 _) zero) eqn:Hgt; [|done].
    apply round_pos in Hgt.
    apply ge_zero_inv in Hs as [[s Es]|[Es|(m & e & Es)]]; rewrite Es in Hgt;
      try done. by destruct s.
  - assert (E : share_spec memberId (expenses_of group) = zero).
    { unfold share_spec. rewrite filter_none; [done|].
      eapply Forall_impl; [exact Hnone|]. intros e ->. apply andb_false_r. }
    rewrite E. split; [done|].
    destruct (lt (round2 _) zero) eqn:Hlt; [|done].
    apply round_neg in Hlt.
    apply ge_zero_inv in Hp as [[s Es]|[Es|(m & e & Es)]]; rewrite Es in Hlt;
      try done. by destruct s.
Qed.

(** *** What the balance depends on *)

Lemma refers_to_ref_id memberId u :
  refers_to memberId u = String.eqb (ref_id u) memberId.
Proof. by destruct u. Qed.

Lemma same_parties_callback memberId acc e1 e2 :
  same_parties e1 e2 ->
  forEach_callback memberId acc e1 = forEach_callback memberId acc e2.
Proof.
  intros (Ha & Hp & Hs). destruct acc as [p s]. unfold forEach_callback.
  assert (El : length (Expense.splitAmong e1) = length (Expense.splitAmong e2)).
  { by rewrite <- (length_fmap ref_id (Expense.splitAmong e1)), Hs, length_fmap. }
  assert (Ep : paid_by memberId e1 = paid_by memberId e2).
  { unfold paid_by. destruct (Expense.paidBy e1) as [u1|], (Expense.paidBy e2) as [u2|];
      try done. rewrite !refers_to_ref_id. cbn in Hp. congruence. }
  assert (Es : split_with memberId e1 = split_with memberId e2).
  { unfold split_with.
    assert (E : forall l, existsb (refers_to memberId) l =
                          existsb (fun i => String.eqb i memberId) (ref_id <$> l)).
    { induction l as [|u l IH]; [done|]. cbn. by rewrite refers_to_ref_id, IH. }
    by rewrite !E, Hs. }
  by rewrite El, Ep, Es, Ha.
Qed.

Lemma same_parties_forEach memberId es1 es2 :
  Forall2 same_parties es1 es2 ->
  forall acc, forEach memberId es1 acc = forEach memberId es2 acc.
Proof.
  induction 1 as [|e1 e2 es1 es2 He _ IH]; intros acc; [done|].
  cbn [forEach]. rewrite (same_parties_callback _ _ _ _ He).
  unfold bind. destruct (forEach_callback memberId acc e2) as [acc' l1].
  by rewrite IH.
Qed.

Lemma computeMemberBalance_expenses_of group memberId :
  computeMemberBalance group memberId =
  let* acc := forEach memberId (expenses_of group) (zero, zero) in
  let '(paid, share) := acc in
  let net := parseFloat (toFixed (sub paid share) 2) in
  ret {| paid := paid; share := share; net := net |}.
Proof.
  unfold computeMemberBalance, expenses_of.
  by destruct (group ≫= Group.expenses).
Qed.

(** X8. [computeMemberBalance] depends only on the amounts and on
    the identifiers of the payers and of the split-among lists: two
    expense lists that agree on these, expense by expense, give the same
    balance and the same divisions for every member, whether the
    references are populated records or bare identifiers, and whatever
    the descriptions, the dates, the member list and the group name.  A
    group without an expense list behaves like one with an empty list. *)
Theorem balance_ignores_reference_form (g1 g2 : option Group.t) (memberId : string) :
  Forall2 same_parties (expenses_of g1) (expenses_of g2) ->
  computeMemberBalance g1 memberId = computeMemberBalance g2 memberId.
Proof.
  intros H. rewrite !computeMemberBalance_expenses_of.
  by rewrite (same_parties_forEach memberId _ _ H).
Qed.

Lemma forEach_all_divisions memberId es : forall acc,
  divisions (forEach memberId es acc) =
  division_of <$> List.filter nonempty_split es.
Proof.
  induction es as [|e es IH]; intros acc; [done|].
  cbn [forEach List.filter]. rewrite BalanceSpec.divisions_bind, IH.
  destruct acc as [p s]. unfold forEach_callback, nonempty_split.
  destruct (Nat.eqb (length (Expense.splitAmong e)) 0); done.
Qed.

(** X9. One call of [computeMemberBalance] evaluates exactly one
    division for each expense whose split-among list is not empty, in the
    order of the list, dividing the amount by the length of the list; the
    divisions do not depend on the member identifier. *)
Theorem one_division_per_split_expense (group : option Group.t) (memberId : string) :
  divisions (computeMemberBalance group memberId) =
  division_of <$> List.filter nonempty_split (expenses_of group).
Proof.
  rewrite computeMemberBalance_expenses_of, BalanceSpec.divisions_bind.
  rewrite forEach_all_divisions.
  destruct (value (forEach memberId (expenses_of group) (zero, zero))) as [p s].
  cbn. by rewrite app_nil_r.
Qed.

Lemma filter_filter_involved (f : Expense.t -> bool) memberId es :
  (forall e, f e = true -> involved memberId e = true) ->
  List.filter (fun e => nonempty_split e && f e) (List.filter (involved memberId) es) =
  List.filter (fun e => nonempty_split e && f e) es.
Proof.
  intros Hf. induction es as [|e es IH]; [done|]. cbn [List.filter].
  destruct (involved memberId e) eqn:Hi.
  - cbn [List.filter]. by rewrite IH.
  - rewrite IH. destruct (f e) eqn:Hfe; [|by rewrite andb_false_r].
    apply Hf in Hfe. congruence.
Qed.

(** X10. The balance of a member is unchanged when every expense
    the member neither paid nor shares is removed from the group: other
    members' expenses never move a member's [paid], [share] or [net]. *)
Theorem balance_ignores_uninvolved_expenses (g : Group.t) (memberId : string) :
  let mine := List.filter (involved memberId) (expenses_of (Some g)) in
  value (computeMemberBalance (Some (GroupDetails.with_expenses g mine)) memberId) =
  value (computeMemberBalance (Some g) memberId).
Proof.
  cbv zeta. rewrite !balance_of_expenses.
  change (expenses_of (Some (GroupDetails.with_expenses g ?es))) with es.
  unfold paid_nonempty, share_spec.
  rewrite !filter_filter_involved; [done| |].
  - intros e He. unfold involved. by rewrite He, orb_true_r.
  - intros e He. unfold involved. by rewrite He.
Qed.

Lemma has_expense_after_merge expense g es :
  GroupDetails.has_expense expense (GroupDetails.with_expenses g (es ++ [expense])) = true.
Proof.
  unfold GroupDetails.has_expense, GroupDetails.with_expenses. cbn [Group.expenses].
  rewrite existsb_app. cbn [existsb]. rewrite String.eqb_refl. by rewrite orb_true_r.
Qed.

(** X11. After the [expenseAdded] handler merged an expense into
    the local snapshot, the balance of a member is the balance before with
    the amount added to [paid] when the member is the payer and the
    individual share added to [share] when the member is in the
    split-among list (both only when that list is not empty), and [net]
    rounded anew; a duplicate delivery leaves every balance as it was, and
    merging the same expense a second time changes nothing more. *)
Theorem merged_expense_updates_balance
    (g : Group.t) (expense : Expense.t) (memberId : string) :
  let merged := GroupDetails.mergeExpense expense (Some g) in
  let before := value (computeMemberBalance (Some g) memberId) in
  let after := value (computeMemberBalance merged memberId) in
  GroupDetails.mergeExpense expense merged = merged /\
  if GroupDetails.has_expense expense g then after = before
  else
    let p := if nonempty_split expense && paid_by memberId expense
             then add (paid before) (Expense.amount expense) else paid before in
    let s := if nonempty_split expense && split_with memberId expense
             then add (share before) (individual_share expense) else share before in
    after = {| paid := p; share := s; net := round2 (sub p s) |}.
Proof.
  cbv zeta. unfold GroupDetails.mergeExpense at 2 3 4 5.
  destruct (GroupDetails.has_expense expense g) eqn:E.
  { split; [|done]. unfold GroupDetails.mergeExpense. by rewrite E. }
  split.
  { unfold GroupDetails.mergeExpense. by rewrite has_expense_after_merge. }
  rewrite !balance_of_expenses. cbn [paid share].
  change (expenses_of (Some (GroupDetails.with_expenses g ?es))) with es.
  fold (expenses_of (Some g)).
  unfold paid_nonempty, share_spec, sum.
  rewrite !List.filter_app, !map_app, !foldl_app. cbn [List.filter].
  destruct (nonempty_split expense && paid_by memberId expense),
           (nonempty_split expense && split_with memberId expense); done.
Qed.

Lemma badge_shows_rounded_difference_witness :
  badge (memberRow (Some scenarioA) alice) = Plus (FixedLit false 6667 2) /\
  colour (memberRow (Some scenarioA) bob) = Red.
Proof.
  split.
  - apply (badge_shows_rounded_difference (Some scenarioA) alice);
      [reflexivity|vm_compute; discriminate].
  - apply (badge_shows_rounded_difference (Some scenarioA) bob);
      [reflexivity|vm_compute; discriminate].
Defined.

Lemma totals_are_not_negative_witness :
  ge (paid (value (computeMemberBalance (Some scenarioB) "u1"))) zero = true /\
  ge (share (value (computeMemberBalance (Some scenarioB) "u1"))) zero = true.
Proof.
  apply (totals_are_not_negative (Some scenarioB) "u1").
  repeat (constructor; [split; reflexivity|]). constructor.
Defined.

Lemma one_sided_member_net_sign_witness :
  gt (net (value (computeMemberBalance (Some scenarioA) "u2"))) zero = false /\
  lt (net (value (computeMemberBalance (Some treat) "u1"))) zero = false.
Proof.
  split.
  - apply (one_sided_member_net_sign (Some scenarioA) "u2").
    + repeat (constructor; [split; reflexivity|]). constructor.
    + repeat (constructor; [reflexivity|]). constructor.
  - apply (one_sided_member_net_sign (Some treat) "u1").
    + repeat (constructor; [split; reflexivity|]). constructor.
    + repeat (constructor; [reflexivity|]). constructor.
Defined.

Lemma balance_ignores_reference_form_witness :
  computeMemberBalance (Some scenarioA_bare) "u2" =
  computeMemberBalance (Some scenarioA) "u2".
Proof.
  apply balance_ignores_reference_form.
  repeat (constructor; [repeat split; reflexivity|]). constructor.
Defined.

End BalanceViewSpec.

(** ** Reading the session back *)

Module SessionSpec.

Import Auth Session.

Lemma or_else_truthy a b : truthy a = true -> or_else a b = a.
Proof. unfold or_else. by intros ->. Qed.

Lemma stored_credentials {UserRecord : Type} (JSON_stringify : UserRecord -> string)
    (u : UserRecord) (t : string) (w : Stores) :
  t <> EmptyString ->
  let w' := setAuthData JSON_stringify (Some u) (Some t) w in
  forall area, area = sessionStorage \/ area = localStorage ->
  getItem "user" (area w') = Some (JSON_stringify u) /\
  getItem "token" (area w') = Some t.
Proof.
  intros Ht w' area Harea. unfold w', setAuthData, getItem, setItem.
  rewrite (AuthSpec.truthy_nonempty t Ht).
  destruct Harea as [-> | ->]; cbn [sessionStorage localStorage];
    by simplify_map_eq.
Qed.

Lemma token_after_login {UserRecord : Type} (JSON_stringify : UserRecord -> string)
    (u : UserRecord) (t : string) (w : Stores) :
  t <> EmptyString ->
  let w' := setAuthData JSON_stringify (Some u) (Some t) w in
  getAuthToken w' = Some t /\ getAuthToken (reopened w') = Some t.
Proof.
  intros Ht w'.
  destruct (stored_credentials JSON_stringify u t w Ht sessionStorage) as [_ Hst];
    [by left|].
  destruct (stored_credentials JSON_stringify u t w Ht localStorage) as [_ Hlt];
    [by right|].
  fold w' in Hst, Hlt. pose proof (AuthSpec.truthy_nonempty _ Ht) as Htt.
  unfold getAuthToken, reopened. cbn [sessionStorage localStorage].
  rewrite Hst, Hlt. unfold getItem. rewrite lookup_empty.
  rewrite (or_else_truthy _ _ Htt). change (or_else None ?x) with x. done.
Qed.

(** X12. After [setAuthData(user, token)] with a token and a
    serialised user that are not empty, [getAuthUser] parses exactly the
    serialisation just stored, whatever the stores held before; the same
    holds, for [getAuthUser] and for [getAuthToken], in a later browser
    session whose session-scoped store starts empty. *)
Theorem login_then_read_user {UserRecord : Type}
    (JSON_stringify : UserRecord -> string)
    (JSON_parse : string -> Completion (option UserRecord))
    (u : UserRecord) (t : string) (w : Stores) :
  t <> EmptyString -> JSON_stringify u <> EmptyString ->
  let w' := setAuthData JSON_stringify (Some u) (Some t) w in
  getAuthUser JSON_parse w' = JSON_parse (JSON_stringify u) /\
  getAuthUser JSON_parse (reopened w') = JSON_parse (JSON_stringify u) /\
  getAuthToken (reopened w') = Some t.
Proof.
  intros Ht Hu w'.
  destruct (stored_credentials JSON_stringify u t w Ht sessionStorage) as [Hsu Hst];
    [by left|].
  destruct (stored_credentials JSON_stringify u t w Ht localStorage) as [Hlu Hlt];
    [by right|].
  fold w' in Hsu, Hst, Hlu, Hlt.
  pose proof (AuthSpec.truthy_nonempty _ Hu) as Htu.
  pose proof (AuthSpec.truthy_nonempty _ Ht) as Htt.
  unfold getAuthUser, getAuthToken, reopened. cbn [sessionStorage localStorage].
  rewrite Hsu, Hlu, Hlt. unfold getItem. rewrite !lookup_empty.
  rewrite (or_else_truthy _ _ Htu), Htu.
  change (or_else None ?x) with x. by rewrite Htu.
Qed.

Lemma login_then_read_user_witness :
  let w := setAuthData sample_stringify (Some BalanceEngine.alice) (Some "tok-1")
             {| sessionStorage := {["user" := "stale"]}; localStorage := ∅ |} in
  getAuthUser sample_parse w = Normal (Some BalanceEngine.alice) /\
  getAuthUser sample_parse (reopened w) = Normal (Some BalanceEngine.alice) /\
  getAuthToken (reopened w) = Some "tok-1".
Proof.
  apply (login_then_read_user sample_stringify sample_parse BalanceEngine.alice "tok-1");
    discriminate.
Defined.

Lemma stores_eq (w1 w2 : Stores) :
  sessionStorage w1 = sessionStorage w2 -> localStorage w1 = localStorage w2 -> w1 = w2.
Proof. destruct w1, w2. cbn. by intros -> ->. Qed.

Lemma remove_after_set (userStr t : string) (m : gmap string string) :
  removeItem "token" (removeItem "user" (setItem "token" t (setItem "user" userStr m))) =
  removeItem "token" (removeItem "user" m).
Proof.
  unfold removeItem, setItem. apply map_eq. intros k.
  destruct (decide (k = "token")) as [->|]; [by simplify_map_eq|].
  destruct (decide (k = "user")) as [->|]; by simplify_map_eq.
Qed.

(** X13. [clearAuthData] undoes [setAuthData]: clearing after any
    call of [setAuthData] gives the stores that clearing alone gives, and
    clearing twice is clearing once.  After [clearAuthData], [getAuthUser]
    returns [null] without parsing anything, in this and in a later
    browser session. *)
Theorem logout_forgets_login {UserRecord : Type}
    (JSON_stringify : UserRecord -> string)
    (JSON_parse : string -> Completion (option UserRecord))
    (user : option UserRecord) (token : option string) (w : Stores) :
  clearAuthData (setAuthData JSON_stringify user token w) = clearAuthData w /\
  clearAuthData (clearAuthData w) = clearAuthData w /\
  getAuthUser JSON_parse (clearAuthData w) = Normal None /\
  getAuthUser JSON_parse (reopened (clearAuthData w)) = Normal None.
Proof.
  split; [|split; [|split]].
  - unfold setAuthData. destruct user as [u|], token as [t|]; try done.
    destruct (truthy (Some t)); [|done].
    unfold clearAuthData. cbn [sessionStorage localStorage].
    by rewrite !remove_after_set.
  - unfold clearAuthData, removeItem. cbn [sessionStorage localStorage].
    apply stores_eq; cbn [sessionStorage localStorage]; apply map_eq; intros k;
      (destruct (decide (k = "token")) as [->|]; [by simplify_map_eq|]);
      (destruct (decide (k = "user")) as [->|]; by simplify_map_eq).
  - unfold getAuthUser, clearAuthData, getItem, removeItem.
    cbn [sessionStorage localStorage]. by simplify_map_eq.
  - unfold getAuthUser, reopened, clearAuthData, getItem, removeItem.
    cbn [sessionStorage localStorage]. by simplify_map_eq.
Qed.

(** X14. [setAuthData] and [clearAuthData] read and write only the
    keys user and token: every other key of both stores (the theme flag,
    for one) keeps its value. *)
Theorem credentials_touch_only_their_keys {UserRecord : Type}
    (JSON_stringify : UserRecord -> string)
    (user : option UserRecord) (token : option string) (w : Stores) (key : string) :
  key <> "user" -> key <> "token" ->
  let w1 := setAuthData JSON_stringify user token w in
  let w2 := clearAuthData w in
  getItem key (sessionStorage w1) = getItem key (sessionStorage w) /\
  getItem key (localStorage w1) = getItem key (localStorage w) /\
  getItem key (sessionStorage w2) = getItem key (sessionStorage w) /\
  getItem key (localStorage w2) = getItem key (localStorage w).
Proof.
  intros Hu Ht. cbv zeta. unfold setAuthData, clearAuthData, getItem, setItem, removeItem.
  destruct user as [u|], token as [t|]; try destruct (truthy (Some t));
    cbn [sessionStorage localStorage]; by simplify_map_eq.
Qed.

Lemma credentials_touch_only_their_keys_witness :
  let w := {| sessionStorage := ∅; localStorage := {["darkMode" := "true"]} |} in
  getItem "darkMode" (localStorage (setAuthData sample_stringify
     (Some BalanceEngine.alice) (Some "tok-1") w)) = Some "true" /\
  getItem "darkMode" (localStorage (clearAuthData w)) = Some "true".
Proof.
  cbv zeta. 
  pose proof (credentials_touch_only_their_keys sample_stringify
                (Some BalanceEngine.alice) (Some "tok-1")
                {| sessionStorage := ∅; localStorage := {["darkMode" := "true"]} |}
                "darkMode" ltac:(discriminate) ltac:(discriminate)) as (_ & H1 & _ & H2).
  split; [exact H1|exact H2].
Defined.

Lemma set_after_set (u1 u2 t1 t2 : string) (m : gmap string string) :
  setItem "token" t2 (setItem "user" u2 (setItem "token" t1 (setItem "user" u1 m))) =
  setItem "token" t2 (setItem "user" u2 m).
Proof.
  unfold setItem. apply map_eq. intros k.
  destruct (decide (k = "token")) as [->|]; [by simplify_map_eq|].
  destruct (decide (k = "user")) as [->|]; by simplify_map_eq.
Qed.

(** X15. Two calls of [setAuthData] in a row leave the stores as
    the second call alone does when its user and token are both present,
    and as the first call alone does otherwise. *)
Theorem last_login_wins {UserRecord : Type}
    (JSON_stringify : UserRecord -> string)
    (user1 user2 : option UserRecord) (token1 token2 : option string) (w : Stores) :
  setAuthData JSON_stringify user2 token2 (setAuthData JSON_stringify user1 token1 w) =
  if bool_decide (is_Some user2) && truthy token2
  then setAuthData JSON_stringify user2 token2 w
  else setAuthData JSON_stringify user1 token1 w.
Proof.
  destruct user2 as [u2|], token2 as [t2|]; cbn [setAuthData]; try done.
  rewrite bool_decide_true by eauto. cbn [andb].
  destruct (truthy (Some t2)) eqn:Ht2; [|done].
  destruct user1 as [u1|], token1 as [t1|]; cbn [setAuthData]; try done.
  destruct (truthy (Some t1)); [|done].
  cbn [sessionStorage localStorage]. by rewrite !set_after_set.
Qed.

(** X16. [ProtectedRoute] renders its children exactly when
    [getAuthToken] returns a token that is not empty, and otherwise a
    redirect to /login that replaces the history entry.  It renders the
    children after a [setAuthData] with both arguments present, also in a
    later browser session, and the redirect after [clearAuthData]. *)
Theorem protected_route_follows_login {UserRecord C : Type}
    (JSON_stringify : UserRecord -> string) (children : C) :
  (forall w : Stores,
     ProtectedRoute children w =
     if truthy (getAuthToken w) then Children children else NavigateTo "/login" true) /\
  (forall (u : UserRecord) (t : string) (w : Stores),
     t <> EmptyString ->
     let w' := setAuthData JSON_stringify (Some u) (Some t) w in
     ProtectedRoute children w' = Children children /\
     ProtectedRoute children (reopened w') = Children children) /\
  (forall w : Stores,
     ProtectedRoute children (clearAuthData w) = NavigateTo "/login" true /\
     ProtectedRoute children (reopened (clearAuthData w)) = NavigateTo "/login" true).
Proof.
  split; [|split].
  - intros w. unfold ProtectedRoute. by destruct (truthy (getAuthToken w)).
  - intros u t w Ht w'.
    destruct (stored_credentials JSON_stringify u t w Ht sessionStorage) as [_ Hst];
      [by left|].
    destruct (stored_credentials JSON_stringify u t w Ht localStorage) as [_ Hlt];
      [by right|].
    fold w' in Hst, Hlt. pose proof (AuthSpec.truthy_nonempty _ Ht) as Htt.
    unfold ProtectedRoute, getAuthToken, reopened. cbn [sessionStorage localStorage].
    rewrite Hst, Hlt. unfold getItem. rewrite lookup_empty.
    rewrite (or_else_truthy _ _ Htt), Htt.
    change (or_else None ?x) with x. by rewrite Htt.
  - intros w. unfold ProtectedRoute, getAuthToken, reopened, clearAuthData, getItem,
      removeItem. cbn [sessionStorage localStorage]. by simplify_map_eq.
Qed.

Lemma protected_route_follows_login_witness :
  let w := setAuthData sample_stringify (Some BalanceEngine.alice) (Some "tok-1")
             empty_stores in
  ProtectedRoute "dashboard" w = Children "dashboard" /\
  ProtectedRoute "dashboard" (reopened w) = Children "dashboard" /\
  ProtectedRoute "dashboard" (clearAuthData w) = NavigateTo "/login" true.
Proof.
  cbv zeta.
  destruct (protected_route_follows_login sample_stringify "dashboard") as (_ & H & H').
  destruct (H BalanceEngine.alice "tok-1" empty_stores ltac:(discriminate)) as [H1 H2].
  split; [exact H1|]. split; [exact H2|]. apply H'.
Defined.

End SessionSpec.

(** ** Event handlers and chat form *)

Module GroupEventsSpec.

Import Auth Session GroupDetails GroupEvents.

Lemma truthy_Some_inv s : truthy (Some s) = false -> s = EmptyString.
Proof. cbn. intros H%negb_false_iff. by apply String.eqb_eq. Qed.

Lemma truthy_Some_nonempty s : truthy (Some s) = true -> s <> EmptyString.
Proof. cbn. intros H%negb_true_iff. by apply String.eqb_neq. Qed.

(** X17. A run of [newMessage] events appends the messages to the
    local sequence in the order of delivery, without dropping or
    reordering any; it raises one informational notification, sender and
    text, for each message whose sender identifier differs from the
    current user's, in the same order, and none for the user's own; the
    group snapshot, the stores and everything else are left alone. *)
Theorem messages_append_in_delivery_order
    (currentUser : option User.t) (msgs : list Message.t) (w : World) :
  let r := deliverMessages currentUser msgs w in
  messages (fst r) = messages w ++ msgs /\
  snd r = (fun m => ToastInfo (Message.user m +:+ ": " +:+ Message.message m)) <$>
          filter (fun m => Some (Message.userId m) <> currentUserId currentUser) msgs /\
  group (fst r) = group w /\ stores (fst r) = stores w /\
  actions (fst r) = actions w /\ loading (fst r) = loading w /\
  connected (fst r) = connected w.
Proof.
  revert w. induction msgs as [|m msgs IH]; intros w; cbv zeta.
  - cbn. by rewrite app_nil_r.
  - cbn [deliverMessages]. unfold handleNewMessage.
    set (w1 := setMessages (messages w ++ [m]) w).
    specialize (IH w1). cbv zeta in IH.
    destruct IH as (H1 & H2 & H3 & H4 & H5 & H6 & H7).
    rewrite filter_cons.
    destruct (decide (Some (Message.userId m) <> currentUserId currentUser)) as [Hd|Hd].
    + rewrite bool_decide_true by done.
      destruct (deliverMessages currentUser msgs w1) as [w2 out2].
      cbn [fst snd] in *. rewrite H1, H2. cbn [messages w1 setMessages].
      by rewrite <- app_assoc.
    + rewrite bool_decide_false by done.
      destruct (deliverMessages currentUser msgs w1) as [w2 out2].
      cbn [fst snd] in *. rewrite H1, H2. cbn [messages w1 setMessages].
      by rewrite <- app_assoc.
Qed.

(** X18. The cleanup of the subscribing effect releases exactly
    the event names the effect subscribed to, in the same order; when the
    effect found no token it subscribed to nothing and returns no
    cleanup. *)
Theorem every_subscription_is_released (groupId : string) (w : World) :
  subscribed (drop (length (actions w)) (actions (joinGroupEffect groupId w))) =
  released (default [] (joinGroupCleanup w)) /\
  (joinGroupCleanup w = None <-> joinGroupEffect groupId w = w).
Proof.
  unfold joinGroupEffect, joinGroupCleanup.
  destruct (truthy (getAuthToken (stores w))); cbn [negb].
  - assert (E : forall l, drop (length (actions w)) (actions w ++ l) = l).
    { intros l. by rewrite drop_app_length. }
    destruct (connected w); cbn [negb perform actions]; rewrite <- ?app_assoc, E.
    + split; [done|]. split; [done|]. intros H%(f_equal actions).
      cbn [actions perform] in H. rewrite <- !app_assoc in H.
      apply (f_equal length) in H. rewrite length_app in H. cbn in H. lia.
    + split; [done|]. split; [done|]. intros H%(f_equal actions).
      cbn [actions perform] in H. rewrite <- !app_assoc in H.
      apply (f_equal length) in H. rewrite length_app in H. cbn in H. lia.
  - rewrite drop_all. done.
Qed.

(** X19. The [memberAdded], [memberRemoved] and [inviteCancelled]
    handlers never change the local snapshot themselves: each raises one
    notification and starts the same re-fetch as [fetchGroupData], which
    is in flight exactly when a token is stored.  The notification names
    the member by [memberName] unless that is empty, and by [memberEmail]
    then. *)
Theorem membership_events_notify_and_refetch
    (API_URL groupId : string) (data : MemberChange) (email : string) (w : World) :
  let refetch := fetchGroupData_request API_URL groupId w in
  let added := handleMemberAdded API_URL groupId data w in
  let removed := handleMemberRemoved API_URL groupId data w in
  let cancelled := handleInviteCancelled API_URL groupId email w in
  (who data = memberName data /\ memberName data <> EmptyString \/
   who data = memberEmail data /\ memberName data = EmptyString) /\
  actions (fst added) =
    actions w ++ ToastSuccess (Text (who data +:+ " joined the group!")) ::
    drop (length (actions w)) (actions (fst refetch)) /\
  removed = ([ToastInfo (who data +:+ " left the group")], refetch) /\
  cancelled = ([ToastInfo ("Invite to " +:+ email +:+ " was cancelled")], refetch) /\
  snd added = truthy (getAuthToken (stores w)) /\
  snd refetch = truthy (getAuthToken (stores w)) /\
  group (fst added) = group w /\ group (fst refetch) = group w /\
  messages (fst added) = messages w /\ messages (fst refetch) = messages w.
Proof.
  cbv zeta. split.
  { unfold who. destruct (truthy (Some (memberName data))) eqn:E.
    - left. split; [done|]. by apply truthy_Some_nonempty.
    - right. split; [done|]. by apply truthy_Some_inv. }
  unfold handleMemberAdded, handleMemberRemoved, handleInviteCancelled,
    fetchGroupData_request.
  cbn [stores perform].
  destruct (truthy (getAuthToken (stores w))); cbn [negb fst snd actions perform setLoading
    group messages]; rewrite ?drop_app_length, <- ?app_assoc; done.
Qed.

Lemma senderName_nonempty currentUser : senderName currentUser <> EmptyString.
Proof.
  unfold senderName, or_else.
  destruct currentUser as [u|]; cbn [fmap option_fmap option_map].
  - destruct (truthy (Some (User.name u))) eqn:E1.
    + rewrite E1. cbn [default]. by apply truthy_Some_nonempty.
    + destruct (truthy (Some (User.email u))) eqn:E2; [|done].
      cbn [default]. by apply truthy_Some_nonempty.
  - done.
Qed.

(** X20. [sendMessage] emits nothing and keeps the input when the
    trimmed input is empty; otherwise it emits one message with the
    group identifier, the trimmed text, the sender name, the current
    user's identifier and the time, and empties the input.  The sender
    name is never empty: it is the user's name, or the e-mail address when
    the name is empty, or the word Unknown. *)
Theorem chat_never_sends_blank
    (groupId : string) (currentUser : option User.t)
    (trim : string -> string) (now input : string) :
  let r := sendMessage groupId currentUser trim now input in
  let user := senderName currentUser in
  user <> EmptyString /\
  (user = "Unknown" \/
   exists u, currentUser = Some u /\
             (user = User.name u \/ user = User.email u /\ User.name u = EmptyString)) /\
  (trim input = EmptyString /\ r = (input, []) \/
   trim input <> EmptyString /\
   r = (EmptyString,
        [SocketEmitMessage groupId (trim input) user (User._id <$> currentUser) now])).
Proof.
  cbv zeta. split; [apply senderName_nonempty|]. split.
  - unfold senderName, or_else. destruct currentUser as [u|]; [|by left].
    cbn [fmap option_fmap option_map].
    destruct (truthy (Some (User.name u))) eqn:E1.
    + rewrite E1. cbn [default]. right. exists u. split; [done|]. by left.
    + destruct (truthy (Some (User.email u))) eqn:E2; [|by left].
      cbn [default]. right. exists u. split; [done|]. right.
      split; [done|]. by apply truthy_Some_inv.
  - unfold sendMessage. destruct (truthy (Some (trim input))) eqn:E; cbn [negb].
    + right. split; [by apply truthy_Some_nonempty|done].
    + left. split; [by apply truthy_Some_inv|done].
Qed.

(** Alice reads a message of her own and one of Bob's: only Bob's is
    announced. *)
Example own_message_is_not_announced :
  let r := deliverMessages (Some BalanceEngine.alice)
             [hello BalanceEngine.alice "hi"; hello BalanceEngine.bob "yo"]
             (initial empty_stores None) in
  Message.message <$> messages (fst r) = ["hi"; "yo"] /\
  snd r = [ToastInfo "Bob: yo"].
Proof. by vm_compute. Qed.

End GroupEventsSpec.

(** ** Snapshot fetch, theme and gradients *)

Module GroupViewSpec.

Import Auth Session GroupDetails GroupEvents.

(** X21. Whatever the reply, [fetchGroupData] ends with [loading]
    false and never touches the stored credentials or the socket.  With a
    token stored, a successful reply replaces group and messages
    wholesale; a failed reply keeps both, logs the error and raises one
    error notification whose text is the server's message when there is
    one and a default otherwise, never empty, and it navigates to /login
    exactly on status 401.  Without a token nothing is requested and the
    view navigates to /login. *)
Theorem fetch_group_outcomes (API_URL groupId : string) (reply : Reply) (w : World) :
  let w' := fetchGroupData API_URL groupId reply w in
  let token := getAuthToken (stores w) in
  let request := HttpGet (API_URL +:+ "/api/groups/" +:+ groupId)
                         ("Bearer " +:+ default EmptyString token) in
  loading w' = false /\ stores w' = stores w /\ connected w' = connected w /\
  if truthy token then
    match reply with
    | Ok data =>
        group w' = Some data /\ messages w' = default [] (Group.messages data) /\
        actions w' = actions w ++ [request]
    | Failed status message =>
        group w' = group w /\ messages w' = messages w /\
        exists text,
          text <> EmptyString /\
          (message = Some text \/
           text = "Failed to fetch group" /\ truthy message = false) /\
          actions w' = actions w ++
            [request; ConsoleError; ToastError (Text text)] ++
            (if bool_decide (status = Some 401%nat) then [Navigate "/login"] else [])
    end
  else
    group w' = group w /\ messages w' = messages w /\
    actions w' = actions w ++ [Navigate "/login"].
Proof.
  cbv zeta. unfold fetchGroupData, fetchGroupData_request.
  destruct (truthy (getAuthToken (stores w))) eqn:Ht; cbn [negb]; [|done].
  destruct reply as [data|status message]; cbn [fetchGroupData_resume]; [done|].
  assert (Htext : exists text, text <> EmptyString /\
            (message = Some text \/ text = "Failed to fetch group" /\ truthy message = false) /\
            default "Failed to fetch group" (or_else message (Some "Failed to fetch group"))
            = text).
  { unfold or_else. destruct (truthy message) eqn:Hm.
    - destruct message as [m|]; [|done]. exists m.
      split; [by apply GroupEventsSpec.truthy_Some_nonempty|]. split; [by left|done].
    - exists "Failed to fetch group". split; [done|]. split; [by right|done]. }
  destruct Htext as (text & H1 & H2 & ->).
  destruct (bool_decide (status = Some 401%nat));
    cbn [loading stores connected group messages actions setLoading perform];
    repeat split; exists text; rewrite <- ?app_assoc; done.
Qed.

(** [js_length] counts UTF-16 code units, not bytes: an accented letter
    is one unit, a character outside the basic plane two. *)
Example js_length_counts_code_units :
  js_length "Café" = 4%nat /\ String.length "Café" = 5%nat /\
  js_length "🎉" = 2%nat /\ js_length "Goa trip" = String.length "Goa trip".
Proof. repeat split; reflexivity. Qed.

(** [getGroupGradient] of the group view and of the dashboard never index
    past the end of their lists. *)
Remark gradient_is_always_defined (group : option Group.t) (index : nat) :
  (exists c, getGroupGradient group = Some c /\ c ∈ gradients) /\
  (exists c, Dashboard.getGroupGradient index = Some c /\ c ∈ Dashboard.gradients).
Proof.
  split.
  - destruct group as [g|]; cbn [getGroupGradient].
    + destruct (lookup_lt_is_Some_2 gradients
                  (js_length (Group.name g) mod length gradients)%nat) as [c Hc].
      { apply Nat.mod_upper_bound. done. }
      exists c. split; [done|]. by eapply list_elem_of_lookup_2.
    + eexists. split; [done|]. apply list_elem_of_here.
  - unfold Dashboard.getGroupGradient.
    destruct (lookup_lt_is_Some_2 Dashboard.gradients
                (index mod length Dashboard.gradients)%nat) as [c Hc].
    { apply Nat.mod_upper_bound. done. }
    exists c. split; [done|]. by eapply list_elem_of_lookup_2.
Qed.

(** X22. [toggleTheme] returns the negated flag and stores it so
    that the initial state of the next mount reads it back, provided the
    platform's parser reads the texts true and false; the stored flag
    survives [clearAuthData] and a later browser session, toggling twice
    restores the flag, and toggling leaves [getAuthToken] as it was. *)
Theorem theme_survives_logout
    (JSON_parse : string -> Completion bool) (isDarkMode : bool) (w : Stores) :
  JSON_parse "true" = Normal true -> JSON_parse "false" = Normal false ->
  let newTheme := fst (toggleTheme isDarkMode w) in
  let w' := snd (toggleTheme isDarkMode w) in
  newTheme = negb isDarkMode /\
  initialDarkMode JSON_parse w' = Normal newTheme /\
  initialDarkMode JSON_parse (clearAuthData w') = Normal newTheme /\
  initialDarkMode JSON_parse (reopened w') = Normal newTheme /\
  fst (toggleTheme newTheme w') = isDarkMode /\
  getAuthToken w' = getAuthToken w.
Proof.
  intros Htrue Hfalse. cbv zeta. unfold toggleTheme. cbn [fst snd].
  assert (Hparse : forall b, JSON_parse (JSON_stringify_bool b) = Normal b)
    by (by intros []).
  assert (Htruthy : forall b, truthy (Some (JSON_stringify_bool b)) = true)
    by (by intros []).
  unfold initialDarkMode, reopened, clearAuthData, getAuthToken, getItem, setItem,
    removeItem. cbn [sessionStorage localStorage].
  simplify_map_eq. rewrite !Htruthy, !Hparse, negb_involutive. done.
Qed.

Lemma theme_survives_logout_witness :
  let w := snd (toggleTheme false empty_stores) in
  initialDarkMode sample_parse_bool w = Normal true /\
  initialDarkMode sample_parse_bool (clearAuthData w) = Normal true.
Proof.
  cbv zeta.
  destruct (theme_survives_logout sample_parse_bool false empty_stores
              ltac:(reflexivity) ltac:(reflexivity)) as (_ & H1 & H2 & _).
  split; [exact H1|exact H2].
Defined.

End GroupViewSpec.

(** ** Mutations of the group view *)

Module GroupMutationsSpec.

Import Auth GroupDetails GroupMutations.

Lemma only_tells_intro literal message w :
  only_tells literal message w
    (perform (ToastError (Text (or_text message literal))) w).
Proof. by repeat split. Qed.

(** X23. The five mutations of the group view ([addExpense],
    [handleAddMember], [handleRemoveMember], [handleCancelInvite],
    [handleDeleteGroup]) never end the session.  Each sends its request
    with whatever [getAuthToken] returned, the text null when no token is
    stored, without checking it; only a blank form or a declined
    confirmation sends nothing.  When the request fails, whatever the
    status, 401 included, the handler raises one error notification, the
    server's message or its own default, and nothing else: stored
    credentials, snapshot, messages and route stay as they are.  When it
    succeeds the handler raises one success notification and starts the
    re-fetch of the snapshot ([handleDeleteGroup] navigates to the
    dashboard instead).  The busy flags of the two forms end false either
    way. *)
Theorem group_mutations_keep_the_session
    (API_URL groupId : string) (Number : string -> number)
    (trim encodeURIComponent : string -> string)
    (confirmed : bool) (email : string)
    (status : option nat) (message : option string) (f : Forms) (w : World) :
  let refused := Refused status message in
  let expense := addExpense_request API_URL groupId Number f w in
  let member := handleAddMember_request API_URL groupId trim f w in
  let removal := handleRemoveMember_request API_URL groupId encodeURIComponent
                   confirmed email w in
  let cancellation := handleCancelInvite_request API_URL groupId encodeURIComponent
                        confirmed email w in
  let deletion := handleDeleteGroup_request API_URL groupId confirmed w in
  Forall (fun r => from_option (fun q => authorization_of q = bearer w) True r)
         [snd expense; snd member; removal; cancellation; deletion] /\
  (snd expense = None <->
     fst (newExpense f) = EmptyString \/ snd (newExpense f) = EmptyString) /\
  (snd member = None <-> trim (newMemberEmail f) = EmptyString) /\
  (removal = None <-> confirmed = false) /\
  (cancellation = None <-> confirmed = false) /\
  (deletion = None <-> confirmed = false) /\
  only_tells "Failed to add expense" message w
    (fst (snd (addExpense_resume API_URL groupId refused f w))) /\
  only_tells "Failed to add member" message w
    (fst (snd (handleAddMember_resume API_URL groupId refused f w))) /\
  only_tells "Failed to remove member" message w
    (fst (handleRemoveMember_resume API_URL groupId refused w)) /\
  only_tells "Failed to cancel invite" message w
    (fst (handleCancelInvite_resume API_URL groupId refused w)) /\
  only_tells "Failed to delete group" message w
    (handleDeleteGroup_resume refused w) /\
  tells_and_refetches API_URL groupId "Expense added successfully!" w
    (snd (addExpense_resume API_URL groupId Done f w)) /\
  tells_and_refetches API_URL groupId "Member added successfully!" w
    (snd (handleAddMember_resume API_URL groupId Done f w)) /\
  tells_and_refetches API_URL groupId "Member removed successfully" w
    (handleRemoveMember_resume API_URL groupId Done w) /\
  tells_and_refetches API_URL groupId "Invite cancelled successfully" w
    (handleCancelInvite_resume API_URL groupId Done w) /\
  handleDeleteGroup_resume Done w =
    perform (Navigate "/dashboard")
      (perform (ToastSuccess (Text "Group deleted successfully!")) w) /\
  Forall (fun o => isAddingExpense (fst (addExpense_resume API_URL groupId o f w)) = false /\
                   addingMember (fst (handleAddMember_resume API_URL groupId o f w)) = false)
         [Done; refused].
Proof.
  cbv zeta.
  split.
  { unfold addExpense_request, handleAddMember_request, handleRemoveMember_request,
      handleCancelInvite_request, handleDeleteGroup_request.
    destruct (newExpense f) as [description amount].
    destruct (negb (truthy (Some description)) || negb (truthy (Some amount))),
      (negb (truthy (Some (trim (newMemberEmail f))))), confirmed;
      repeat constructor. }
  split.
  { unfold addExpense_request. destruct (newExpense f) as [description amount].
    cbn [fst snd].
    destruct (truthy (Some description)) eqn:Hd.
    - destruct (truthy (Some amount)) eqn:Ha; cbn [negb orb snd].
      + apply GroupEventsSpec.truthy_Some_nonempty in Hd, Ha.
        split; [done|]. by intros [?|?].
      + apply GroupEventsSpec.truthy_Some_inv in Ha. split; [by right|done].
    - apply GroupEventsSpec.truthy_Some_inv in Hd. cbn [negb orb snd].
      split; [by left|done]. }
  split.
  { unfold handleAddMember_request.
    destruct (truthy (Some (trim (newMemberEmail f)))) eqn:He; cbn [negb snd].
    - apply GroupEventsSpec.truthy_Some_nonempty in He. done.
    - apply GroupEventsSpec.truthy_Some_inv in He. done. }
  split; [by destruct confirmed|]. split; [by destruct confirmed|].
  split; [by destruct confirmed|].
  repeat (split; [apply only_tells_intro|]).
  repeat (split; [done|]).
  by repeat constructor.
Qed.

End GroupMutationsSpec.

(** ** Dashboard *)

Module DashboardSpec.

Import Auth Session Dashboard.

Lemma cleared_token_is_falsy (st : Stores) : getAuthToken (clearAuthData st) = None.
Proof.
  unfold getAuthToken, clearAuthData, getItem, removeItem.
  cbn [sessionStorage localStorage]. by simplify_map_eq.
Qed.

Ltac decide_member :=
  rewrite ?elem_of_cons, ?elem_of_nil;
  first [ discriminate
        | tauto
        | let H := fresh in
          intros H; repeat (destruct H as [H|H]; try discriminate H); done ].

(** X24. Whatever the reply, [fetchGroups] ends with [isLoading]
    false.  With a token stored it sends one request; the stored
    credentials are cleared exactly on status 401, which is also exactly
    when it navigates to /login, and the list then stays as it was; any
    other failure empties the list and a successful reply replaces it.
    Without a token nothing is requested and nothing changes but the
    navigation to /login. *)
Theorem fetch_groups_outcomes (API_URL : string) (reply : ListReply) (w : World) :
  let w' := fetchGroups API_URL reply w in
  let expired := match reply with
                 | ListFailed status _ => bool_decide (status = Some 401%nat)
                 | Listed _ => false
                 end in
  isLoading w' = false /\
  if truthy (getAuthToken (stores w)) then
    stores w' = (if expired then clearAuthData (stores w) else stores w) /\
    groups w' = match reply with
                | Listed data => default [] data
                | ListFailed _ _ => if expired then groups w else []
                end /\
    requests (actions w') = requests (actions w) ++
      [HttpGet (API_URL +:+ "/api/groups") (bearer w)] /\
    (Navigate "/login" ∈ drop (length (actions w)) (actions w') <-> expired = true)
  else
    stores w' = stores w /\ groups w' = groups w /\
    actions w' = actions w ++ [Navigate "/login"].
Proof.
  cbv zeta. unfold fetchGroups, fetchGroups_request. cbn [stores setIsLoading].
  destruct (truthy (getAuthToken (stores w))) eqn:Ht; cbn [negb]; [|done].
  assert (E : forall l, drop (length (actions w)) (actions w ++ l) = l).
  { intros l. by rewrite drop_app_length. }
  unfold requests.
  destruct reply as [data|status message]; cbn [fetchGroups_resume].
  - cbn [isLoading stores groups actions setIsLoading setGroups perform].
    rewrite <- !app_assoc, E, !List.filter_app. cbn [List.filter app].
    rewrite ?app_nil_r.
    repeat split; try done; decide_member.
  - destruct (bool_decide (status = Some 401%nat)); [|destruct (bool_decide (status = Some 404%nat))];
      cbn [isLoading stores groups actions setIsLoading setGroups setStores perform];
      rewrite <- !app_assoc, E, !List.filter_app; cbn [List.filter app];
      rewrite ?app_nil_r; repeat split; try done; decide_member.
Qed.

(** X25. After a 401 reply to [fetchGroups], and after
    [handleLogout], no usable token can be read any more: a further
    [fetchGroups] sends no request, whatever the server would answer,
    and [ProtectedRoute] redirects to /login. *)
Theorem expired_session_asks_nothing_more
    (API_URL : string) (message : option string) (next : ListReply) (w : World) :
  let expired := fetchGroups API_URL (ListFailed (Some 401%nat) message) w in
  let loggedOut := handleLogout w in
  truthy (getAuthToken (stores expired)) = false /\
  getAuthToken (stores loggedOut) = None /\
  requests (actions (fetchGroups API_URL next expired)) = requests (actions expired) /\
  requests (actions (fetchGroups API_URL next loggedOut)) = requests (actions w) /\
  ProtectedRoute tt (stores expired) = NavigateTo "/login" true /\
  ProtectedRoute tt (stores loggedOut) = NavigateTo "/login" true.
Proof.
  cbv zeta.
  assert (Hexp : truthy (getAuthToken
            (stores (fetchGroups API_URL (ListFailed (Some 401%nat) message) w))) = false).
  { unfold fetchGroups, fetchGroups_request. cbn [stores setIsLoading].
    destruct (truthy (getAuthToken (stores w))) eqn:Ht; cbn [negb]; [|done].
    cbn [fetchGroups_resume]. rewrite bool_decide_true by done.
    cbn [stores setIsLoading setStores perform]. by rewrite cleared_token_is_falsy. }
  assert (Hout : getAuthToken (stores (handleLogout w)) = None).
  { unfold handleLogout. cbn [stores setStores perform]. apply cleared_token_is_falsy. }
  assert (Hnone : forall w0, truthy (getAuthToken (stores w0)) = false ->
            requests (actions (fetchGroups API_URL next w0)) = requests (actions w0)).
  { intros w0 H0. unfold fetchGroups, fetchGroups_request. cbn [stores setIsLoading].
    rewrite H0. cbn [negb actions setIsLoading perform]. unfold requests.
    rewrite List.filter_app. cbn. by rewrite app_nil_r. }
  split; [done|]. split; [done|]. split; [by apply Hnone|]. split.
  - rewrite Hnone by (by rewrite Hout). unfold handleLogout, requests.
    cbn [actions setStores perform]. rewrite !List.filter_app. cbn.
    by rewrite !app_nil_r.
  - unfold ProtectedRoute. rewrite Hexp, Hout. done.
Qed.

Section Create.

Variable API_URL : string.
Variables trim toLowerCase : string -> string.
Variable emailRegex_test : string -> bool.
Variable invite : nat -> string -> InviteReply.

Lemma inviteMembers_spec url authorization emails : forall position w count errors,
  let r := inviteMembers trim invite url authorization position emails (w, count, errors) in
  let w' := fst (fst r) in
  (snd (fst r) + length (snd r) = count + length errors + length emails)%nat /\
  (exists more, snd r = errors ++ more) /\
  invitations (actions w') = invitations (actions w) ++ (trim <$> emails) /\
  warnings (actions w') = warnings (actions w) /\
  (exists more, actions w' = actions w ++ more /\
     Forall (fun a => match a with
                      | HttpPostMember _ _ _ | ConsoleLog | ConsoleError => True
                      | _ => False
                      end) more) /\
  stores w' = stores w /\ groups w' = groups w /\ groupName w' = groupName w /\
  members w' = members w /\ showCreateForm w' = showCreateForm w /\
  isCreating w' = isCreating w /\ isLoading w' = isLoading w.
Proof.
  induction emails as [|email rest IH]; intros position w count errors; cbv zeta.
  - cbn [inviteMembers fst snd length fmap list_fmap]. rewrite !app_nil_r.
    split; [lia|]. split; [by exists []; rewrite app_nil_r|].
    repeat split; try done. exists []. by rewrite app_nil_r.
  - cbn [inviteMembers].
    destruct (invite position email) as [|message].
    + specialize (IH (S position)
        (perform ConsoleLog (perform (HttpPostMember url authorization (trim email)) w))
        (S count) errors).
      cbv zeta in IH. destruct IH as (H1 & H2 & H3 & H4 & (more & H5 & H5') & H6).
      split; [cbn [length]; lia|]. split; [done|].
      rewrite H3, H4. cbn [actions perform]. unfold invitations, warnings.
      rewrite !omap_app. cbn. rewrite !app_nil_r, <- !app_assoc.
      split; [done|]. split; [done|]. split; [|exact H6].
      eexists. rewrite H5. cbn [actions perform]. rewrite <- !app_assoc.
      split; [done|]. cbn. by repeat constructor.
    + specialize (IH (S position)
        (perform ConsoleError (perform (HttpPostMember url authorization (trim email)) w))
        count (errors ++ [email +:+ ": " +:+ or_text message "Failed to add"])).
      cbv zeta in IH. destruct IH as (H1 & (more0 & H2) & H3 & H4 & (more & H5 & H5') & H6).
      rewrite length_app in H1. 
      split; [cbn [length] in *; lia|].
      split; [eexists; rewrite H2, <- app_assoc; done|].
      rewrite H3, H4. cbn [actions perform]. unfold invitations, warnings.
      rewrite !omap_app. cbn. rewrite !app_nil_r, <- !app_assoc.
      split; [done|]. split; [done|]. split; [|exact H6].
      eexists. rewrite H5. cbn [actions perform]. rewrite <- !app_assoc.
      split; [done|]. cbn. by repeat constructor.
Qed.

Lemma warnings_foldl errors : forall w,
  let w' := foldl (fun w error => perform (ToastWarn ("Invite failed - " +:+ error)) w)
                  w errors in
  warnings (actions w') =
    warnings (actions w) ++ ((fun error => "Invite failed - " +:+ error) <$> errors) /\
  invitations (actions w') = invitations (actions w) /\
  stores w' = stores w /\ groups w' = groups w /\ groupName w' = groupName w /\
  members w' = members w /\ showCreateForm w' = showCreateForm w /\
  isCreating w' = isCreating w.
Proof.
  induction errors as [|error errors IH]; intros w; cbv zeta.
  - cbn. by rewrite app_nil_r.
  - cbn [foldl]. specialize (IH (perform (ToastWarn ("Invite failed - " +:+ error)) w)).
    cbv zeta in IH. destruct IH as (H1 & H2 & H3).
    rewrite H1, H2. cbn [actions perform]. unfold warnings, invitations.
    rewrite !omap_app. cbn. rewrite !app_nil_r, <- app_assoc. done.
Qed.

Lemma warnings_keep errors : forall w a,
  a ∈ actions w ->
  a ∈ actions (foldl (fun w error => perform (ToastWarn ("Invite failed - " +:+ error)) w)
                 w errors).
Proof.
  induction errors as [|e es IH]; intros w a Ha; [done|].
  cbn [foldl]. apply IH. cbn [actions perform]. apply elem_of_app. by left.
Qed.

(** X27. Once the group is created, [handleCreateGroup] sends one
    invitation for each member entry it held on to, in order, and each is
    either counted as invited or reported by one warning, never both and
    never neither; the new group is put first in the list, the form is
    reset and [isCreating] ends false even when every invitation fails,
    and the success notification tells the number invited.  The stored
    credentials are not touched. *)
Theorem every_invitation_is_counted_or_reported
    (newGroup : GroupCard.t) (held : Pending) (w : World) :
  let w' := handleCreateGroup_resume API_URL trim invite (Created newGroup) held w in
  groups w' = newGroup :: groups w /\
  groupName w' = EmptyString /\ members w' = [EmptyString] /\
  showCreateForm w' = false /\ isCreating w' = false /\ stores w' = stores w /\
  invitations (actions w') = invitations (actions w) ++ (trim <$> emails held) /\
  exists memberAddedCount failed,
    (memberAddedCount + length failed = length (emails held))%nat /\
    warnings (actions w') =
      warnings (actions w) ++ ((fun error => "Invite failed - " +:+ error) <$> failed) /\
    ToastSuccess (successMessage (length (emails held)) memberAddedCount) ∈ actions w'.
Proof.
  cbv zeta. unfold handleCreateGroup_resume.
  destruct held as [token emails]. cbn [Dashboard.token Dashboard.emails].
  set (url := API_URL +:+ "/api/groups/" +:+ GroupCard._id newGroup +:+ "/members").
  pose proof (inviteMembers_spec url ("Bearer " +:+ token) emails 0%nat
                (perform ConsoleLog w) 0%nat []) as H. cbv zeta in H.
  destruct (inviteMembers trim invite url ("Bearer " +:+ token) 0 emails
              (perform ConsoleLog w, 0%nat, [])) as [[w1 count] errors].
  cbn [fst snd length] in H.
  destruct H as (Hc & _ & Hi & Hw & _ & Hst & Hg & _).
  cbn [actions perform] in Hi, Hw. 
  assert (Hi0 : invitations (actions w ++ [ConsoleLog]) = invitations (actions w)).
  { unfold invitations. rewrite omap_app. cbn. by rewrite app_nil_r. }
  assert (Hw0 : warnings (actions w ++ [ConsoleLog]) = warnings (actions w)).
  { unfold warnings. rewrite omap_app. cbn. by rewrite app_nil_r. }
  rewrite Hi0 in Hi. rewrite Hw0 in Hw.
  set (w2 := perform (ToastSuccess (successMessage (length emails) count))
               (setShowCreateForm false (setMembers [EmptyString]
                  (setGroupName EmptyString (setGroups (newGroup :: groups w1) w1))))).
  assert (Hi2 : invitations (actions w2) = invitations (actions w) ++ (trim <$> emails)).
  { unfold w2. cbn [actions perform setShowCreateForm setMembers setGroupName setGroups].
    unfold invitations in *. rewrite omap_app. cbn. by rewrite app_nil_r. }
  assert (Hw2 : warnings (actions w2) = warnings (actions w)).
  { unfold w2. cbn [actions perform setShowCreateForm setMembers setGroupName setGroups].
    unfold warnings in *. rewrite omap_app. cbn. by rewrite app_nil_r. }
  assert (Hin : ToastSuccess (successMessage (length emails) count) ∈ actions w2).
  { unfold w2. cbn [actions perform]. apply elem_of_app. right. apply list_elem_of_here. }
  pose proof (warnings_foldl errors w2) as Hf. cbv zeta in Hf.
  destruct Hf as (Hf1 & Hf2 & Hf3 & Hf4 & Hf5 & Hf6 & Hf7 & Hf8).
  pose proof (warnings_keep errors w2) as Hsub.
  assert (G : groups w2 = newGroup :: groups w /\ groupName w2 = EmptyString /\
              members w2 = [EmptyString] /\ showCreateForm w2 = false /\
              stores w2 = stores w).
  { unfold w2. cbn [groups groupName members showCreateForm stores perform
      setShowCreateForm setMembers setGroupName setGroups]. by rewrite Hg, Hst. }
  destruct G as (G1 & G2 & G3 & G4 & G5).
  clearbody w2.
  destruct ((0 <? length emails)%nat && (0 <? length errors)%nat) eqn:Hcond.
  - cbn [groups groupName members showCreateForm isCreating stores actions setIsCreating].
    rewrite Hf3, Hf4, Hf5, Hf6, Hf7, Hf2, Hf1, Hi2, Hw2, G1, G2, G3, G4, G5.
    repeat split; try done. exists count, errors. split; [lia|]. split; [done|].
    by apply Hsub.
  - cbn [groups groupName members showCreateForm isCreating stores actions setIsCreating].
    rewrite Hi2, Hw2, G1, G2, G3, G4, G5.
    repeat split; try done.
    assert (Herr : errors = []).
    { apply andb_false_iff in Hcond as [H|H]; apply Nat.ltb_ge in H.
      - destruct emails; [|cbn in H; lia]. cbn in Hc. destruct errors; [done|cbn in Hc; lia].
      - destruct errors; [done|cbn in H; lia]. }
    subst errors. exists count, []. split; [cbn in *; lia|]. split; [by rewrite app_nil_r|].
    exact Hin.
Qed.

End Create.

(** A group created with two members of whom the server refuses the
    second: the trace of the whole handler. *)
Example create_with_one_refusal :
  let w := {| stores := {| sessionStorage := {["token" := "tok-1"]}; localStorage := ∅ |};
              groups := []; isLoading := false; showCreateForm := true;
              groupName := "Trip"; members := ["a@x.org"; EmptyString; "b@x.org"];
              isCreating := false; actions := [] |} in
  let has_at s := bool_decide (is_Some (String.index 0 "@" s)) in
  let invite position (email : string) :=
    if Nat.eqb position 1 then InviteFailed None else Invited in
  let trip := {| GroupCard._id := "g7"; GroupCard.name := "Trip";
                 GroupCard.members := None |} in
  let w' := handleCreateGroup "https://api.example.org" id id has_at invite
              (Created trip) w in
  actions w' =
    [ConsoleLog;
     HttpPostGroup "https://api.example.org/api/groups" "Bearer tok-1" "Trip";
     ConsoleLog;
     HttpPostMember "https://api.example.org/api/groups/g7/members" "Bearer tok-1" "a@x.org";
     ConsoleLog;
     HttpPostMember "https://api.example.org/api/groups/g7/members" "Bearer tok-1" "b@x.org";
     ConsoleError;
     ToastSuccess "Group created successfully! 1 member invited.";
     ToastWarn "Invite failed - b@x.org: Failed to add"] /\
  groups w' = [trip] /\ members w' = [EmptyString] /\ isCreating w' = false.
Proof. by vm_compute. Qed.

Lemma find_invalid_none (f : string -> bool) l :
  List.find (fun x => negb (f x)) l = None <-> forallb f l = true.
Proof.
  induction l as [|x l IH]; [done|]. cbn. destruct (f x); cbn; [done|].
  split; discriminate.
Qed.

(** X26. [handleCreateGroup] sends the request that creates the
    group exactly when the trimmed name is not empty, a token is stored
    and every trimmed, lower-cased, non-blank member entry passes the
    e-mail pattern; the request then carries the trimmed name and that
    token, [isCreating] is set, and the handler holds on to the token and
    the member entries.  Otherwise nothing is requested: one error
    notification, or the navigation to /login, is all that happens, and
    [isCreating] ends false unless the name was blank.  Stores, group list
    and form are left alone either way. *)
Theorem create_group_validates_first
    (API_URL : string) (trim toLowerCase : string -> string)
    (emailRegex_test : string -> bool) (w : World) :
  let r := handleCreateGroup_request API_URL trim toLowerCase emailRegex_test w in
  let named := truthy (Some (trim (groupName w))) in
  let filtered := filteredMembers trim toLowerCase (members w) in
  let valid := named && truthy (getAuthToken (stores w)) &&
               forallb emailRegex_test filtered in
  stores (fst r) = stores w /\ groups (fst r) = groups w /\
  groupName (fst r) = groupName w /\ members (fst r) = members w /\
  if valid then
    exists token,
      getAuthToken (stores w) = Some token /\
      snd r = Some {| token := token; emails := filtered |} /\
      isCreating (fst r) = true /\
      actions (fst r) = actions w ++
        [ConsoleLog;
         HttpPostGroup (API_URL +:+ "/api/groups") ("Bearer " +:+ token)
                       (trim (groupName w))]
  else
    snd r = None /\
    isCreating (fst r) = (if named then false else isCreating w) /\
    requests (actions (fst r)) = requests (actions w) /\
    exists a, actions (fst r) = actions w ++ [a] /\
              match a with ToastError _ | Navigate "/login" => True | _ => False end.
Proof.
  cbv zeta. unfold handleCreateGroup_request.
  assert (Hreq : forall a, match a with
                           | HttpGet _ _ | HttpPostGroup _ _ _ | HttpPostMember _ _ _ => False
                           | _ => True
                           end ->
                 requests (actions w ++ [a]) = requests (actions w)).
  { intros a Ha. unfold requests. rewrite List.filter_app. cbn.
    destruct a; try done; by rewrite app_nil_r. }
  destruct (truthy (Some (trim (groupName w)))) eqn:Hn; cbn [negb andb].
  2:{ cbn [fst snd stores groups groupName members isCreating actions perform].
      repeat split; try done; [by apply Hreq|by eexists]. }
  cbn [stores setIsCreating].
  destruct (getAuthToken (stores w)) as [token|] eqn:Ht.
  2:{ cbn [truthy andb fst snd stores groups groupName members isCreating actions perform
        setIsCreating].
      repeat split; try done; [by apply Hreq|by eexists]. }
  destruct (truthy (Some token)) eqn:Htt; cbn [negb andb].
  2:{ cbn [fst snd stores groups groupName members isCreating actions perform setIsCreating].
      repeat split; try done; [by apply Hreq|by eexists]. }
  cbn [members setIsCreating].
  destruct (List.find _ _) as [member|] eqn:Hf.
  - assert (Hv : forallb emailRegex_test (filteredMembers trim toLowerCase (members w)) = false).
    { destruct (forallb _ _) eqn:Hv; [|done].
      apply find_invalid_none in Hv. congruence. }
    rewrite Hv.
    cbn [fst snd stores groups groupName members isCreating actions perform setIsCreating].
    repeat split; try done; [by apply Hreq|by eexists].
  - apply find_invalid_none in Hf. rewrite Hf.
    cbn [fst snd stores groups groupName members isCreating actions perform setIsCreating].
    repeat split; try done. exists token. rewrite <- app_assoc. done.
Qed.

End DashboardSpec.

(** ** Login *)

Module LoginSpec.

Import Auth Session LoginPage.

(** X28. Whatever the reply, the rest of [handleSubmit] ends with
    [loading] false, and it changes the stores only for a reply that
    carries both a user and a token that is not empty, after which
    [getAuthToken] returns that token.  A reply with a user connects the
    socket, joins the user's room, welcomes the user and navigates to the
    dashboard; a reply without a user connects the socket and then fails
    with the default error notification; a failed request raises one
    error notification and nothing else. *)
Theorem login_outcomes
    (JSON_stringify : User.t -> string) (onNavigate : bool) (reply : Reply) (w : World) :
  let w' := handleSubmit_resume JSON_stringify onNavigate reply w in
  let new := drop (length (actions w)) (actions w') in
  let target := if onNavigate then OnNavigate "dashboard" else Navigate "/dashboard" in
  loading w' = false /\
  (stores w' = stores w \/
   exists u t, reply = Ok {| user := Some u; token := Some t |} /\ t <> EmptyString /\
               getAuthToken (stores w') = Some t) /\
  match reply with
  | Ok data =>
      match user data with
      | Some u =>
          new = [SocketConnect; SocketEmit "joinUser" (User._id u);
                 ToastSuccess ("🎉 Welcome back, " +:+ User.name u +:+ "!"); target]
      | None =>
          stores w' = stores w /\
          new = [SocketConnect; ConsoleError;
                 ToastError "Login failed! Please check your credentials."]
      end
  | Failed status message code =>
      stores w' = stores w /\
      new = [ConsoleError; ToastError (errorMessage status message code)]
  end.
Proof.
  cbv zeta.
  assert (E : forall l, drop (length (actions w)) (actions w ++ l) = l).
  { intros l. by rewrite drop_app_length. }
  destruct reply as [[user token]|status message code]; cbn [handleSubmit_resume LoginPage.user
    LoginPage.token].
  - destruct user as [u|].
    + destruct onNavigate;
        cbn [loading stores actions setLoading setStores perform]; rewrite <- !app_assoc, E;
        (split; [done|]); (split; [|done]).
      all: destruct token as [t|]; [|by left].
      all: destruct (truthy (Some t)) eqn:Ht; [|left; cbn [setAuthData]; by rewrite Ht].
      all: right; exists u, t; split; [done|];
        pose proof (GroupEventsSpec.truthy_Some_nonempty _ Ht) as Hne; split; [done|].
      all: by destruct (SessionSpec.token_after_login JSON_stringify u t (stores w) Hne).
    + cbn [loading stores actions setLoading setStores perform setAuthData].
      rewrite <- !app_assoc, E. split; [done|]. split; [by left|done].
  - cbn [loading stores actions setLoading setStores perform].
    rewrite <- !app_assoc, E. split; [done|]. split; [by left|done].
Qed.

(** X29. After a login reply with a user and a token that is not
    empty, the dashboard's first [fetchGroups] requests the group list
    with exactly that token as bearer credential, in this and in a later
    browser session, and [ProtectedRoute] renders its children. *)
Theorem login_then_dashboard
    (JSON_stringify : User.t -> string) (onNavigate : bool) (API_URL : string)
    (u : User.t) (t : string) (w : World) :
  t <> EmptyString ->
  let w' := handleSubmit_resume JSON_stringify onNavigate
              (Ok {| user := Some u; token := Some t |}) w in
  let request := ([Dashboard.HttpGet (API_URL +:+ "/api/groups") ("Bearer " +:+ t)], true) in
  let first_fetch st :=
    let r := Dashboard.fetchGroups_request API_URL (Dashboard.initial st) in
    (Dashboard.actions (fst r), snd r) in
  first_fetch (stores w') = request /\
  first_fetch (reopened (stores w')) = request /\
  ProtectedRoute tt (stores w') = Children tt.
Proof.
  intros Ht. cbv zeta. cbn [handleSubmit_resume LoginPage.user LoginPage.token].
  assert (Es : forall w0, stores (setLoading false w0) = stores w0) by done.
  destruct onNavigate; rewrite Es; cbn [stores perform setStores];
    destruct (SessionSpec.token_after_login JSON_stringify u t (stores w) Ht) as [H1 H2];
    unfold Dashboard.fetchGroups_request, Dashboard.bearer, ProtectedRoute;
    cbn [Dashboard.stores Dashboard.setIsLoading Dashboard.initial];
    rewrite H1, H2, (AuthSpec.truthy_nonempty _ Ht); done.
Qed.

Lemma login_then_dashboard_witness :
  let w' := handleSubmit_resume sample_stringify false
              (Ok {| user := Some BalanceEngine.alice; token := Some "tok-1" |})
              {| stores := empty_stores; loading := true; actions := [] |} in
  let r := Dashboard.fetchGroups_request "https://api.example.org"
             (Dashboard.initial (stores w')) in
  (Dashboard.actions (fst r), snd r) =
  ([Dashboard.HttpGet "https://api.example.org/api/groups" "Bearer tok-1"], true).
Proof.
  cbv zeta.
  destruct (login_then_dashboard sample_stringify false "https://api.example.org"
              BalanceEngine.alice "tok-1"
              {| stores := empty_stores; loading := true; actions := [] |}
              ltac:(discriminate)) as [H _].
  exact H.
Defined.

(** X30. A login reply that carries a user but no token, on stores
    that hold no token, stores nothing and yet welcomes the user and
    navigates to the dashboard, whose first [fetchGroups] requests nothing
    and navigates back to /login. *)
Theorem welcome_without_token
    (JSON_stringify : User.t -> string) (onNavigate : bool) (API_URL : string)
    (u : User.t) (token : option string) (w : World) :
  truthy token = false -> truthy (getAuthToken (stores w)) = false ->
  let w' := handleSubmit_resume JSON_stringify onNavigate
              (Ok {| user := Some u; token := token |}) w in
  let r := Dashboard.fetchGroups_request API_URL (Dashboard.initial (stores w')) in
  stores w' = stores w /\
  navigations (actions w') = navigations (actions w) ++
    [if onNavigate then OnNavigate "dashboard" else Navigate "/dashboard"] /\
  (Dashboard.actions (fst r), snd r) = ([Dashboard.Navigate "/login"], false) /\
  ProtectedRoute tt (stores w') = NavigateTo "/login" true.
Proof.
  intros Htok Hnone. cbv zeta. cbn [handleSubmit_resume LoginPage.user LoginPage.token].
  assert (Es : setAuthData JSON_stringify (Some u) token (stores w) = stores w).
  { destruct token as [t|]; [|done]. cbn [setAuthData]. by rewrite Htok. }
  rewrite Es.
  destruct onNavigate; cbn [stores actions perform setStores setLoading];
    unfold navigations, Dashboard.fetchGroups_request, ProtectedRoute;
    cbn [Dashboard.stores Dashboard.setIsLoading Dashboard.initial];
    rewrite Hnone, <- !app_assoc, List.filter_app; done.
Qed.

Lemma welcome_without_token_witness :
  let w' := handleSubmit_resume sample_stringify true
              (Ok {| user := Some BalanceEngine.alice; token := None |})
              {| stores := empty_stores; loading := true; actions := [] |} in
  navigations (actions w') = [OnNavigate "dashboard"] /\
  ProtectedRoute tt (stores w') = NavigateTo "/login" true.
Proof.
  cbv zeta.
  destruct (welcome_without_token sample_stringify true "https://api.example.org"
              BalanceEngine.alice None
              {| stores := empty_stores; loading := true; actions := [] |}
              ltac:(reflexivity) ltac:(reflexivity)) as (_ & H1 & _ & H2).
  split; [exact H1|exact H2].
Defined.

End LoginSpec.
